(** * Swagger generator of ronycontrib: a shallow embedding and its properties

    The development follows [swagger/swagger.go]: Go strings are byte
    strings ([string] of [ascii]), Go maps are finite maps ([gmap]),
    [reflect.Type] values are identifiers into a table of run-time type
    descriptors, and the [*spec.Operation] pointers that path items share
    live in an explicit store. *)

From Stdlib Require Import ZArith List Ascii String Lia.
From stdpp Require Import base option gmap strings list fin_maps.

Import ListNotations.
Local Open Scope string_scope.
Local Open Scope list_scope.

(** ** Go's [strings] package, on byte strings *)

Module Strings.

(** [strings.Split(s, sep)] for a one-byte separator: all substrings
    between separators, [n+1] pieces for [n] separators, so the empty
    string yields one empty piece. *)
Fixpoint Split (s : string) (sep : ascii) : list string :=
  match s with
  | EmptyString => [EmptyString]
  | String c s' =>
      if Ascii.eqb c sep then EmptyString :: Split s' sep
      else match Split s' sep with
           | p :: ps => String c p :: ps
           | [] => [String c EmptyString]
           end
  end.

(** [strings.Join(elems, sep)]. *)
Fixpoint Join (elems : list string) (sep : string) : string :=
  match elems with
  | [] => EmptyString
  | [e] => e
  | e :: es => e +:+ sep +:+ Join es sep
  end.

(** [strings.HasPrefix(s, ":")] and the like, for a one-byte prefix. *)
Definition HasPrefix (s : string) (c : ascii) : bool :=
  match s with
  | String c' _ => Ascii.eqb c' c
  | EmptyString => false
  end.

(** The slice expression [s[1:]], used by the source only under
    [HasPrefix]; [strings.TrimPrefix(s, ":")] is the same there. *)
Definition tail1 (s : string) : string :=
  match s with
  | String _ s' => s'
  | EmptyString => EmptyString
  end.

Definition TrimPrefix (s : string) (c : ascii) : string :=
  if HasPrefix s c then tail1 s else s.

(** [strings.ToUpper] on ASCII letters.  Bytes outside [a-z] are kept,
    which is what Go does on every ASCII string; the Unicode case
    mapping of non-ASCII runes is not modelled. *)
Definition upperByte (c : ascii) : ascii :=
  let n := nat_of_ascii c in
  if (97 <=? n)%nat && (n <=? 122)%nat then ascii_of_nat (n - 32) else c.

Fixpoint ToUpper (s : string) : string :=
  match s with
  | EmptyString => EmptyString
  | String c s' => String (upperByte c) (ToUpper s')
  end.

(** White space as [unicode.IsSpace] has it, on the UTF-8 bytes of a Go
    string: the six ASCII spaces, U+0085 and U+00A0 (two bytes), and
    U+1680, U+2000..U+200A, U+2028, U+2029, U+202F, U+205F, U+3000
    (three bytes). *)
Definition isSpace1 (c : ascii) : bool :=
  let n := nat_of_ascii c in
  ((9 <=? n)%nat && (n <=? 13)%nat) || (n =? 32)%nat.

Definition isSpace2 (c d : ascii) : bool :=
  let n := nat_of_ascii c in
  let m := nat_of_ascii d in
  (n =? 194)%nat && ((m =? 133)%nat || (m =? 160)%nat).

Definition isSpace3 (c d e : ascii) : bool :=
  let n := nat_of_ascii c in
  let m := nat_of_ascii d in
  let k := nat_of_ascii e in
  ((n =? 225)%nat && (m =? 154)%nat && (k =? 128)%nat)
  || ((n =? 226)%nat && (m =? 128)%nat
      && (((128 <=? k)%nat && (k <=? 138)%nat)
          || (k =? 168)%nat || (k =? 169)%nat || (k =? 175)%nat))
  || ((n =? 226)%nat && (m =? 129)%nat && (k =? 159)%nat)
  || ((n =? 227)%nat && (m =? 128)%nat && (k =? 128)%nat).

(** Leading white-space runes removed. *)
Fixpoint TrimLeftSpace (s : string) : string :=
  match s with
  | EmptyString => EmptyString
  | String c r =>
      if isSpace1 c then TrimLeftSpace r
      else match r with
           | String d r2 =>
               if isSpace2 c d then TrimLeftSpace r2
               else match r2 with
                    | String e r3 => if isSpace3 c d e then TrimLeftSpace r3 else s
                    | EmptyString => s
                    end
           | EmptyString => s
           end
  end.

(** Trailing white-space runes removed, on the reversed string: the last
    rune is decoded from its last byte backwards. *)
Fixpoint TrimLeftSpace_rev (s : string) : string :=
  match s with
  | EmptyString => EmptyString
  | String c r =>
      if isSpace1 c then TrimLeftSpace_rev r
      else match r with
           | String d r2 =>
               if isSpace2 d c then TrimLeftSpace_rev r2
               else match r2 with
                    | String e r3 => if isSpace3 e d c then TrimLeftSpace_rev r3 else s
                    | EmptyString => s
                    end
           | EmptyString => s
           end
  end.

Definition TrimRightSpace (s : string) : string :=
  String.rev (TrimLeftSpace_rev (String.rev s)).

(** [strings.TrimSpace(s)]. *)
Definition TrimSpace (s : string) : string := TrimRightSpace (TrimLeftSpace s).

End Strings.

(** ** [replacePath] (swagger.go, lines 325-341) *)

(** The loop body: what one piece [p] at index [idx] appends to the
    [strings.Builder] whose content so far is [sb]. *)
Definition replacePath_step (sb : string) (idx : nat) (p : string) : string :=
  let sb := if (0 <? idx)%nat then sb +:+ "/" else sb in
  if Strings.HasPrefix p ":"
  then (sb +:+ "{") +:+ Strings.tail1 p +:+ "}"
  else sb +:+ p.

Fixpoint replacePath_loop (sb : string) (idx : nat) (ps : list string) : string :=
  match ps with
  | [] => sb
  | p :: ps' => replacePath_loop (replacePath_step sb idx p) (S idx) ps'
  end.

Definition replacePath (path : string) : string :=
  replacePath_loop EmptyString 0 (Strings.Split path "/").

(** The spec's words for one segment: a colon-prefixed segment becomes
    the brace-delimited placeholder of the same name, any other segment
    is kept. *)
Definition placeholder_of_segment (p : string) : string :=
  match p with
  | String ":" name => "{" +:+ name +:+ "}"
  | _ => p
  end.

(** ** Results of code that can panic or run forever *)

(** [Panic] is a Go run-time panic; [Diverge] is what a fuel-bounded
    model returns when the fuel is used up: a run that needs more steps
    than [fuel], and, when no fuel avoids it, a run that never ends. *)
Inductive Res (A : Type) : Type :=
  | Ok (a : A)
  | Panic
  | Diverge.
Arguments Ok {A} a.
Arguments Panic {A}.
Arguments Diverge {A}.

Global Instance Res_ret : MRet Res := fun A a => Ok a.

Global Instance Res_bind : MBind Res := fun A B k m =>
  match m with
  | Ok a => k a
  | Panic => Panic
  | Diverge => Diverge
  end.

(** A [for ... range] loop whose body can panic or diverge. *)
Fixpoint forRange {A S : Type} (body : S -> A -> Res S) (xs : list A) (s : S) : Res S :=
  match xs with
  | [] => Ok s
  | x :: xs' => s' ← body s x; forRange body xs' s'
  end.

(** ** Go's [reflect] package *)

Module reflect.

Inductive Kind : Set :=
  | Invalid | Bool | Int | Int8 | Int16 | Int32 | Int64
  | Uint | Uint8 | Uint16 | Uint32 | Uint64 | Uintptr
  | Float32 | Float64 | Complex64 | Complex128
  | Array | Chan | Func | Interface | Map | Ptr | Slice
  | String | Struct | UnsafePointer.

(** [Kind.String()]. *)
Definition Kind_String (k : Kind) : string :=
  match k with
  | Invalid => "invalid" | Bool => "bool" | Int => "int" | Int8 => "int8"
  | Int16 => "int16" | Int32 => "int32" | Int64 => "int64"
  | Uint => "uint" | Uint8 => "uint8" | Uint16 => "uint16"
  | Uint32 => "uint32" | Uint64 => "uint64" | Uintptr => "uintptr"
  | Float32 => "float32" | Float64 => "float64"
  | Complex64 => "complex64" | Complex128 => "complex128"
  | Array => "array" | Chan => "chan" | Func => "func"
  | Interface => "interface" | Map => "map" | Ptr => "ptr"
  | Slice => "slice" | String => "string" | Struct => "struct"
  | UnsafePointer => "unsafe.Pointer"
  end.

(** A [reflect.Type] value is a handle on a run-time type descriptor.
    Descriptors refer to each other by handle, so the table can hold the
    cyclic types Go allows ([type Node struct { Next *Node }],
    [type P *P]). *)
Definition Typ : Set := nat.

(** A struct tag in the conventional format, as its [key:"value"] pairs
    in order of appearance (keys are never empty there). *)
Definition StructTag : Set := list (string * string).

(** [StructTag.Get(key)]: the value of the first pair with that key, the
    empty string when there is none. *)
Fixpoint Get (tag : StructTag) (key : string) : string :=
  match tag with
  | [] => ""
  | (k, v) :: tag' => if String.eqb k key then v else Get tag' key
  end.

Record StructField : Set := mkField {
  fieldName : string;
  fieldType : Typ;
  fieldTag : StructTag
}.

(** The descriptor: [elem] is read only for kinds that have an element
    type, [fields] only for structs. *)
Record rtype : Set := mkType {
  kind : Kind;
  name : string;
  elem : Typ;
  fields : list StructField
}.

(** The types of the program under generation. *)
Definition Universe : Set := Typ -> rtype.

Section Methods.
Variable U : Universe.

Definition Kind_ (t : Typ) : Kind := kind (U t).

(** [Type.Name()]: the bare name, without package path; empty for
    unnamed types. *)
Definition Name (t : Typ) : string := name (U t).

(** [Type.Elem()].  It panics unless the kind is Array, Chan, Map, Ptr
    or Slice; every call in the source sits under a test that the kind
    is Ptr or Slice, so the panic is out of reach and [Elem] is the
    plain projection. *)
Definition Elem (t : Typ) : Typ := elem (U t).

(** [Type.NumField()] and [Type.Field(i)] panic on a non-struct; the
    source only walks [Field(0) .. Field(NumField()-1)] in order, which
    is the list of fields. *)
Definition Fields (t : Typ) : Res (list StructField) :=
  match Kind_ t with
  | Struct => Ok (fields (U t))
  | _ => Panic
  end.

(** [reflect.Indirect(reflect.ValueOf(x)).Type()] for a non-nil message
    [x] of dynamic type [t]: the pointed-to type when [x] is a pointer,
    [t] itself otherwise. *)
Definition IndirectType (t : Typ) : Typ :=
  match Kind_ t with
  | Ptr => Elem t
  | _ => t
  end.
End Methods.

End reflect.

(** ** The [github.com/go-openapi/spec] object model (v0.20.4)

    Only the fields the generator sets are kept.  A nil map and an empty
    map are the same [gmap] where the library allocates on first write
    ([Properties], [StatusCodeResponses]); where the generator itself
    tests for nil ([Paths], [Definitions]) the field is an [option]. *)

Module spec.

#[local] Unset Elimination Schemes.
Inductive Schema : Type := mkSchema {
  schType : list string;
  schFormat : string;
  schRef : string;
  schItems : option Schema;
  schProperties : gmap string Schema
}.
#[local] Set Elimination Schemes.

Definition emptySchema : Schema := mkSchema [] "" "" None ∅.

(** [Schema.Typed(tpe, format)]. *)
Definition Schema_Typed (s : Schema) (tpe format : string) : Schema :=
  mkSchema [tpe] format (schRef s) (schItems s) (schProperties s).

(** [Schema.SetProperty(name, schema)]: [s.Properties[name] = schema]. *)
Definition SetProperty (s : Schema) (name : string) (schema : Schema) : Schema :=
  mkSchema (schType s) (schFormat s) (schRef s) (schItems s)
    (<[name := schema]> (schProperties s)).

Definition StringProperty : Schema := mkSchema ["string"] "" "" None ∅.
Definition BoolProperty : Schema := mkSchema ["boolean"] "" "" None ∅.
Definition Int8Property : Schema := mkSchema ["integer"] "int8" "" None ∅.
Definition Int32Property : Schema := mkSchema ["integer"] "int32" "" None ∅.
Definition Int64Property : Schema := mkSchema ["integer"] "int64" "" None ∅.
Definition Float32Property : Schema := mkSchema ["number"] "float" "" None ∅.
Definition Float64Property : Schema := mkSchema ["number"] "double" "" None ∅.

(** [RefProperty(name)]: a schema that is a [$ref] to [name]. *)
Definition RefProperty (name : string) : Schema := mkSchema [] "" name None ∅.

(** [ArrayProperty(items)], for non-nil [items]. *)
Definition ArrayProperty (items : Schema) : Schema :=
  mkSchema ["array"] "" "" (Some items) ∅.

(** [spec.Parameter]. *)
Record Param : Type := mkParameter {
  parName : string;
  parIn : string;
  parRequired : bool;
  parAllowEmptyValue : bool;
  parType : string;
  parFormat : string;
  parSchema : option Schema;
  parHasDefault : bool   (* [Default != nil] *)
}.

Definition QueryParam (name : string) : Param :=
  mkParameter name "query" false false "" "" None false.

(** [PathParam]: the library already marks it required. *)
Definition PathParam (name : string) : Param :=
  mkParameter name "path" true false "" "" None false.

Definition BodyParam (name : string) (schema : Schema) : Param :=
  mkParameter name "body" false false "" "" (Some schema) false.

(** [AsRequired]: no effect on a parameter that has a default. *)
Definition AsRequired (p : Param) : Param :=
  if parHasDefault p then p
  else mkParameter (parName p) (parIn p) true (parAllowEmptyValue p)
         (parType p) (parFormat p) (parSchema p) (parHasDefault p).

Definition NoEmptyValues (p : Param) : Param :=
  mkParameter (parName p) (parIn p) (parRequired p) false
    (parType p) (parFormat p) (parSchema p) (parHasDefault p).

(** [Parameter.Typed(tpe, format)]. *)
Definition Parameter_Typed (p : Param) (tpe format : string) : Param :=
  mkParameter (parName p) (parIn p) (parRequired p) (parAllowEmptyValue p)
    tpe format (parSchema p) (parHasDefault p).

Record Response : Type := mkResponse {
  respDescription : string;
  respSchema : option Schema
}.

Definition NewResponse : Response := mkResponse "" None.
Definition WithSchema (r : Response) (s : Schema) : Response :=
  mkResponse (respDescription r) (Some s).
Definition WithDescription (r : Response) (d : string) : Response :=
  mkResponse d (respSchema r).

Record Responses : Type := mkResponses {
  respDefault : option Response;
  StatusCodeResponses : gmap Z Response
}.

Record Operation : Type := mkOperation {
  opID : string;
  opTags : list string;
  opProduces : list string;
  opConsumes : list string;
  opParameters : list Param;
  opResponses : option Responses
}.

Definition NewOperation (id : string) : Operation :=
  mkOperation id [] [] [] [] None.

Definition WithTags (o : Operation) (tags : list string) : Operation :=
  mkOperation (opID o) tags (opProduces o) (opConsumes o) (opParameters o) (opResponses o).
Definition WithProduces (o : Operation) (m : list string) : Operation :=
  mkOperation (opID o) (opTags o) m (opConsumes o) (opParameters o) (opResponses o).
Definition WithConsumes (o : Operation) (m : list string) : Operation :=
  mkOperation (opID o) (opTags o) (opProduces o) m (opParameters o) (opResponses o).

(** [Operation.RespondsWith(code, response)] for a non-nil response:
    code 0 sets the default response, any other code sets the entry of
    the status-code map. *)
Definition RespondsWith (o : Operation) (code : Z) (response : Response) : Operation :=
  let rs := default (mkResponses None ∅) (opResponses o) in
  let rs' :=
    if (code =? 0)%Z then mkResponses (Some response) (StatusCodeResponses rs)
    else mkResponses (respDefault rs) (<[code := response]> (StatusCodeResponses rs)) in
  mkOperation (opID o) (opTags o) (opProduces o) (opConsumes o) (opParameters o) (Some rs').

(** The response entry an operation holds for a status code, as
    [RespondsWith] files it. *)
Definition responseFor (o : Operation) (code : Z) : option Response :=
  rs ← opResponses o;
  if (code =? 0)%Z then respDefault rs else StatusCodeResponses rs !! code.

(** The first index whose parameter has the name and location of [p]. *)
Fixpoint replaceParam (ps : list Param) (p : Param) : option (list Param) :=
  match ps with
  | [] => None
  | q :: ps' =>
      if String.eqb (parName q) (parName p) && String.eqb (parIn q) (parIn p)
      then Some (p :: ps')
      else cons q <$> replaceParam ps' p
  end.

(** [Operation.AddParam(param)]: nothing for a nil parameter; a
    parameter with the same name and location is replaced in place;
    otherwise the parameter is appended. *)
Definition AddParam (o : Operation) (param : option Param) : Operation :=
  match param with
  | None => o
  | Some p =>
      mkOperation (opID o) (opTags o) (opProduces o) (opConsumes o)
        (default (opParameters o ++ [p]) (replaceParam (opParameters o) p))
        (opResponses o)
  end.

Record Tag : Type := mkTag { tagName : string; tagDescription : string }.

(** [NewTag(name, description, nil)]. *)
Definition NewTag (name description : string) : Tag := mkTag name description.

Record InfoProps : Type := mkInfo {
  infoDescription : string;
  infoTitle : string;
  infoVersion : string
}.

End spec.

(** ** The collaborators: [desc.Service], [desc.Contract], selectors *)

Module desc.

(** A route selector; only [ronykit.RESTRouteSelector]s expose a method
    and a path. *)
Inductive RouteSelector : Set :=
  | REST (method path : string)
  | NonREST.

(** A possible error: [Message] is given by its dynamic type. *)
Record Error : Set := mkError {
  Code : Z;
  Item : string;
  Message : reflect.Typ
}.

(** A contract; [Input] and [Output] are non-nil messages, given by
    their dynamic types. *)
Record Contract : Set := mkContract {
  ContractName : string;
  Input : reflect.Typ;
  Output : reflect.Typ;
  PossibleErrors : list Error;
  Selectors : list RouteSelector
}.

Record Service : Set := mkService {
  ServiceName : string;
  Contracts : list Contract
}.

End desc.

(** ** The document and the store it lives in *)

(** [spec.PathItem]: one [*Operation] per method ([O] is what stands for
    the pointer). *)
Record PathItem (O : Type) : Type := mkPathItem {
  piGet : option O;
  piPut : option O;
  piPost : option O;
  piDelete : option O;
  piPatch : option O
}.
Arguments mkPathItem {O}.
Arguments piGet {O}.
Arguments piPut {O}.
Arguments piPost {O}.
Arguments piDelete {O}.
Arguments piPatch {O}.

Definition zeroPathItem {O : Type} : PathItem O := mkPathItem None None None None None.

(** [spec.Swagger]. *)
Record Swagger (O : Type) : Type := mkSwagger {
  Info : option spec.InfoProps;
  Schemes : list string;
  SwaggerVersion : string;
  Tags : list spec.Tag;
  Paths : option (gmap string (PathItem O));
  Definitions : option (gmap string spec.Schema)
}.
Arguments mkSwagger {O}.
Arguments Info {O}.
Arguments Schemes {O}.
Arguments SwaggerVersion {O}.
Arguments Tags {O}.
Arguments Paths {O}.
Arguments Definitions {O}.

(** An [*spec.Operation]: an address in the store of operations. *)
Definition OpRef : Set := nat.

(** What a run reads and writes: the document [sg.s] points to, the
    operations that path items point to, and the lines printed on
    standard output. *)
Record Mem : Type := mkMem {
  swag : Swagger OpRef;
  ops : list spec.Operation;
  stdout : list string
}.

Definition setSwag (m : Mem) (s : Swagger OpRef) : Mem := mkMem s (ops m) (stdout m).

(** [*r = op]. *)
Definition storeOp (r : OpRef) (op : spec.Operation) (m : Mem) : Mem :=
  mkMem (swag m) (<[r := op]> (ops m)) (stdout m).

(** A new operation object; its address is the next free one. *)
Definition newOp (op : spec.Operation) (m : Mem) : OpRef * Mem :=
  (length (ops m), mkMem (swag m) (ops m ++ [op]) (stdout m)).

(** [fmt.Println(x)]. *)
Definition Println (line : string) (m : Mem) : Mem :=
  mkMem (swag m) (ops m) (stdout m ++ [line]).

(** Reading [swag.Definitions] and [swag.Paths.Paths]. *)
Definition definitionsOf (m : Mem) : gmap string spec.Schema :=
  default ∅ (Definitions (swag m)).
Definition pathsOf (m : Mem) : gmap string (PathItem OpRef) :=
  default ∅ (Paths (swag m)).

(** [swag.Definitions[name] = def]. *)
Definition setDefinition (name : string) (def : spec.Schema) (m : Mem) : Mem :=
  let s := swag m in
  setSwag m (mkSwagger (Info s) (Schemes s) (SwaggerVersion s) (Tags s) (Paths s)
               (Some (<[name := def]> (definitionsOf m)))).

(** [swag.Paths.Paths[path] = pathItem]. *)
Definition setPathItem (path : string) (pathItem : PathItem OpRef) (m : Mem) : Mem :=
  let s := swag m in
  setSwag m (mkSwagger (Info s) (Schemes s) (SwaggerVersion s) (Tags s)
               (Some (<[path := pathItem]> (pathsOf m))) (Definitions s)).

(** The document as the encoder sees it: every operation pointer
    followed. *)
Definition derefPathItem (os : list spec.Operation) (pi : PathItem OpRef) : PathItem spec.Operation :=
  mkPathItem (r ← piGet pi; os !! r) (r ← piPut pi; os !! r) (r ← piPost pi; os !! r)
             (r ← piDelete pi; os !! r) (r ← piPatch pi; os !! r).

Definition document (m : Mem) : Swagger spec.Operation :=
  let s := swag m in
  mkSwagger (Info s) (Schemes s) (SwaggerVersion s) (Tags s)
    (fmap (M := option) (fmap (M := gmap string) (derefPathItem (ops m))) (Paths s))
    (Definitions s).

(** Lines 214-216: [swag.Definitions] is made if it is nil. *)
Definition makeDefinitions (m : Mem) : Mem :=
  match Definitions (swag m) with
  | None =>
      let s := swag m in
      setSwag m (mkSwagger (Info s) (Schemes s) (SwaggerVersion s) (Tags s)
                   (Paths s) (Some ∅))
  | Some _ => m
  end.

(** Lines 72-76: [swag.Paths] is made if it is nil. *)
Definition makePaths (m : Mem) : Mem :=
  match Paths (swag m) with
  | None =>
      let s := swag m in
      setSwag m (mkSwagger (Info s) (Schemes s) (SwaggerVersion s) (Tags s)
                   (Some ∅) (Definitions s))
  | Some _ => m
  end.

(** Lines 218-219: the definition [addDefinition] starts from. *)
Definition objectSchema : spec.Schema := spec.Schema_Typed spec.emptySchema "object" "".

(** ** The generator (swagger.go) *)

(** [swaggerGen]: the field [s] is a pointer to the one document made by
    [NewSwagger]; the document itself is the [swag] cell of [Mem], which
    every method of the generator reads and writes through that pointer. *)
Record swaggerGen : Set := mkGen { tagName : string }.

(** [NewSwagger(title, ver, desc)]: the generator and the store holding
    its document. *)
Definition NewSwagger (title ver desc : string) : swaggerGen * Mem :=
  (mkGen "",
   mkMem (mkSwagger (Some (spec.mkInfo desc title ver)) ["http"; "https"] "2.0" [] None None)
         [] []).

Definition WithTag (sg : swaggerGen) (tagName : string) : swaggerGen := mkGen tagName.

(** [addTag(swag, s)]. *)
Definition addTag (m : Mem) (s : desc.Service) : Mem :=
  let d := swag m in
  setSwag m (mkSwagger (Info d) (Schemes d) (SwaggerVersion d)
               (Tags d ++ [spec.NewTag (desc.ServiceName s) ""])
               (Paths d) (Definitions d)).

Section Generator.
Variable U : reflect.Universe.
Variable sg : swaggerGen.

(** *** [setParameter] (lines 290-323) *)

Definition setParameter (p : spec.Param) (t : reflect.Typ) : option spec.Param :=
  let kind := reflect.Kind_ U t in
  match kind with
  | reflect.Slice =>
      match reflect.Kind_ U (reflect.Elem U t) with
      | reflect.String => Some (spec.Parameter_Typed p "string" (reflect.Kind_String kind))
      | reflect.Float64 | reflect.Float32 =>
          Some (spec.Parameter_Typed p "number" (reflect.Kind_String kind))
      | reflect.Int8 | reflect.Uint8 => Some (spec.Parameter_Typed p "integer" "int8")
      | reflect.Int32 | reflect.Uint32 => Some (spec.Parameter_Typed p "integer" "int32")
      | reflect.Int | reflect.Int64 | reflect.Uint | reflect.Uint64 =>
          Some (spec.Parameter_Typed p "integer" "int64")
      | _ => None
      end
  | reflect.String => Some (spec.Parameter_Typed p "string" (reflect.Kind_String kind))
  | reflect.Float64 | reflect.Float32 =>
      Some (spec.Parameter_Typed p "number" (reflect.Kind_String kind))
  | reflect.Int8 | reflect.Uint8 => Some (spec.Parameter_Typed p "integer" "int8")
  | reflect.Int32 | reflect.Uint32 => Some (spec.Parameter_Typed p "integer" "int32")
  | reflect.Int | reflect.Int64 | reflect.Uint | reflect.Uint64 =>
      Some (spec.Parameter_Typed p "integer" "int64")
  | _ => None
  end.

(** *** [setInput] (lines 154-200) *)

(** Lines 159-166: the colon-prefixed pieces of the path, colon
    removed. *)
Definition pathParamsOf (path : string) : list string :=
  fold_left
    (fun pathParams pp =>
       if negb (Strings.HasPrefix pp ":") then pathParams
       else pathParams ++ [Strings.TrimPrefix pp ":"])
    (Strings.Split path "/") [].

(** Lines 173-178. *)
Definition foundIn (fName : string) (pathParams : list string) : bool :=
  fold_left
    (fun found pathParam => if String.eqb fName pathParam then true else found)
    pathParams false.

(** Lines 169-198: the body of the loop over the fields. *)
Definition setInput_field (pathParams : list string)
    (op : spec.Operation) (f : reflect.StructField) : spec.Operation :=
  let fName := reflect.Get (reflect.fieldTag f) (tagName sg) in
  if String.eqb fName "" then op
  else if foundIn fName pathParams
  then spec.AddParam op
         (setParameter (spec.NoEmptyValues (spec.AsRequired (spec.PathParam fName)))
            (reflect.fieldType f))
  else spec.AddParam op
         (setParameter (spec.NoEmptyValues (spec.AsRequired (spec.QueryParam fName)))
            (reflect.fieldType f)).

(** [setInput(op, path, inType)]; the result is the operation [op]
    points to after the call. *)
Definition setInput (op : spec.Operation) (path : string) (inType : reflect.Typ)
    : Res spec.Operation :=
  let inType :=
    match reflect.Kind_ U inType with
    | reflect.Ptr => reflect.Elem U inType
    | _ => inType
    end in
  let pathParams := pathParamsOf path in
  fs ← reflect.Fields U inType;
  Ok (fold_left (setInput_field pathParams) fs op).

(** *** [addDefinition] (lines 209-288) *)

(** Lines 229-233: the tag value without its modifiers. *)
Definition propertyName (fName : string) : string :=
  let fNameParts := Strings.Split fName "," in
  if (1 <? length fNameParts)%nat
  then Strings.TrimSpace (hd "" fNameParts)
  else fName.

(** Lines 235-251: the first switch, giving the wrapping function and
    the type the second switch starts from. *)
Definition wrapping (fType : reflect.Typ) : (spec.Schema -> spec.Schema) * reflect.Typ :=
  match reflect.Kind_ U fType with
  | reflect.Ptr => (fun schema => schema, reflect.Elem U fType)
  | reflect.Slice => (fun item => spec.ArrayProperty item, reflect.Elem U fType)
  | _ => (fun schema => schema, fType)
  end.

(** Lines 253-284: the labelled switch.  [goto Switch] is the
    recursive call, one unit of fuel each; [rec] is [sg.addDefinition]. *)
Fixpoint Switch (rec : Mem -> reflect.Typ -> Res Mem) (fuel : nat)
    (wrapFunc : spec.Schema -> spec.Schema) (fName : string)
    (fType : reflect.Typ) (def : spec.Schema) (m : Mem) : Res (spec.Schema * Mem) :=
  match fuel with
  | O => Diverge
  | S fuel' =>
      match reflect.Kind_ U fType with
      | reflect.String =>
          Ok (spec.SetProperty def fName (wrapFunc spec.StringProperty), m)
      | reflect.Int8 | reflect.Uint8 =>
          Ok (spec.SetProperty def fName
                (wrapFunc (spec.ArrayProperty spec.Int8Property)), m)
      | reflect.Int32 | reflect.Uint32 =>
          Ok (spec.SetProperty def fName (wrapFunc spec.Int32Property), m)
      | reflect.Int | reflect.Uint | reflect.Int64 | reflect.Uint64 =>
          Ok (spec.SetProperty def fName (wrapFunc spec.Int64Property), m)
      | reflect.Float32 =>
          Ok (spec.SetProperty def fName (wrapFunc spec.Float32Property), m)
      | reflect.Float64 =>
          Ok (spec.SetProperty def fName (wrapFunc spec.Float64Property), m)
      | reflect.Struct =>
          let def := spec.SetProperty def fName
                       (wrapFunc (spec.RefProperty
                                    ("#/definitions/" +:+ reflect.Name U fType))) in
          m' ← rec m fType;
          Ok (def, m')
      | reflect.Bool =>
          Ok (spec.SetProperty def fName (wrapFunc spec.BoolProperty), m)
      | reflect.Interface =>
          let sub := spec.Schema_Typed spec.emptySchema "object" "" in
          Ok (spec.SetProperty def fName (wrapFunc sub), m)
      | reflect.Ptr =>
          Switch rec fuel' wrapFunc fName (reflect.Elem U fType) def m
      | k =>
          let m := Println (reflect.Kind_String k) m in
          Ok (spec.SetProperty def fName (wrapFunc spec.StringProperty), m)
      end
  end.

(** Lines 222-284: the body of the loop over the fields. *)
Definition addDefinition_field (rec : Mem -> reflect.Typ -> Res Mem) (fuel : nat)
    (acc : spec.Schema * Mem) (f : reflect.StructField) : Res (spec.Schema * Mem) :=
  let '(def, m) := acc in
  let fType := reflect.fieldType f in
  let fName := reflect.Get (reflect.fieldTag f) (tagName sg) in
  if String.eqb fName "" then Ok (def, m)
  else
    let fName := propertyName fName in
    let '(wrapFunc, fType) := wrapping fType in
    Switch rec fuel wrapFunc fName fType def m.

(** [sg.addDefinition(swag, rType)].  Each call spends one unit of
    fuel, so a result other than [Diverge] is the result of the Go
    call, and [Diverge] for every fuel is a call that never returns. *)
Fixpoint addDefinition (fuel : nat) (m : Mem) (rType : reflect.Typ) : Res Mem :=
  match fuel with
  | O => Diverge
  | S fuel' =>
      let rType :=
        match reflect.Kind_ U rType with
        | reflect.Ptr => reflect.Elem U rType
        | _ => rType
        end in
      let m := makeDefinitions m in
      let def := objectSchema in
      fs ← reflect.Fields U rType;
      '(def, m) ← forRange (addDefinition_field (addDefinition fuel') fuel') fs (def, m);
      Ok (setDefinition (reflect.Name U rType) def m)
  end.

(** *** [addOperation] (lines 71-152) *)

Definition definitionRef (t : reflect.Typ) : spec.Schema :=
  spec.RefProperty ("#/definitions/" +:+ reflect.Name U t).

(** Lines 96-106: the body of the loop over the possible errors.  The
    operation lives at address [r]; [op] is its current content. *)
Definition addOperation_error (fuel : nat) (r : OpRef)
    (acc : gmap Z (list string) * spec.Operation * Mem) (pe : desc.Error)
    : Res (gmap Z (list string) * spec.Operation * Mem) :=
  let '(possibleErrors, op, m) := acc in
  let errType := reflect.IndirectType U (desc.Message pe) in
  m ← addDefinition fuel m errType;
  let items := default [] (possibleErrors !! desc.Code pe) ++ [desc.Item pe] in
  let possibleErrors := <[desc.Code pe := items]> possibleErrors in
  let op :=
    spec.RespondsWith op (desc.Code pe)
      (spec.WithDescription
         (spec.WithSchema spec.NewResponse (definitionRef errType))
         ("Items: " +:+ Strings.Join items ", ")) in
  Ok (possibleErrors, op, storeOp r op m).

(** Lines 120-149: the switch on the method. *)
Definition addOperation_method (r : OpRef) (inType : reflect.Typ) (method : string)
    (op : spec.Operation) (pathItem : PathItem OpRef)
    : spec.Operation * PathItem OpRef :=
  let body :=
    spec.BodyParam (reflect.Name U inType) (definitionRef inType) in
  let m := Strings.ToUpper method in
  if String.eqb m "GET" then
    (op, mkPathItem (Some r) (piPut pathItem) (piPost pathItem)
           (piDelete pathItem) (piPatch pathItem))
  else if String.eqb m "DELETE" then
    (op, mkPathItem (piGet pathItem) (piPut pathItem) (piPost pathItem)
           (Some r) (piPatch pathItem))
  else if String.eqb m "POST" then
    (spec.AddParam op (Some body),
     mkPathItem (piGet pathItem) (piPut pathItem) (Some r)
       (piDelete pathItem) (piPatch pathItem))
  else if String.eqb m "PUT" then
    (spec.AddParam op (Some body),
     mkPathItem (piGet pathItem) (Some r) (piPost pathItem)
       (piDelete pathItem) (piPatch pathItem))
  else if String.eqb m "PATCH" then
    (spec.AddParam op (Some body),
     mkPathItem (piGet pathItem) (piPut pathItem) (piPost pathItem)
       (piDelete pathItem) (Some r))
  else (op, pathItem).

(** Lines 108-151: the body of the loop over the selectors.  Every
    selector works on the same operation object, the one at [r]. *)
Definition addOperation_selector (fuel : nat) (r : OpRef)
    (inType outType : reflect.Typ)
    (acc : spec.Operation * Mem) (sel : desc.RouteSelector)
    : Res (spec.Operation * Mem) :=
  let '(op, m) := acc in
  match sel with
  | desc.NonREST => Ok (op, m)
  | desc.REST method path =>
      op ← setInput op path inType;
      let m := storeOp r op m in
      m ← addDefinition fuel m inType;
      m ← addDefinition fuel m outType;
      let restPath := replacePath path in
      let pathItem := default zeroPathItem (pathsOf m !! restPath) in
      let '(op, pathItem) := addOperation_method r inType method op pathItem in
      let m := storeOp r op m in
      Ok (op, setPathItem restPath pathItem m)
  end.

(** Lines 81-92: the operation as it is first built. *)
Definition initialOperation (serviceName : string) (c : desc.Contract) : spec.Operation :=
  let outType := reflect.IndirectType U (desc.Output c) in
  let opID := desc.ContractName c in
  spec.WithConsumes
    (spec.WithProduces
       (spec.WithTags
          (spec.RespondsWith (spec.NewOperation opID) 200
             (spec.WithSchema spec.NewResponse (definitionRef outType)))
          [serviceName])
       ["application/json"])
    ["application/json"].

(** [sg.addOperation(swag, serviceName, c)]. *)
Definition addOperation (fuel : nat) (m : Mem) (serviceName : string)
    (c : desc.Contract) : Res Mem :=
  let m := makePaths m in
  let inType := reflect.IndirectType U (desc.Input c) in
  let outType := reflect.IndirectType U (desc.Output c) in
  let op := initialOperation serviceName c in
  let '(r, m) := newOp op m in
  '(_, op, m) ← forRange (addOperation_error fuel r) (desc.PossibleErrors c) (∅, op, m);
  '(_, m) ← forRange (addOperation_selector fuel r inType outType)
              (desc.Selectors c) (op, m);
  Ok m.

(** *** [WriteTo] and [WriteToFile] (lines 44-69) *)

(** Lines 54-59: the document assembly. *)
Definition assemble_service (fuel : nat) (m : Mem) (s : desc.Service) : Res Mem :=
  let m := addTag m s in
  forRange (fun m c => addOperation fuel m (desc.ServiceName s) c) (desc.Contracts s) m.

Definition assemble (fuel : nat) (services : list desc.Service) (m : Mem) : Res Mem :=
  forRange (assemble_service fuel) services m.

Section Output.
(** The outside world: Go's [error] values, [io.Writer]s and what
    writing to one does, [os.Create], and the JSON encoder of the
    document. *)
Variable error : Type.
Variable World : Type.
Variable Writer : Type.
Variable Write : Writer -> string -> World -> World * option error.
Variable Create : string -> World -> World * (Writer + error).
Variable MarshalJSON : Swagger spec.Operation -> string + error.

(** Lines 61-68: encode, then write. *)
Definition encodeAndWrite (w : Writer) (m : Mem) (world : World)
    : World * option error :=
  match MarshalJSON (document m) with
  | inr err => (world, Some err)
  | inl swaggerJSON => Write w swaggerJSON world
  end.

(** [sg.WriteTo(w, services...)]: the store and the world after the
    call, and the error returned ([None] is Go's [nil]). *)
Definition WriteTo (fuel : nat) (w : Writer) (services : list desc.Service)
    (m : Mem) (world : World) : Res (Mem * World * option error) :=
  m ← assemble fuel services m;
  let '(world, err) := encodeAndWrite w m world in
  Ok (m, world, err).

(** [sg.WriteToFile(filename, services...)]. *)
Definition WriteToFile (fuel : nat) (filename : string)
    (services : list desc.Service) (m : Mem) (world : World)
    : Res (Mem * World * option error) :=
  match Create filename world with
  | (world, inr err) => Ok (m, world, Some err)
  | (world, inl f) => WriteTo fuel f services m world
  end.
End Output.

End Generator.

(** ** Fixtures: the types of swagger_test.go, and types for the corner cases *)

Module Fixtures.
Import reflect.

Definition basic (k : Kind) (n : string) : rtype := mkType k n 0 [].
Definition pointerTo (t : Typ) : rtype := mkType Ptr "" t [].
Definition sliceOf (t : Typ) : rtype := mkType Slice "" t [].
Definition json (n : string) : StructTag := [("json", n)].

Definition tString : Typ := 0.
Definition tInt64 : Typ := 1.
Definition tInt : Typ := 2.
Definition tStrings : Typ := 3.      (* []string *)
Definition tByte : Typ := 4.         (* uint8 *)
Definition tBytes : Typ := 5.        (* []byte *)
Definition tSubRes : Typ := 6.
Definition tSubResList : Typ := 7.   (* []subRes *)
Definition tSampleRes : Typ := 8.
Definition tSampleReq : Typ := 9.
Definition tSampleError : Typ := 10.
Definition tAnotherRes : Typ := 11.
Definition pSampleReq : Typ := 12.   (* *sampleReq *)
Definition pSampleRes : Typ := 13.
Definition pSampleError : Typ := 14.
Definition pAnotherRes : Typ := 15.
Definition tBool : Typ := 16.
Definition tFlagReq : Typ := 17.     (* struct { Z bool `json:"z"` } *)
Definition tOmitReq : Typ := 18.     (* struct { X string `json:"x,omitempty"` } *)
Definition tOmitFlag : Typ := 19.    (* struct { X bool `json:"x,omitempty"` } *)
Definition tNode : Typ := 20.        (* type Node struct { Next *Node `json:"next"` } *)
Definition pNode : Typ := 21.
Definition tP : Typ := 22.           (* type P *P *)
Definition tHasP : Typ := 23.        (* struct { F P `json:"f"` } *)
Definition tPing : Typ := 24.        (* type Ping struct { Pong *Pong `json:"pong"` } *)
Definition tPong : Typ := 25.        (* type Pong struct { Ping *Ping `json:"ping"` } *)
Definition pPing : Typ := 26.
Definition pPong : Typ := 27.
Definition tItemA : Typ := 30.       (* a.Item: struct { ID string `json:"id"` } *)
Definition tItemB : Typ := 31.       (* b.Item: struct { Count int `json:"count"` } *)

Definition universe : Universe := fun t =>
  match t with
  | 0 => basic String "string"
  | 1 => basic Int64 "int64"
  | 2 => basic Int "int"
  | 3 => sliceOf tString
  | 4 => basic Uint8 "uint8"
  | 5 => sliceOf tByte
  | 6 => mkType Struct "subRes" 0
           [ mkField "Some" tString (json "some");
             mkField "Another" tBytes (json "another") ]
  | 7 => sliceOf tSubRes
  | 8 => mkType Struct "sampleRes" 0
           [ mkField "Out1" tInt (json "out1");
             mkField "Out2" tString (json "out2");
             mkField "Sub" tSubRes (json "sub");
             mkField "Subs" tSubResList (json "subs") ]
  | 9 => mkType Struct "sampleReq" 0
           [ mkField "X" tString (json "x");
             mkField "Y" tString (json "y");
             mkField "Z" tInt64 (json "z");
             mkField "W" tStrings (json "w") ]
  | 10 => mkType Struct "sampleError" 0
            [ mkField "Code" tInt [("json", "code"); ("swag", "enum:504,503")];
              mkField "Description" tString (json "description") ]
  | 11 => mkType Struct "anotherRes" 0
            [ mkField "subRes" tSubRes [];
              mkField "Out1" tInt (json "out1");
              mkField "Out2" tString (json "out2") ]
  | 12 => pointerTo tSampleReq
  | 13 => pointerTo tSampleRes
  | 14 => pointerTo tSampleError
  | 15 => pointerTo tAnotherRes
  | 16 => basic Bool "bool"
  | 17 => mkType Struct "flagReq" 0 [ mkField "Z" tBool (json "z") ]
  | 18 => mkType Struct "omitReq" 0 [ mkField "X" tString (json "x,omitempty") ]
  | 19 => mkType Struct "omitFlag" 0 [ mkField "X" tBool (json "x,omitempty") ]
| 20 => mkType Struct "Node" 0 [ mkField "Next" pNode (json "next") ]
  | 21 => pointerTo tNode
  | 22 => mkType Ptr "P" tP []
  | 23 => mkType Struct "hasP" 0 [ mkField "F" tP (json "f") ]
  | 24 => mkType Struct "Ping" 0 [ mkField "Pong" pPong (json "pong") ]
  | 25 => mkType Struct "Pong" 0 [ mkField "Ping" pPing (json "ping") ]
  | 26 => pointerTo tPing
  | 27 => pointerTo tPong
  | 30 => mkType Struct "Item" 0 [ mkField "ID" tString (json "id") ]
  | 31 => mkType Struct "Item" 0 [ mkField "Count" tInt (json "count") ]
  | _ => basic Invalid ""
  end.

(** [swagger.NewSwagger("TestTitle", "v0.0.1", "").WithTag("json")]. *)
Definition sg : swaggerGen := WithTag (fst (NewSwagger "TestTitle" "v0.0.1" "")) "json".
Definition mem0 : Mem := snd (NewSwagger "TestTitle" "v0.0.1" "").

(** [testService.Desc()]. *)
Definition testService : desc.Service :=
  desc.mkService "testService"
    [ desc.mkContract "" pSampleReq pSampleRes
        [ desc.mkError 404 "ITEM1" pSampleError;
          desc.mkError 504 "SERVER" pSampleError ]
        [ desc.REST "GET" "/some/:x/:y" ];
      desc.mkContract "" pSampleReq pAnotherRes []
        [ desc.REST "POST" "/some/:x/:y" ] ].

(** A contract with two possible errors under one status code, and one
    with two selectors. *)
Definition sharedCode : desc.Contract :=
  desc.mkContract "find" pSampleReq pSampleRes
    [ desc.mkError 404 "ITEM1" pSampleError;
      desc.mkError 504 "SERVER" pSampleError;
      desc.mkError 404 "ITEM2" pSampleError ]
    [ desc.REST "GET" "/some/:x/:y" ].

Definition getAndPost : desc.Contract :=
  desc.mkContract "both" pSampleReq pSampleRes []
    [ desc.REST "GET" "/some/:x/:y"; desc.REST "POST" "/some/:x/:y" ].

(** A service whose contract takes a plain string as input. *)
Definition stringInput : desc.Service :=
  desc.mkService "plain"
    [ desc.mkContract "echo" tString pSampleRes [] [ desc.REST "GET" "/echo" ] ].

(** A service on the acyclic record [a.Item], and one on the
    self-referential [Node]. *)
Definition itemService : desc.Service :=
  desc.mkService "items"
    [ desc.mkContract "get" tItemA tItemA [] [ desc.REST "GET" "/item/:id" ] ].

Definition nodeContract : desc.Contract :=
  desc.mkContract "walk" tNode tNode [] [ desc.REST "GET" "/node" ].

Definition nodeService : desc.Service := desc.mkService "nodes" [ nodeContract ].

(** A stand-in for the outside world of the test: the sink keeps what is
    written to it ([strings.Builder]), writing and creating never fail,
    and the encoder standing for [MarshalJSON] renders the tag names
    only and never fails. *)
Definition sinkWrite (w : unit) (s : string) (world : list string)
    : list string * option string :=
  (world ++ [s], None).

Definition sinkCreate (filename : string) (world : list string)
    : list string * (unit + string) :=
  (world, inl tt).

Definition encodeTagNames (d : Swagger spec.Operation) : string + string :=
  inl (Strings.Join (map spec.tagName (Tags d)) ",").
End Fixtures.

(** ** Notions the statements use *)

(** The byte [c] occurs in [s]. *)
Fixpoint occurs (c : ascii) (s : string) : bool :=
  match s with
  | EmptyString => false
  | String c' s' => Ascii.eqb c' c || occurs c s'
  end.

(** The kinds for which [setParameter] knows a wire type (spec 4.2,
    "resolve each parameter's wire type from the field's underlying
    kind"): text, floats, and the integers of 8, 32, 64 and default
    width. *)
Definition wireKind (k : reflect.Kind) : bool :=
  match k with
  | reflect.String | reflect.Float64 | reflect.Float32
  | reflect.Int8 | reflect.Uint8 | reflect.Int32 | reflect.Uint32
  | reflect.Int | reflect.Int64 | reflect.Uint | reflect.Uint64 => true
  | _ => false
  end.

(** A type has a wire type when its kind is such a kind, or it is a
    slice of such a kind. *)
Definition hasWireType (U : reflect.Universe) (t : reflect.Typ) : bool :=
  match reflect.Kind_ U t with
  | reflect.Slice => wireKind (reflect.Kind_ U (reflect.Elem U t))
  | k => wireKind k
  end.

(** The record type [setInput] and [addDefinition] work on: one pointer
    level removed. *)
Definition recordOf (U : reflect.Universe) (t : reflect.Typ) : reflect.Typ :=
  match reflect.Kind_ U t with
  | reflect.Ptr => reflect.Elem U t
  | _ => t
  end.

(** A parameter marked required that rejects empty values. *)
Definition requiredNonEmpty (p : spec.Param) : Prop :=
  spec.parRequired p = true /\ spec.parAllowEmptyValue p = false.

(** The parameter the loop of [setInput] builds for a field of tag name
    [n], whatever its type and format. *)
Definition emittedFor (pathParams : list string) (n : string) (p : spec.Param) : Prop :=
  spec.parName p = n
  /\ spec.parIn p = (if foundIn n pathParams then "path" else "query")
  /\ requiredNonEmpty p.

(** The spec's classification (4.2) of a field of tag name [n] against
    a path pattern: a path parameter when [n] is a colon-prefixed piece
    of the pattern with its colon removed, a query parameter otherwise;
    required and rejecting empty values in both cases. *)
Definition classifiedFor (path : string) (n : string) (p : spec.Param) : Prop :=
  spec.parName p = n
  /\ requiredNonEmpty p
  /\ (In (String ":" n) (Strings.Split path "/") -> spec.parIn p = "path")
  /\ (~ In (String ":" n) (Strings.Split path "/") -> spec.parIn p = "query").

(** [r] is [r'] or has run out of fuel: more fuel can only turn
    [Diverge] into a result. *)
Definition below {A : Type} (r r' : Res A) : Prop := r = Diverge \/ r = r'.

(** The writes [swag.Definitions[k] = v], in order, applied to a map. *)
Definition applyWrites (ws : list (string * spec.Schema))
    (d : gmap string spec.Schema) : gmap string spec.Schema :=
  fold_left (fun d kv => <[kv.1 := kv.2]> d) ws d.

(** The last value written under [k], if any. *)
Fixpoint lastWrite (k : string) (ws : list (string * spec.Schema)) : option spec.Schema :=
  match ws with
  | [] => None
  | (k', v) :: ws' =>
      match lastWrite k ws' with
      | Some v' => Some v'
      | None => if String.eqb k' k then Some v else None
      end
  end.

(** [m'] is [m] after the definition writes [ws] and the printed lines
    [log], and nothing else. *)
Definition extends (ws : list (string * spec.Schema)) (log : list string)
    (m m' : Mem) : Prop :=
  definitionsOf m' = applyWrites ws (definitionsOf m)
  /\ stdout m' = stdout m ++ log
  /\ ops m' = ops m
  /\ Paths (swag m') = Paths (swag m)
  /\ Tags (swag m') = Tags (swag m)
  /\ Info (swag m') = Info (swag m)
  /\ Schemes (swag m') = Schemes (swag m)
  /\ SwaggerVersion (swag m') = SwaggerVersion (swag m).

(** One step of the walk [addDefinition] makes over the types: from a
    struct to the type its labelled switch starts from for a field with
    a non-empty tag name (the field's type with one pointer or slice
    level removed), and from a pointer met by the switch to its element
    ([goto Switch]). *)
Inductive visits (U : reflect.Universe) (sg : swaggerGen) : reflect.Typ -> reflect.Typ -> Prop :=
  | visits_field t f :
      reflect.Kind_ U t = reflect.Struct ->
      In f (reflect.fields (U t)) ->
      reflect.Get (reflect.fieldTag f) (tagName sg) <> "" ->
      visits U sg t (wrapping U (reflect.fieldType f)).2
  | visits_ptr t :
      reflect.Kind_ U t = reflect.Ptr ->
      visits U sg t (reflect.Elem U t).

(** Reachability in that walk, in zero or more and in one or more
    steps. *)
Inductive reaches (U : reflect.Universe) (sg : swaggerGen) : reflect.Typ -> reflect.Typ -> Prop :=
  | reaches_refl t : reaches U sg t t
  | reaches_step t u v : visits U sg t u -> reaches U sg u v -> reaches U sg t v.

Definition reachesPlus (U : reflect.Universe) (sg : swaggerGen) (t v : reflect.Typ) : Prop :=
  exists u, visits U sg t u /\ reaches U sg u v.

(** The walk from [t] meets a cycle. *)
Definition cyclic (U : reflect.Universe) (sg : swaggerGen) (t : reflect.Typ) : Prop :=
  exists u, reaches U sg t u /\ reachesPlus U sg u u.

(** The chain of pointers from [u] ends in [t]. *)
Inductive pointsTo (U : reflect.Universe) : reflect.Typ -> reflect.Typ -> Prop :=
  | pointsTo_here t : reflect.Kind_ U t <> reflect.Ptr -> pointsTo U t t
  | pointsTo_elem u t :
      reflect.Kind_ U u = reflect.Ptr -> pointsTo U (reflect.Elem U u) t -> pointsTo U u t.

(** The nested-struct graph of the claim: struct [t'] is nested in
    struct [t] when a field of [t] with a non-empty tag name has the
    type [t'], a pointer (chain) to it, or a slice of either. *)
Definition nestedStruct (U : reflect.Universe) (sg : swaggerGen) (t t' : reflect.Typ) : Prop :=
  reflect.Kind_ U t = reflect.Struct
  /\ reflect.Kind_ U t' = reflect.Struct
  /\ exists f, In f (reflect.fields (U t))
               /\ reflect.Get (reflect.fieldTag f) (tagName sg) <> ""
               /\ pointsTo U (wrapping U (reflect.fieldType f)).2 t'.

(** The outcome [out] of a call from store [m] is the one the trace [r]
    prescribes: the same panic or divergence, or the store extended by
    the trace's writes and printed lines. *)
Definition follows (r : Res (list (string * spec.Schema) * list string))
    (m : Mem) (out : Res Mem) : Prop :=
  match r with
  | Ok (ws, log) => exists m', out = Ok m' /\ extends ws log m m'
  | Panic => out = Panic
  | Diverge => out = Diverge
  end.

(** The same for the loop over the fields, which also transforms the
    definition under construction. *)
Definition followsDef
    (r : Res ((spec.Schema -> spec.Schema) * list (string * spec.Schema) * list string))
    (def : spec.Schema) (m : Mem) (out : Res (spec.Schema * Mem)) : Prop :=
  match r with
  | Ok (g, ws, log) => exists m', out = Ok (g def, m') /\ extends ws log m m'
  | Panic => out = Panic
  | Diverge => out = Diverge
  end.

(** The labelled switch returns at type [t] when it and the nested calls
    of [addDefinition] get fuel [n]. *)
Definition switchReturns (U : reflect.Universe) (sg : swaggerGen)
    (n : nat) (t : reflect.Typ) : Prop :=
  forall wrapFunc fName def m,
  exists def' m', Switch U (addDefinition U sg n) n wrapFunc fName t def m = Ok (def', m').

(** The item labels of the possible errors declared under a status
    code, in declaration order, and the last error declared under it. *)
Definition itemsFor (code : Z) (pes : list desc.Error) : list string :=
  map desc.Item (List.filter (fun pe => (desc.Code pe =? code)%Z) pes).

Fixpoint lastErrorFor (code : Z) (pes : list desc.Error) : option desc.Error :=
  match pes with
  | [] => None
  | pe :: pes' =>
      match lastErrorFor code pes' with
      | Some last => Some last
      | None => if (desc.Code pe =? code)%Z then Some pe else None
      end
  end.

(** The spec's merged error responses (4.4) on an operation: for every
    declared possible error, the response entry of its status code has
    the description listing all item labels declared under that code,
    comma-joined in declaration order, and a schema referring to the
    definition of the error-payload type (of the last error declared
    under the code, should they differ). *)
Definition mergedErrors (U : reflect.Universe) (c : desc.Contract)
    (op : spec.Operation) : Prop :=
  forall pe, In pe (desc.PossibleErrors c) ->
  exists last,
    lastErrorFor (desc.Code pe) (desc.PossibleErrors c) = Some last
    /\ spec.responseFor op (desc.Code pe) =
       Some (spec.mkResponse
               ("Items: " +:+ Strings.Join (itemsFor (desc.Code pe) (desc.PossibleErrors c)) ", ")
               (Some (definitionRef U (reflect.IndirectType U (desc.Message last))))).

(** A type [addDefinition] and [setInput] can work on: a struct or a
    pointer to one, from which every walk of [addDefinition] is finite
    (for the finitely many types of a program: reaches no cycle, see
    [acyclic_Acc] below). *)
Definition recordType (U : reflect.Universe) (sg : swaggerGen) (t : reflect.Typ) : Prop :=
  reflect.Kind_ U (recordOf U t) = reflect.Struct
  /\ Acc (fun u t' => visits U sg t' u) (recordOf U t).

(** A contract all of whose messages are of such types. *)
Definition recordContract (U : reflect.Universe) (sg : swaggerGen) (c : desc.Contract) : Prop :=
  recordType U sg (reflect.IndirectType U (desc.Input c))
  /\ recordType U sg (reflect.IndirectType U (desc.Output c))
  /\ forall pe, In pe (desc.PossibleErrors c) ->
                recordType U sg (reflect.IndirectType U (desc.Message pe)).

(** ** Notions the further properties use *)

(** The type reached from [t] through exactly [k] pointer levels, if
    [t] has that many. *)
Fixpoint throughPointers (U : reflect.Universe) (k : nat) (t : reflect.Typ)
    : option reflect.Typ :=
  match k with
  | O => Some t
  | S k' =>
      match reflect.Kind_ U t with
      | reflect.Ptr => throughPointers U k' (reflect.Elem U t)
      | _ => None
      end
  end.

(** A slot of a path item after [addOperation] has made the operation
    at address [r]: as it was, or pointing to [r]. *)
Definition slotKept (r : OpRef) (a b : option OpRef) : Prop := b = a \/ b = Some r.

Definition itemKept (r : OpRef) (pi pi' : PathItem OpRef) : Prop :=
  slotKept r (piGet pi) (piGet pi')
  /\ slotKept r (piPut pi) (piPut pi')
  /\ slotKept r (piPost pi) (piPost pi')
  /\ slotKept r (piDelete pi) (piDelete pi')
  /\ slotKept r (piPatch pi) (piPatch pi').

(** The slot of a path item that belongs to a method, for the five
    methods that have one in [addOperation]; letter case is ignored. *)
Definition methodSlot {O : Type} (method : string) (pi : PathItem O) : option (option O) :=
  let M := Strings.ToUpper method in
  if String.eqb M "GET" then Some (piGet pi)
  else if String.eqb M "DELETE" then Some (piDelete pi)
  else if String.eqb M "POST" then Some (piPost pi)
  else if String.eqb M "PUT" then Some (piPut pi)
  else if String.eqb M "PATCH" then Some (piPatch pi)
  else None.

(** The methods that carry a request body. *)
Definition bodyMethod (method : string) : bool :=
  let M := Strings.ToUpper method in
  String.eqb M "POST" || String.eqb M "PUT" || String.eqb M "PATCH".

(** What identifies a parameter within an operation: name and
    location. *)
Definition paramKey (p : spec.Param) : string * string := (spec.parName p, spec.parIn p).

(** The store [m'] against [m] when only the operation at [r] may have
    been rewritten, definitions and printed lines added, and path-item
    slots pointed to [r]. *)
Definition grows (r : OpRef) (m m' : Mem) : Prop :=
  length (ops m') = length (ops m)
  /\ (forall r', r' <> r -> ops m' !! r' = ops m !! r')
  /\ Tags (swag m') = Tags (swag m)
  /\ Info (swag m') = Info (swag m)
  /\ Schemes (swag m') = Schemes (swag m)
  /\ SwaggerVersion (swag m') = SwaggerVersion (swag m)
  /\ (exists log, stdout m' = stdout m ++ log)
  /\ (forall k, is_Some (definitionsOf m !! k) -> is_Some (definitionsOf m' !! k))
  /\ (forall path,
        (is_Some (pathsOf m !! path) -> is_Some (pathsOf m' !! path))
        /\ itemKept r (default zeroPathItem (pathsOf m !! path))
             (default zeroPathItem (pathsOf m' !! path))).

(** Identifier, tags and media types of an operation. *)
Definition operationHead (o : spec.Operation)
    : string * list string * list string * list string :=
  (spec.opID o, spec.opTags o, spec.opProduces o, spec.opConsumes o).


(** The schema [s] refers to the definition [name]: it is a reference
    to it, or an array whose items are. *)
Definition refersTo (s : spec.Schema) (name : string) : Prop :=
  spec.schRef s = "#/definitions/" +:+ name
  \/ exists item, spec.schItems s = Some item
                  /\ spec.schRef item = "#/definitions/" +:+ name.

(** Every definition that a property of [def] refers to has an entry in
    [D]. *)
Definition resolvesIn (D : gmap string spec.Schema) (def : spec.Schema) : Prop :=
  forall pname s name,
    spec.schProperties def !! pname = Some s -> refersTo s name -> is_Some (D !! name).

(** No definition of [D] refers to a definition that [D] lacks. *)
Definition closedDefinitions (D : gmap string spec.Schema) : Prop :=
  forall k def, D !! k = Some def -> resolvesIn D def.

(** Every tag of every operation of the store is among the declared
    tags of the document. *)
Definition tagsDeclared (m : Mem) : Prop :=
  forall op t, In op (ops m) -> In t (spec.opTags op) ->
               In (spec.NewTag t "") (Tags (swag m)).

(** The operations a path item points to in the encoded document. *)
Definition operationsOf (pathItem : PathItem spec.Operation) : list spec.Operation :=
  omap id [piGet pathItem; piPut pathItem; piPost pathItem; piDelete pathItem;
           piPatch pathItem].


(* ================================================================== *)
(** * Properties *)
(* ================================================================== *)

(** ** Strings *)

Lemma append_cons x (a b : string) : String x a +:+ b = String x (a +:+ b).
Proof. reflexivity. Qed.

Lemma append_empty_l (b : string) : "" +:+ b = b.
Proof. reflexivity. Qed.

Lemma append_assoc (a b c : string) : (a +:+ b) +:+ c = a +:+ (b +:+ c).
Proof.
  induction a as [|x a IH]; [reflexivity|].
  rewrite !append_cons. f_equal. exact IH.
Qed.

Lemma append_empty_r (a : string) : a +:+ "" = a.
Proof.
  induction a as [|x a IH]; [reflexivity|].
  rewrite append_cons. f_equal. exact IH.
Qed.

Lemma occurs_append c (a b : string) : occurs c (a +:+ b) = occurs c a || occurs c b.
Proof.
  induction a as [|x a IH]; [reflexivity|].
  rewrite append_cons. simpl. rewrite IH. now rewrite orb_assoc.
Qed.

Lemma Split_not_nil s sep : Strings.Split s sep <> [].
Proof.
  destruct s as [|c s]; simpl; [discriminate|].
  destruct (Ascii.eqb c sep); [discriminate|].
  destruct (Strings.Split s sep); discriminate.
Qed.

(** No piece of a split contains the separator. *)
Lemma Split_pieces_free s sep :
  Forall (fun p => occurs sep p = false) (Strings.Split s sep).
Proof.
  induction s as [|c s IH]; simpl.
  - repeat constructor.
  - destruct (Ascii.eqb c sep) eqn:E.
    + constructor; [reflexivity | exact IH].
    + destruct (Strings.Split s sep) as [|p ps].
      * repeat constructor. simpl. now rewrite E.
      * inversion IH; subst. constructor; [|assumption].
        simpl. rewrite E. assumption.
Qed.

(** Splitting [p ++ sep ++ rest] when [p] is free of the separator. *)
Lemma Split_append_sep p rest sep :
  occurs sep p = false ->
  Strings.Split (p +:+ String sep rest) sep = p :: Strings.Split rest sep.
Proof.
  induction p as [|c p IH]; intros H.
  - rewrite append_empty_l. simpl. now rewrite Ascii.eqb_refl.
  - simpl in H. apply orb_false_iff in H as [Hc Hp].
    rewrite append_cons. simpl. rewrite Hc, (IH Hp). reflexivity.
Qed.

Lemma Split_free p sep : occurs sep p = false -> Strings.Split p sep = [p].
Proof.
  induction p as [|c p IH]; simpl; intros H; [reflexivity|].
  apply orb_false_iff in H as [Hc Hp]. now rewrite Hc, (IH Hp).
Qed.

Lemma Join_cons2 p q ps sep :
  Strings.Join (p :: q :: ps) sep = p +:+ sep +:+ Strings.Join (q :: ps) sep.
Proof. reflexivity. Qed.

(** Joining pieces that are free of the separator and splitting again
    gives the pieces back. *)
Lemma Split_Join ps sep :
  ps <> [] ->
  Forall (fun p => occurs sep p = false) ps ->
  Strings.Split (Strings.Join ps (String sep "")) sep = ps.
Proof.
  induction ps as [|p ps IH]; [congruence|].
  intros _ H. inversion H as [|? ? Hp Hps]; subst.
  destruct ps as [|q ps].
  - simpl. now apply Split_free.
  - rewrite Join_cons2, append_cons, append_empty_l.
    rewrite Split_append_sep by assumption.
    rewrite IH; [reflexivity | discriminate | assumption].
Qed.

(** ** [replacePath] *)

Lemma placeholder_colon name : placeholder_of_segment (String ":" name) = "{" +:+ name +:+ "}".
Proof. reflexivity. Qed.

Lemma placeholder_other c p :
  Ascii.eqb c ":" = false -> placeholder_of_segment (String c p) = String c p.
Proof.
  intros H. destruct c as [[] [] [] [] [] [] [] []]; try reflexivity. discriminate H.
Qed.

Lemma replacePath_step_placeholder sb idx p :
  replacePath_step sb idx p =
  (if (0 <? idx)%nat then sb +:+ "/" else sb) +:+ placeholder_of_segment p.
Proof.
  unfold replacePath_step, Strings.HasPrefix.
  destruct p as [|c p]; [reflexivity|].
  destruct (Ascii.eqb c ":") eqn:E.
  - apply Ascii.eqb_eq in E as ->. rewrite placeholder_colon.
    simpl Strings.tail1. now rewrite !append_assoc.
  - now rewrite placeholder_other.
Qed.

Lemma Join_empty_head ps :
  Strings.Join ("" :: ps) "/" =
  match ps with [] => "" | _ => "/" +:+ Strings.Join ps "/" end.
Proof. destruct ps; reflexivity. Qed.

Lemma replacePath_loop_Join ps : forall sb idx,
  (0 < idx)%nat ->
  replacePath_loop sb idx ps =
  sb +:+ Strings.Join ("" :: map placeholder_of_segment ps) "/".
Proof.
  induction ps as [|p ps IH]; intros sb idx Hidx.
  - simpl. now rewrite append_empty_r.
  - simpl replacePath_loop. rewrite replacePath_step_placeholder.
    apply Nat.ltb_lt in Hidx as Hb. rewrite Hb.
    rewrite IH by lia. rewrite !Join_empty_head. simpl map.
    destruct (map placeholder_of_segment ps) as [|q qs].
    + simpl. now rewrite append_empty_r, append_assoc.
    + rewrite Join_cons2, !append_assoc. reflexivity.
Qed.

Lemma replacePath_Join path :
  replacePath path =
  Strings.Join (map placeholder_of_segment (Strings.Split path "/")) "/".
Proof.
  unfold replacePath.
  destruct (Strings.Split path "/") as [|p ps] eqn:E.
  - now apply Split_not_nil in E.
  - simpl replacePath_loop. rewrite replacePath_step_placeholder. simpl "<?".
    rewrite replacePath_loop_Join by lia. rewrite Join_empty_head, append_empty_l.
    simpl map. destruct (map placeholder_of_segment ps) as [|q qs].
    + simpl. now rewrite append_empty_r.
    + now rewrite Join_cons2.
Qed.

Lemma placeholder_free p :
  occurs "/" p = false -> occurs "/" (placeholder_of_segment p) = false.
Proof.
  intros H. destruct p as [|c p]; [reflexivity|].
  destruct (Ascii.eqb c ":") eqn:E.
  - apply Ascii.eqb_eq in E as ->. rewrite placeholder_colon.
    simpl in H. rewrite append_cons, append_empty_l. simpl.
    rewrite occurs_append. simpl. now rewrite H.
  - now rewrite placeholder_other.
Qed.

(** C9.  [replacePath] is a total function on strings; cut at the
    slashes, its result has exactly the pieces of its argument, in
    order, each colon-prefixed piece [:name] turned into [{name}] and
    every other piece (the empty piece before a leading slash included)
    unchanged; the result is these pieces joined by slashes; and
    [replacePath("/some/:x/:y")] is ["/some/{x}/{y}"]. *)
Theorem replacePath_segments :
  (forall path,
      Strings.Split (replacePath path) "/" =
      map placeholder_of_segment (Strings.Split path "/"))
  /\ (forall path,
      replacePath path =
      Strings.Join (map placeholder_of_segment (Strings.Split path "/")) "/")
  /\ replacePath "/some/:x/:y" = "/some/{x}/{y}".
Proof.
  split; [|split].
  - intros path. rewrite replacePath_Join. apply Split_Join.
    + pose proof (Split_not_nil path "/").
      destruct (Strings.Split path "/"); [congruence | discriminate].
    + pose proof (Split_pieces_free path "/") as H.
      induction H; constructor; auto using placeholder_free.
  - apply replacePath_Join.
  - reflexivity.
Qed.

(** ** [AddParam] and [setParameter] *)

Lemma replaceParam_Some ps p ps' :
  spec.replaceParam ps p = Some ps' ->
  exists l1 q l2, ps = l1 ++ q :: l2 /\ ps' = l1 ++ p :: l2
                  /\ spec.parName q = spec.parName p /\ spec.parIn q = spec.parIn p.
Proof.
  revert ps'. induction ps as [|q ps IH]; intros ps' H; simpl in H; [discriminate|].
  destruct (String.eqb (spec.parName q) (spec.parName p)
            && String.eqb (spec.parIn q) (spec.parIn p)) eqn:E.
  - injection H as <-. apply andb_true_iff in E as [E1 E2].
    apply String.eqb_eq in E1, E2. exists [], q, ps. auto.
  - destruct (spec.replaceParam ps p) as [r|]; [|discriminate].
    injection H as <-. destruct (IH r eq_refl) as (l1 & q' & l2 & -> & -> & ? & ?).
    exists (q :: l1), q', l2. auto.
Qed.

(** The parameters after [AddParam]: the old ones with at most one of
    them replaced by the new one, or the old ones followed by it. *)
Lemma AddParam_parameters o p :
  (exists l1 q l2, spec.opParameters o = l1 ++ q :: l2
                   /\ spec.opParameters (spec.AddParam o (Some p)) = l1 ++ p :: l2
                   /\ spec.parName q = spec.parName p /\ spec.parIn q = spec.parIn p)
  \/ spec.opParameters (spec.AddParam o (Some p)) = spec.opParameters o ++ [p].
Proof.
  simpl. destruct (spec.replaceParam (spec.opParameters o) p) as [ps'|] eqn:E.
  - left. destruct (replaceParam_Some _ _ _ E) as (l1 & q & l2 & ? & ? & ? & ?).
    exists l1, q, l2. auto.
  - right. reflexivity.
Qed.

Lemma AddParam_In_new o p : In p (spec.opParameters (spec.AddParam o (Some p))).
Proof.
  destruct (AddParam_parameters o p) as [(l1 & q & l2 & _ & -> & _)| ->];
    apply in_or_app; right; left; reflexivity.
Qed.

Lemma AddParam_In_inv o p q :
  In q (spec.opParameters (spec.AddParam o (Some p))) ->
  In q (spec.opParameters o) \/ q = p.
Proof.
  destruct (AddParam_parameters o p) as [(l1 & q' & l2 & E & -> & _)| ->]; intros H.
  - rewrite E. apply in_app_or in H as [H|[H|H]].
    + left. apply in_or_app. left. exact H.
    + right. congruence.
    + left. apply in_or_app. right. right. exact H.
  - apply in_app_or in H as [H|[H|[]]]; [left; exact H | right; congruence].
Qed.

(** A required, non-empty parameter of a given name and location stays
    one when another required, non-empty parameter is added. *)
Lemma AddParam_keeps o p n i :
  requiredNonEmpty p ->
  (exists q, In q (spec.opParameters o) /\ spec.parName q = n /\ spec.parIn q = i
             /\ requiredNonEmpty q) ->
  exists q, In q (spec.opParameters (spec.AddParam o (Some p)))
            /\ spec.parName q = n /\ spec.parIn q = i /\ requiredNonEmpty q.
Proof.
  intros Hp (q & Hq & Hn & Hi & Hg).
  destruct (AddParam_parameters o p) as [(l1 & q' & l2 & E & -> & En & Ei)| ->].
  - rewrite E in Hq. apply in_app_or in Hq as [Hq|[<-|Hq]].
    + exists q. split; [apply in_or_app; left; exact Hq | tauto].
    + exists p. split; [apply in_or_app; right; now left|].
      repeat split; try apply Hp; congruence.
    + exists q. split; [apply in_or_app; right; now right | tauto].
  - exists q. split; [apply in_or_app; left; exact Hq | tauto].
Qed.

Section ParameterFacts.
Variable U : reflect.Universe.

(** [setParameter] only fills in type and format. *)
Lemma setParameter_Some p t p' :
  setParameter U p t = Some p' ->
  exists tpe format, p' = spec.Parameter_Typed p tpe format.
Proof.
  unfold setParameter.
  destruct (reflect.Kind_ U t); try discriminate;
    try (intros [= <-]; eauto).
  destruct (reflect.Kind_ U (reflect.Elem U t)); try discriminate;
    intros [= <-]; eauto.
Qed.

(** It returns a parameter exactly for the types with a wire type. *)
Lemma setParameter_wire p t :
  hasWireType U t = true <-> exists p', setParameter U p t = Some p'.
Proof.
  unfold setParameter, hasWireType.
  destruct (reflect.Kind_ U t); simpl;
    try (split; [intros _; eexists; reflexivity | intros _; reflexivity]);
    try (split; [discriminate | intros [? [=]]]).
  destruct (reflect.Kind_ U (reflect.Elem U t)); simpl;
    try (split; [intros _; eexists; reflexivity | intros _; reflexivity]);
    try (split; [discriminate | intros [? [=]]]).
Qed.

Lemma setParameter_None p t :
  hasWireType U t = false -> setParameter U p t = None.
Proof.
  intros H. destruct (setParameter U p t) eqn:E; [|reflexivity].
  assert (hasWireType U t = true) by (apply (setParameter_wire p); eauto).
  congruence.
Qed.
End ParameterFacts.

(** ** [setInput]: the parameter classifier *)

Lemma pathParams_fold n ps : forall acc,
  In n (fold_left
          (fun pathParams pp =>
             if negb (Strings.HasPrefix pp ":") then pathParams
             else pathParams ++ [Strings.TrimPrefix pp ":"]) ps acc)
  <-> In n acc \/ In (String ":" n) ps.
Proof.
  induction ps as [|pp ps IH]; intros acc; simpl.
  - tauto.
  - rewrite IH. unfold Strings.TrimPrefix.
    destruct pp as [|c pp]; simpl.
    + split; [intros [H|H]; auto | intros [H|[H|H]]; auto; discriminate].
    + destruct (Ascii.eqb c ":") eqn:E; simpl.
      * apply Ascii.eqb_eq in E as ->. rewrite in_app_iff. simpl.
        split.
        -- intros [[H|[H|[]]]|H]; auto. subst. auto.
        -- intros [H|[H|H]]; auto. injection H as ->. auto.
      * split; [intros [H|H]; auto | intros [H|[H|H]]; auto].
        injection H as -> _. now rewrite Ascii.eqb_refl in E.
Qed.

(** The path parameters are the colon-prefixed pieces, colon removed. *)
Lemma pathParamsOf_In n path :
  In n (pathParamsOf path) <-> In (String ":" n) (Strings.Split path "/").
Proof. unfold pathParamsOf. rewrite pathParams_fold. simpl. tauto. Qed.

Lemma foundIn_In n pathParams : foundIn n pathParams = true <-> In n pathParams.
Proof.
  unfold foundIn.
  assert (G : forall l b,
             fold_left (fun found pathParam =>
                          if String.eqb n pathParam then true else found) l b = true
             <-> b = true \/ In n l).
  { induction l as [|x l IH]; intros b; simpl.
    - split; [auto | intros [H|[]]; exact H].
    - rewrite IH. destruct (String.eqb_spec n x) as [->|Hne].
      + split; auto.
      + split; [intros [H|H]; auto | intros [H|[H|H]]; auto; congruence]. }
  rewrite G. split; [intros [H|H]; [discriminate | exact H] | auto].
Qed.

(** A field's tag name is a path parameter of the pattern exactly when
    the pattern has the piece [:name]. *)
Lemma foundIn_segment n path :
  foundIn n (pathParamsOf path) = true <-> In (String ":" n) (Strings.Split path "/").
Proof. rewrite foundIn_In. apply pathParamsOf_In. Qed.

Section SetInputFacts.
Variable U : reflect.Universe.
Variable sg : swaggerGen.

(** What the loop body does with one field. *)
Lemma setInput_field_cases pathParams op f :
  let n := reflect.Get (reflect.fieldTag f) (tagName sg) in
  (n = "" /\ setInput_field U sg pathParams op f = op)
  \/ (n <> "" /\ hasWireType U (reflect.fieldType f) = false
      /\ setInput_field U sg pathParams op f = op)
  \/ (n <> "" /\ hasWireType U (reflect.fieldType f) = true
      /\ exists p, setInput_field U sg pathParams op f = spec.AddParam op (Some p)
                   /\ emittedFor pathParams n p).
Proof.
  intros n. unfold setInput_field. fold n.
  destruct (String.eqb_spec n "") as [E|E]; [left; auto | right].
  destruct (hasWireType U (reflect.fieldType f)) eqn:W.
  - right. split; [exact E | split; [reflexivity|]].
    unfold emittedFor.
    destruct (foundIn n pathParams).
    + apply (setParameter_wire U
               (spec.NoEmptyValues (spec.AsRequired (spec.PathParam n)))) in W.
      destruct W as [p' Hp']. rewrite Hp'.
      apply setParameter_Some in Hp' as (tpe & format & ->).
      eexists. split; [reflexivity|]. repeat split.
    + apply (setParameter_wire U
               (spec.NoEmptyValues (spec.AsRequired (spec.QueryParam n)))) in W.
      destruct W as [p' Hp']. rewrite Hp'.
      apply setParameter_Some in Hp' as (tpe & format & ->).
      eexists. split; [reflexivity|]. repeat split.
  - left. split; [exact E | split; [reflexivity|]].
    rewrite !setParameter_None by exact W. now destruct (foundIn n pathParams).
Qed.

(** Later fields never remove an emitted parameter's name and
    location: they can only replace it by another required, non-empty
    parameter of that name and location. *)
Lemma setInput_fields_keep pathParams fs : forall op n i,
  (exists q, In q (spec.opParameters op) /\ spec.parName q = n /\ spec.parIn q = i
             /\ requiredNonEmpty q) ->
  exists q, In q (spec.opParameters (fold_left (setInput_field U sg pathParams) fs op))
            /\ spec.parName q = n /\ spec.parIn q = i /\ requiredNonEmpty q.
Proof.
  induction fs as [|f fs IH]; intros op n i H; simpl; [exact H|].
  apply IH.
  destruct (setInput_field_cases pathParams op f)
    as [[_ ->]|[(_ & _ & ->)|(_ & _ & p & -> & Hp)]]; try exact H.
  apply AddParam_keeps; [apply Hp | exact H].
Qed.

Lemma setInput_fields_emit pathParams fs : forall op f,
  In f fs ->
  reflect.Get (reflect.fieldTag f) (tagName sg) <> "" ->
  hasWireType U (reflect.fieldType f) = true ->
  exists q, In q (spec.opParameters (fold_left (setInput_field U sg pathParams) fs op))
            /\ emittedFor pathParams (reflect.Get (reflect.fieldTag f) (tagName sg)) q.
Proof.
  induction fs as [|g fs IH]; intros op f Hin Hn Hw; [destruct Hin|].
  destruct Hin as [->|Hin]; [|simpl; now apply IH].
  simpl.
  destruct (setInput_field_cases pathParams op f)
    as [[E _]|[(_ & E & _)|(_ & _ & p & -> & Hp)]]; [contradiction | congruence |].
  destruct (setInput_fields_keep pathParams fs (spec.AddParam op (Some p))
              (spec.parName p) (spec.parIn p)) as (q & Hq & Hqn & Hqi & Hqg).
  { exists p. split; [apply AddParam_In_new | repeat split; apply Hp]. }
  exists q. split; [exact Hq|].
  destruct Hp as (Hpn & Hpi & Hpg). unfold emittedFor. rewrite <- Hpn at 1.
  repeat split; try apply Hqg; congruence.
Qed.

Lemma setInput_fields_origin pathParams fs : forall op q,
  In q (spec.opParameters (fold_left (setInput_field U sg pathParams) fs op)) ->
  In q (spec.opParameters op)
  \/ exists f, In f fs
               /\ reflect.Get (reflect.fieldTag f) (tagName sg) <> ""
               /\ hasWireType U (reflect.fieldType f) = true
               /\ emittedFor pathParams (reflect.Get (reflect.fieldTag f) (tagName sg)) q.
Proof.
  induction fs as [|f fs IH]; intros op q H; simpl in H; [left; exact H|].
  destruct (IH _ _ H) as [H'|(g & Hg & ?)].
  - destruct (setInput_field_cases pathParams op f)
      as [[_ E]|[(_ & _ & E)|(Hn & Hw & p & E & Hp)]]; rewrite E in H';
      try (left; exact H').
    apply AddParam_In_inv in H' as [H'| ->]; [left; exact H'|].
    right. exists f. split; [now left | auto].
  - right. exists g. split; [now right | assumption].
Qed.
End SetInputFacts.

Lemma emittedFor_classified path n p :
  emittedFor (pathParamsOf path) n p -> classifiedFor path n p.
Proof.
  intros (Hn & Hi & Hg). unfold classifiedFor.
  pose proof (foundIn_segment n path) as F.
  split; [exact Hn|]. split; [exact Hg|].
  destruct (foundIn n (pathParamsOf path)).
  - split; [intros _; exact Hi|]. intros H. exfalso. apply H, F. reflexivity.
  - split; [|intros _; exact Hi]. intros H. apply F in H. discriminate.
Qed.

Lemma setInput_record U sg op path inType :
  reflect.Kind_ U (recordOf U inType) = reflect.Struct ->
  setInput U sg op path inType =
  Ok (fold_left (setInput_field U sg (pathParamsOf path))
        (reflect.fields (U (recordOf U inType))) op).
Proof.
  unfold setInput, recordOf, reflect.Fields. intros H.
  destruct (reflect.Kind_ U inType); rewrite H; reflexivity.
Qed.

(** C1, amended.  On a record type (a struct, or a pointer to one)
    [setInput] returns, and for every field with a non-empty tag name
    whose type has a wire type ([hasWireType]: text, float, 8/32/64-bit
    or default-width integer, or a slice of these) the operation then
    holds a parameter of that name, required and rejecting empty values,
    located in the path when the name is a colon-stripped piece of the
    pattern and in the query otherwise.  Conversely every parameter of
    the operation was there before or is such a parameter of such a
    field: fields with an empty tag, and fields of any other kind,
    produce none. *)
Theorem setInput_classifies (U : reflect.Universe) (sg : swaggerGen)
    (op : spec.Operation) (path : string) (inType : reflect.Typ) :
  reflect.Kind_ U (recordOf U inType) = reflect.Struct ->
  exists op',
    setInput U sg op path inType = Ok op'
    /\ (forall f,
          In f (reflect.fields (U (recordOf U inType))) ->
          reflect.Get (reflect.fieldTag f) (tagName sg) <> "" ->
          hasWireType U (reflect.fieldType f) = true ->
          exists p, In p (spec.opParameters op')
                    /\ classifiedFor path (reflect.Get (reflect.fieldTag f) (tagName sg)) p)
    /\ (forall p,
          In p (spec.opParameters op') ->
          In p (spec.opParameters op)
          \/ exists f, In f (reflect.fields (U (recordOf U inType)))
                       /\ reflect.Get (reflect.fieldTag f) (tagName sg) <> ""
                       /\ hasWireType U (reflect.fieldType f) = true
                       /\ classifiedFor path
                            (reflect.Get (reflect.fieldTag f) (tagName sg)) p).
Proof.
  intros HS. rewrite (setInput_record U sg op path inType HS).
  eexists. split; [reflexivity|]. split.
  - intros f Hin Hn Hw.
    destruct (setInput_fields_emit U sg (pathParamsOf path) _ op f Hin Hn Hw)
      as (q & Hq & He).
    exists q. split; [exact Hq | now apply emittedFor_classified].
  - intros p Hp.
    destruct (setInput_fields_origin U sg (pathParamsOf path) _ op p Hp)
      as [H|(f & Hf & Hn & Hw & He)]; [left; exact H | right].
    exists f. split; [exact Hf|]. split; [exact Hn|]. split; [exact Hw|].
    now apply emittedFor_classified.
Qed.

(** The theorem at the request type of the test, [*sampleReq] on
    [/some/:x/:y]. *)
Lemma setInput_classifies_witness :
  exists op',
    setInput Fixtures.universe Fixtures.sg (spec.NewOperation "op") "/some/:x/:y"
      Fixtures.pSampleReq = Ok op'
    /\ (forall f,
          In f (reflect.fields (Fixtures.universe
                                  (recordOf Fixtures.universe Fixtures.pSampleReq))) ->
          reflect.Get (reflect.fieldTag f) (tagName Fixtures.sg) <> "" ->
          hasWireType Fixtures.universe (reflect.fieldType f) = true ->
          exists p, In p (spec.opParameters op')
                    /\ classifiedFor "/some/:x/:y"
                         (reflect.Get (reflect.fieldTag f) (tagName Fixtures.sg)) p)
    /\ (forall p,
          In p (spec.opParameters op') ->
          In p (spec.opParameters (spec.NewOperation "op"))
          \/ exists f, In f (reflect.fields
                               (Fixtures.universe
                                  (recordOf Fixtures.universe Fixtures.pSampleReq)))
                       /\ reflect.Get (reflect.fieldTag f) (tagName Fixtures.sg) <> ""
                       /\ hasWireType Fixtures.universe (reflect.fieldType f) = true
                       /\ classifiedFor "/some/:x/:y"
                            (reflect.Get (reflect.fieldTag f) (tagName Fixtures.sg)) p).
Proof.
  apply (setInput_classifies Fixtures.universe Fixtures.sg (spec.NewOperation "op")
           "/some/:x/:y" Fixtures.pSampleReq).
  reflexivity.
Defined.

(** C1 as stated fails on a field of a kind without a wire type: the
    field [Z bool `json:"z"`] has a non-empty tag name that is no piece
    of the pattern, so the claim promises a query parameter [z]; the
    operation gets no parameter at all. *)
Lemma setInput_drops_bool_field :
  let f := reflect.mkField "Z" Fixtures.tBool (Fixtures.json "z") in
  In f (reflect.fields (Fixtures.universe Fixtures.tFlagReq))
  /\ reflect.Get (reflect.fieldTag f) (tagName Fixtures.sg) = "z"
  /\ ~ In ":z" (Strings.Split "/some/:x" "/")
  /\ exists op',
       setInput Fixtures.universe Fixtures.sg (spec.NewOperation "op") "/some/:x"
         Fixtures.tFlagReq = Ok op'
       /\ spec.opParameters op' = []
       /\ ~ exists p, In p (spec.opParameters op') /\ classifiedFor "/some/:x" "z" p.
Proof.
  simpl. split; [now left|]. split; [reflexivity|]. split.
  - intros [H|[H|[H|[]]]]; discriminate.
  - eexists. split; [reflexivity|]. split; [reflexivity|].
    intros (p & [] & _).
Qed.

(** ** Fuel: more of it never changes a result *)

Lemma below_refl {A} (r : Res A) : below r r.
Proof. now right. Qed.

Lemma below_Ok {A} (r : Res A) a : below (Ok a) r -> r = Ok a.
Proof. intros [H|H]; [discriminate | now symmetry]. Qed.

Lemma below_bind {A B} (r r' : Res A) (k k' : A -> Res B) :
  below r r' -> (forall a, below (k a) (k' a)) -> below (r ≫= k) (r' ≫= k').
Proof.
  intros [->| ->] Hk; [now left|].
  destruct r'; simpl; [apply Hk | now right | now right].
Qed.

Lemma bind_Ok {A B} (a : A) (k : A -> Res B) : Ok a ≫= k = k a.
Proof. reflexivity. Qed.

Lemma forRange_cons {A S} (body : S -> A -> Res S) x xs s :
  forRange body (x :: xs) s = body s x ≫= forRange body xs.
Proof. reflexivity. Qed.

Lemma forRange_below {A S} (body body' : S -> A -> Res S) xs :
  (forall s x, below (body s x) (body' s x)) ->
  forall s, below (forRange body xs s) (forRange body' xs s).
Proof.
  intros Hb. induction xs as [|x xs IH]; intros s; simpl; [apply below_refl|].
  apply below_bind; [apply Hb | exact IH].
Qed.

Section Fuel.
Variable U : reflect.Universe.
Variable sg : swaggerGen.

Lemma Switch_below rec rec' :
  (forall m t, below (rec m t) (rec' m t)) ->
  forall n n', n <= n' ->
  forall wrapFunc fName t def m,
    below (Switch U rec n wrapFunc fName t def m)
          (Switch U rec' n' wrapFunc fName t def m).
Proof.
  intros Hrec. induction n as [|n IH]; intros n' Hle wrapFunc fName t def m;
    [now left|].
  destruct n' as [|n']; [lia|]. simpl.
  destruct (reflect.Kind_ U t); try apply below_refl.
  - apply IH. lia.
  - apply below_bind; [apply Hrec | intros; apply below_refl].
Qed.

Lemma addDefinition_field_below rec rec' n n' :
  (forall m t, below (rec m t) (rec' m t)) -> n <= n' ->
  forall acc f,
    below (addDefinition_field U sg rec n acc f) (addDefinition_field U sg rec' n' acc f).
Proof.
  intros Hrec Hle [def m] f. unfold addDefinition_field.
  destruct (String.eqb _ ""); [apply below_refl|].
  destruct (wrapping U (reflect.fieldType f)) as [wrapFunc fType].
  now apply Switch_below.
Qed.

Lemma addDefinition_below n : forall n', n <= n' ->
  forall m t, below (addDefinition U sg n m t) (addDefinition U sg n' m t).
Proof.
  induction n as [|n IH]; intros n' Hle m t; [now left|].
  destruct n' as [|n']; [lia|]. simpl.
  apply below_bind; [apply below_refl|]. intros fs.
  apply below_bind; [|intros [? ?]; apply below_refl].
  apply forRange_below. intros acc f.
  apply addDefinition_field_below; [|lia]. intros. apply IH. lia.
Qed.

(** A result obtained with some fuel is the result with any larger
    fuel. *)
Lemma addDefinition_fuel n n' m t m' :
  n <= n' -> addDefinition U sg n m t = Ok m' -> addDefinition U sg n' m t = Ok m'.
Proof.
  intros Hle H. pose proof (addDefinition_below n n' Hle m t) as B.
  rewrite H in B. now apply below_Ok.
Qed.

End Fuel.

(** ** Writes to the definitions map *)

Lemma applyWrites_app ws1 ws2 d :
  applyWrites (ws1 ++ ws2) d = applyWrites ws2 (applyWrites ws1 d).
Proof. unfold applyWrites. apply fold_left_app. Qed.

Lemma applyWrites_lookup k ws : forall d,
  applyWrites ws d !! k = match lastWrite k ws with Some v => Some v | None => d !! k end.
Proof.
  induction ws as [|[k' v] ws IH]; intros d; [reflexivity|].
  change (applyWrites ((k', v) :: ws) d) with (applyWrites ws (<[k' := v]> d)).
  rewrite IH. simpl. destruct (lastWrite k ws); [reflexivity|].
  destruct (String.eqb_spec k' k) as [->|Hne].
  - apply lookup_insert_eq.
  - now apply lookup_insert_ne.
Qed.

(** Replaying a sequence of writes changes nothing. *)
Lemma applyWrites_idem ws d : applyWrites ws (applyWrites ws d) = applyWrites ws d.
Proof.
  apply map_eq. intros k. rewrite !applyWrites_lookup.
  now destruct (lastWrite k ws).
Qed.

Lemma lastWrite_snoc k ws k' v :
  lastWrite k (ws ++ [(k', v)]) = if String.eqb k' k then Some v else lastWrite k ws.
Proof.
  induction ws as [|[k0 v0] ws IH]; simpl.
  - reflexivity.
  - rewrite IH. destruct (String.eqb k' k); [reflexivity|].
    reflexivity.
Qed.

Lemma extends_refl m : extends [] [] m m.
Proof. unfold extends. simpl. rewrite app_nil_r. tauto. Qed.

Lemma extends_trans ws1 l1 ws2 l2 m m1 m2 :
  extends ws1 l1 m m1 -> extends ws2 l2 m1 m2 -> extends (ws1 ++ ws2) (l1 ++ l2) m m2.
Proof.
  unfold extends. intros (D1 & S1 & O1 & P1 & T1 & I1 & C1 & V1)
                         (D2 & S2 & O2 & P2 & T2 & I2 & C2 & V2).
  rewrite applyWrites_app, D2, D1, S2, S1, app_assoc.
  repeat split; congruence.
Qed.

Lemma extends_Println line m : extends [] [line] m (Println line m).
Proof. unfold extends. simpl. tauto. Qed.

Lemma extends_setDefinition k v m : extends [(k, v)] [] m (setDefinition k v m).
Proof. unfold extends. simpl. rewrite app_nil_r. tauto. Qed.

(** Lines 214-216 make the map if it is nil, which no reader of the
    definitions can tell. *)
Lemma extends_makeDefinitions m : extends [] [] m (makeDefinitions m).
Proof.
  unfold makeDefinitions.
  destruct (Definitions (swag m)) eqn:E; [apply extends_refl|].
  unfold extends, definitionsOf. simpl. rewrite E, app_nil_r. simpl. tauto.
Qed.

(** ** [addDefinition] does the same writes from every store *)

Section Uniform.
Variable U : reflect.Universe.
Variable sg : swaggerGen.

Lemma addDefinition_S n m t :
  addDefinition U sg (S n) m t =
  (fs ← reflect.Fields U (recordOf U t);
   '(def, m') ← forRange (addDefinition_field U sg (addDefinition U sg n) n) fs
                  (objectSchema, makeDefinitions m);
   Ok (setDefinition (reflect.Name U (recordOf U t)) def m')).
Proof. reflexivity. Qed.

Lemma Switch_uniform rec :
  (forall t, exists r, forall m, follows r m (rec m t)) ->
  forall n wrapFunc fName t,
  exists r, forall def m, followsDef r def m (Switch U rec n wrapFunc fName t def m).
Proof.
  intros Hrec. induction n as [|n IH]; intros wrapFunc fName t.
  - exists Diverge. reflexivity.
  - simpl. destruct (reflect.Kind_ U t) eqn:K;
      try (eexists (Ok (_, [], [])); intros def m; simpl; eexists;
           split; [reflexivity | apply extends_refl]);
      try (eexists (Ok (_, [], [_])); intros def m; simpl; eexists;
           split; [reflexivity | apply extends_Println]).
    + apply IH.
    + destruct (Hrec t) as [[[ws log]| |] Hr].
      * eexists (Ok (_, ws, log)). intros def m. simpl.
        destruct (Hr m) as (m' & -> & He). simpl. eexists. split; [reflexivity | exact He].
      * exists Panic. intros def m. simpl. rewrite (Hr m). reflexivity.
      * exists Diverge. intros def m. simpl. rewrite (Hr m). reflexivity.
Qed.

Lemma addDefinition_field_uniform rec n f :
  (forall t, exists r, forall m, follows r m (rec m t)) ->
  exists r, forall def m, followsDef r def m (addDefinition_field U sg rec n (def, m) f).
Proof.
  intros Hrec. unfold addDefinition_field.
  destruct (String.eqb _ "").
  - exists (Ok (fun def => def, [], [])). intros def m. simpl. eexists.
    split; [reflexivity | apply extends_refl].
  - destruct (wrapping U (reflect.fieldType f)) as [wrapFunc fType].
    now apply Switch_uniform.
Qed.

Lemma addDefinition_fields_uniform rec n fs :
  (forall t, exists r, forall m, follows r m (rec m t)) ->
  exists r, forall def m,
    followsDef r def m (forRange (addDefinition_field U sg rec n) fs (def, m)).
Proof.
  intros Hrec. induction fs as [|f fs IH].
  - exists (Ok (fun def => def, [], [])). intros def m. simpl. eexists.
    split; [reflexivity | apply extends_refl].
  - destruct (addDefinition_field_uniform rec n f Hrec) as [[[[g1 ws1] l1]| |] H1].
    + destruct IH as [[[[g2 ws2] l2]| |] H2].
      * exists (Ok (fun def => g2 (g1 def), ws1 ++ ws2, l1 ++ l2)). intros def m.
        rewrite forRange_cons. destruct (H1 def m) as (m1 & -> & E1).
        rewrite bind_Ok. destruct (H2 (g1 def) m1) as (m2 & E & E2).
        exists m2. split; [exact E | now apply (extends_trans _ _ _ _ _ m1)].
      * exists Panic. intros def m. rewrite forRange_cons.
        destruct (H1 def m) as (m1 & -> & E1). rewrite bind_Ok. apply H2.
      * exists Diverge. intros def m. rewrite forRange_cons.
        destruct (H1 def m) as (m1 & -> & E1). rewrite bind_Ok. apply H2.
    + exists Panic. intros def m. rewrite forRange_cons.
      unfold followsDef in *. rewrite (H1 def m). reflexivity.
    + exists Diverge. intros def m. rewrite forRange_cons.
      unfold followsDef in *. rewrite (H1 def m). reflexivity.
Qed.

(** From every store a call of [addDefinition] with the same fuel and
    type has the same outcome and, when it returns, has done the same
    writes, the last of which files the type's definition under its
    name. *)
Lemma addDefinition_uniform n : forall t,
  exists r,
    (forall m, follows r m (addDefinition U sg n m t))
    /\ (forall ws log, r = Ok (ws, log) ->
        exists ws0 def, ws = ws0 ++ [(reflect.Name U (recordOf U t), def)]).
Proof.
  induction n as [|n IH]; intros t.
  - exists Diverge. split; [reflexivity | discriminate].
  - assert (Hrec : forall t, exists r, forall m, follows r m (addDefinition U sg n m t)).
    { intros t'. destruct (IH t') as (r & Hr & _). eauto. }
    unfold reflect.Fields in *.
    destruct (reflect.Kind_ U (recordOf U t)) eqn:K;
      try (exists Panic; split; [|discriminate]; intros m;
           rewrite addDefinition_S; unfold reflect.Fields; rewrite K; reflexivity).
    destruct (addDefinition_fields_uniform (addDefinition U sg n) n
                (reflect.fields (U (recordOf U t))) Hrec) as [[[[g ws] log]| |] H].
    + exists (Ok (ws ++ [(reflect.Name U (recordOf U t), g objectSchema)], log)).
      split; [|intros ? ? [= <- <-]; eauto].
      intros m. rewrite addDefinition_S. unfold reflect.Fields. rewrite K. simpl.
      destruct (H objectSchema (makeDefinitions m)) as (m1 & -> & E1). simpl.
      eexists. split; [reflexivity|].
      pose proof (extends_trans _ _ _ _ _ _ _ (extends_makeDefinitions m) E1) as E2.
      pose proof (extends_trans _ _ _ _ _ _ _ E2
                    (extends_setDefinition (reflect.Name U (recordOf U t))
                       (g objectSchema) m1)) as E3.
      simpl in E3. now rewrite app_nil_r in E3.
    + exists Panic. split; [|discriminate]. intros m.
      rewrite addDefinition_S. unfold reflect.Fields. rewrite K. simpl.
      rewrite (H objectSchema (makeDefinitions m)). reflexivity.
    + exists Diverge. split; [|discriminate]. intros m.
      rewrite addDefinition_S. unfold reflect.Fields. rewrite K. simpl.
      rewrite (H objectSchema (makeDefinitions m)). reflexivity.
Qed.

End Uniform.

(** ** What [addDefinition] files for one field *)

Section FieldFacts.
Variable U : reflect.Universe.
Variable sg : swaggerGen.

Lemma Switch_struct rec n wrapFunc fName t def m :
  reflect.Kind_ U t = reflect.Struct ->
  Switch U rec (S n) wrapFunc fName t def m =
  (m' ← rec m t;
   Ok (spec.SetProperty def fName
         (wrapFunc (spec.RefProperty ("#/definitions/" +:+ reflect.Name U t))), m')).
Proof. intros K. simpl. rewrite K. reflexivity. Qed.

Lemma Switch_ptr rec n wrapFunc fName t def m :
  reflect.Kind_ U t = reflect.Ptr ->
  Switch U rec (S n) wrapFunc fName t def m =
  Switch U rec n wrapFunc fName (reflect.Elem U t) def m.
Proof. intros K. simpl. rewrite K. reflexivity. Qed.

(** Every branch of the labelled switch sets the property [fName]. *)
Lemma Switch_sets rec n : forall wrapFunc fName t def m def' m',
  Switch U rec n wrapFunc fName t def m = Ok (def', m') ->
  exists s, def' = spec.SetProperty def fName s.
Proof.
  induction n as [|n IH]; intros wrapFunc fName t def m def' m' H; [discriminate|].
  simpl in H. destruct (reflect.Kind_ U t);
    try (injection H as <- _; eexists; reflexivity).
  - eapply IH. exact H.
  - destruct (rec m t); try discriminate. injection H as <- _. eexists. reflexivity.
Qed.

Lemma addDefinition_field_sets rec n f def m def' m' :
  reflect.Get (reflect.fieldTag f) (tagName sg) <> "" ->
  addDefinition_field U sg rec n (def, m) f = Ok (def', m') ->
  exists s, def' = spec.SetProperty def
                     (propertyName (reflect.Get (reflect.fieldTag f) (tagName sg))) s.
Proof.
  intros Hn. unfold addDefinition_field.
  destruct (String.eqb_spec (reflect.Get (reflect.fieldTag f) (tagName sg)) "");
    [contradiction|].
  destruct (wrapping U (reflect.fieldType f)) as [wrapFunc fType]. apply Switch_sets.
Qed.

(** A slice whose elements are 8-bit integers is wrapped twice: once by
    the case for 8-bit integers, once more by the wrapping function of
    slices. *)
Lemma addDefinition_field_bytes rec n f def m :
  reflect.Get (reflect.fieldTag f) (tagName sg) <> "" ->
  reflect.Kind_ U (reflect.fieldType f) = reflect.Slice ->
  reflect.Kind_ U (reflect.Elem U (reflect.fieldType f)) = reflect.Uint8
  \/ reflect.Kind_ U (reflect.Elem U (reflect.fieldType f)) = reflect.Int8 ->
  addDefinition_field U sg rec (S n) (def, m) f =
  Ok (spec.SetProperty def
        (propertyName (reflect.Get (reflect.fieldTag f) (tagName sg)))
        (spec.ArrayProperty (spec.ArrayProperty spec.Int8Property)), m).
Proof.
  intros Hn Hs He. unfold addDefinition_field.
  destruct (String.eqb_spec (reflect.Get (reflect.fieldTag f) (tagName sg)) "");
    [contradiction|].
  unfold wrapping. rewrite Hs. simpl. destruct He as [-> | ->]; reflexivity.
Qed.

End FieldFacts.

(** C2, at the byte buffer of the test ([Another []byte `json:"another"`]
    of [subRes]): the property filed is an array whose items are again
    arrays, of 8-bit integers.  The claim's array of 8-bit integers is
    what the case for 8-bit integers builds before the slice wrapping is
    applied on top of it. *)
Theorem bytes_field_is_array_of_arrays :
  (m ← addDefinition Fixtures.universe Fixtures.sg 2 Fixtures.mem0 Fixtures.tSubRes;
   Ok (d ← definitionsOf m !! "subRes"; spec.schProperties d !! "another"))
  = Ok (Some (spec.ArrayProperty (spec.ArrayProperty spec.Int8Property)))
  /\ spec.ArrayProperty (spec.ArrayProperty spec.Int8Property)
     <> spec.ArrayProperty spec.Int8Property.
Proof. split; [vm_compute; reflexivity | discriminate]. Qed.

(** ** Tag modifiers: kept by [setInput], stripped by [addDefinition] *)

Lemma modified_tag_not_empty x suffix : String.eqb (x +:+ "," +:+ suffix) "" = false.
Proof. destruct x; reflexivity. Qed.

Lemma occurs_In_free c n ps :
  Forall (fun p => occurs c p = false) ps -> occurs c n = true -> ~ In n ps.
Proof.
  intros HF Hc Hin. rewrite Forall_forall in HF.
  rewrite (HF n) in Hc; [discriminate|]. now apply list_elem_of_In.
Qed.

(** Lines 229-233 on a tag value [x,suffix]: the property name is the
    leading component [x], white space trimmed. *)
Lemma propertyName_modified x suffix :
  occurs "," x = false ->
  propertyName (x +:+ "," +:+ suffix) = Strings.TrimSpace x.
Proof.
  intros Hx. unfold propertyName.
  change (x +:+ "," +:+ suffix) with (x +:+ String "," suffix).
  rewrite Split_append_sep by exact Hx.
  pose proof (Split_not_nil suffix ",").
  destruct (Strings.Split suffix ","); [congruence | reflexivity].
Qed.

(** C10, amended.  For a field whose tag value is [x,suffix] and whose
    type has a wire type, [setInput] adds a parameter named by the whole
    tag value [x,suffix]; it is classified by that whole value, so it is
    a query parameter for every pattern that lacks the literal piece
    [:x,suffix], in particular for every pattern whose pieces are free
    of commas, such as one with the piece [:x]; and [addDefinition]
    files the field's property under [x] with surrounding white space
    trimmed. *)
Theorem tag_modifiers_kept_by_setInput (U : reflect.Universe) (sg : swaggerGen)
    (path : string) (f : reflect.StructField) (x suffix : string) :
  reflect.Get (reflect.fieldTag f) (tagName sg) = x +:+ "," +:+ suffix ->
  occurs "," x = false ->
  hasWireType U (reflect.fieldType f) = true ->
  (forall op, exists p,
      setInput_field U sg (pathParamsOf path) op f = spec.AddParam op (Some p)
      /\ classifiedFor path (x +:+ "," +:+ suffix) p
      /\ spec.parName p <> x
      /\ (Forall (fun pp => occurs "," pp = false) (Strings.Split path "/") ->
          spec.parIn p = "query"))
  /\ propertyName (x +:+ "," +:+ suffix) = Strings.TrimSpace x
  /\ (forall rec n def m def' m',
        addDefinition_field U sg rec n (def, m) f = Ok (def', m') ->
        exists s, def' = spec.SetProperty def (Strings.TrimSpace x) s).
Proof.
  intros Htag Hx Hw.
  assert (Hne : reflect.Get (reflect.fieldTag f) (tagName sg) <> "").
  { rewrite Htag. apply String.eqb_neq, modified_tag_not_empty. }
  split; [|split].
  - intros op.
    destruct (setInput_field_cases U sg (pathParamsOf path) op f)
      as [[E _]|[(_ & E & _)|(_ & _ & p & Hp & He)]]; [contradiction | congruence |].
    rewrite Htag in He. apply emittedFor_classified in He as Hc.
    exists p. split; [exact Hp|]. split; [exact Hc|]. split.
    + destruct Hc as (-> & _). intros E.
      assert (O : occurs "," (x +:+ "," +:+ suffix) = false) by (rewrite E; exact Hx).
      rewrite occurs_append in O. apply orb_false_iff in O as [_ O]. discriminate O.
    + intros HF. destruct Hc as (_ & _ & _ & Hq). apply Hq.
      apply (occurs_In_free ","); [exact HF|].
      simpl. rewrite occurs_append. simpl. now rewrite orb_true_r.
  - now apply propertyName_modified.
  - intros rec n def m def' m' H.
    destruct (addDefinition_field_sets U sg rec n f def m def' m' Hne H) as [s ->].
    exists s. rewrite Htag, propertyName_modified by exact Hx. reflexivity.
Qed.

(** The theorem at [X string `json:"x,omitempty"`] and the pattern
    [/some/:x]. *)
Lemma tag_modifiers_kept_by_setInput_witness :
  (forall op, exists p,
      setInput_field Fixtures.universe Fixtures.sg (pathParamsOf "/some/:x") op
        (reflect.mkField "X" Fixtures.tString (Fixtures.json "x,omitempty"))
      = spec.AddParam op (Some p)
      /\ classifiedFor "/some/:x" "x,omitempty" p
      /\ spec.parName p <> "x"
      /\ (Forall (fun pp => occurs "," pp = false) (Strings.Split "/some/:x" "/") ->
          spec.parIn p = "query"))
  /\ propertyName "x,omitempty" = "x"
  /\ (forall rec n def m def' m',
        addDefinition_field Fixtures.universe Fixtures.sg rec n (def, m)
          (reflect.mkField "X" Fixtures.tString (Fixtures.json "x,omitempty"))
        = Ok (def', m') ->
        exists s, def' = spec.SetProperty def "x" s).
Proof.
  apply (tag_modifiers_kept_by_setInput Fixtures.universe Fixtures.sg "/some/:x"
           (reflect.mkField "X" Fixtures.tString (Fixtures.json "x,omitempty"))
           "x" "omitempty"); reflexivity.
Defined.

(** C10 as stated fails where C1 does: the field
    [X bool `json:"x,omitempty"`] is emitted under no name at all. *)
Lemma setInput_drops_modified_bool_tag :
  let f := reflect.mkField "X" Fixtures.tBool (Fixtures.json "x,omitempty") in
  In f (reflect.fields (Fixtures.universe Fixtures.tOmitFlag))
  /\ reflect.Get (reflect.fieldTag f) (tagName Fixtures.sg) = "x,omitempty"
  /\ exists op',
       setInput Fixtures.universe Fixtures.sg (spec.NewOperation "op") "/some/:x"
         Fixtures.tOmitFlag = Ok op'
       /\ ~ exists p, In p (spec.opParameters op') /\ spec.parName p = "x,omitempty".
Proof.
  simpl. split; [now left|]. split; [reflexivity|].
  eexists. split; [reflexivity|]. intros (p & [] & _).
Qed.

(** ** Termination of [addDefinition] *)

Lemma forRange_diverges {A S} (body : S -> A -> Res S) xs x :
  (forall s y, body s y <> Panic) ->
  In x xs ->
  (forall s, body s x = Diverge) ->
  forall s, forRange body xs s = Diverge.
Proof.
  intros Hnp Hin Hd. induction xs as [|y xs IH]; intros s; [destruct Hin|].
  rewrite forRange_cons. destruct Hin as [->|Hin].
  - now rewrite Hd.
  - destruct (body s y) eqn:E; simpl; [now apply IH | now apply Hnp in E | reflexivity].
Qed.

Lemma forRange_Ok {A S} (body : S -> A -> Res S) xs :
  (forall s x, In x xs -> exists s', body s x = Ok s') ->
  forall s, exists s', forRange body xs s = Ok s'.
Proof.
  induction xs as [|x xs IH]; intros Hb s; [eexists; reflexivity|].
  rewrite forRange_cons. destruct (Hb s x) as [s1 ->]; [now left|]. simpl.
  apply IH. intros s2 y Hy. apply Hb. now right.
Qed.

Lemma forRange_no_panic {A S} (body : S -> A -> Res S) xs :
  (forall s x, body s x <> Panic) -> forall s, forRange body xs s <> Panic.
Proof.
  intros Hb. induction xs as [|x xs IH]; intros s; [discriminate|].
  rewrite forRange_cons. destruct (body s x) eqn:E; simpl;
    [apply IH | now apply Hb in E | discriminate].
Qed.

Section Termination.
Variable U : reflect.Universe.
Variable sg : swaggerGen.

Lemma recordOf_struct t : reflect.Kind_ U t = reflect.Struct -> recordOf U t = t.
Proof. unfold recordOf. now intros ->. Qed.

Lemma recordOf_idem t :
  reflect.Kind_ U (recordOf U t) = reflect.Struct -> recordOf U (recordOf U t) = recordOf U t.
Proof. apply recordOf_struct. Qed.

(** Registering a pointer to a record is registering the record. *)
Lemma addDefinition_recordOf n m t :
  reflect.Kind_ U (recordOf U t) = reflect.Struct ->
  addDefinition U sg n m t = addDefinition U sg n m (recordOf U t).
Proof.
  intros H. destruct n; [reflexivity|].
  now rewrite !addDefinition_S, recordOf_idem.
Qed.

(** *** No panic below a struct *)

Lemma Switch_no_panic rec :
  (forall m t, reflect.Kind_ U t = reflect.Struct -> rec m t <> Panic) ->
  forall n wrapFunc fName t def m, Switch U rec n wrapFunc fName t def m <> Panic.
Proof.
  intros Hrec. induction n as [|n IH]; intros wrapFunc fName t def m; [discriminate|].
  simpl. destruct (reflect.Kind_ U t) eqn:K; try discriminate.
  - apply IH.
  - specialize (Hrec m t K). destruct (rec m t); [discriminate | congruence | discriminate].
Qed.

Lemma addDefinition_field_no_panic rec n :
  (forall m t, reflect.Kind_ U t = reflect.Struct -> rec m t <> Panic) ->
  forall acc f, addDefinition_field U sg rec n acc f <> Panic.
Proof.
  intros Hrec [def m] f. unfold addDefinition_field.
  destruct (String.eqb _ ""); [discriminate|].
  destruct (wrapping U (reflect.fieldType f)). now apply Switch_no_panic.
Qed.

Lemma addDefinition_no_panic n : forall m t,
  reflect.Kind_ U t = reflect.Struct -> addDefinition U sg n m t <> Panic.
Proof.
  induction n as [|n IH]; intros m t K; [discriminate|].
  rewrite addDefinition_S, (recordOf_struct t K). unfold reflect.Fields. rewrite K.
  rewrite bind_Ok.
  pose proof (forRange_no_panic (addDefinition_field U sg (addDefinition U sg n) n)
                (reflect.fields (U t))
                (addDefinition_field_no_panic _ n IH)
                (objectSchema, makeDefinitions m)) as H.
  destruct (forRange _ _ _) as [[def m']| |]; [discriminate | congruence | discriminate].
Qed.

(** *** A cycle in the walk: no fuel is enough *)

Lemma cyclic_next t : cyclic U sg t -> exists t', visits U sg t t' /\ cyclic U sg t'.
Proof.
  intros (u & Hr & Hc). destruct Hr as [t|t w u Hv Hr].
  - destruct Hc as (w & Hv & Hr). exists w. split; [exact Hv|].
    exists t. split; [exact Hr | exists w; auto].
  - exists w. split; [exact Hv | exists u; auto].
Qed.

Lemma Switch_cyclic rec :
  (forall m t, reflect.Kind_ U t = reflect.Struct -> cyclic U sg t -> rec m t = Diverge) ->
  forall n wrapFunc fName t def m,
    cyclic U sg t -> Switch U rec n wrapFunc fName t def m = Diverge.
Proof.
  intros Hrec. induction n as [|n IH]; intros wrapFunc fName t def m Hc; [reflexivity|].
  destruct (cyclic_next t Hc) as (t' & Hv & Hc').
  simpl. inversion Hv as [? f K Hin Hn|? K]; subst; rewrite K.
  - now rewrite (Hrec m t K Hc).
  - now apply IH.
Qed.

Lemma addDefinition_cyclic n : forall m t,
  reflect.Kind_ U t = reflect.Struct -> cyclic U sg t ->
  addDefinition U sg n m t = Diverge.
Proof.
  induction n as [|n IH]; intros m t K Hc; [reflexivity|].
  rewrite addDefinition_S, (recordOf_struct t K). unfold reflect.Fields. rewrite K.
  rewrite bind_Ok.
  destruct (cyclic_next t Hc) as (t' & Hv & Hc').
  inversion Hv as [? f _ Hin Hn|? K']; subst; [|congruence].
  rewrite (forRange_diverges _ _ f); [reflexivity | | exact Hin |].
  - apply addDefinition_field_no_panic. intros. now apply addDefinition_no_panic.
  - intros [def m']. unfold addDefinition_field.
    destruct (String.eqb_spec (reflect.Get (reflect.fieldTag f) (tagName sg)) "");
      [contradiction|].
    destruct (wrapping U (reflect.fieldType f)) as [wrapFunc fType].
    now apply Switch_cyclic.
Qed.

End Termination.

Section Wellfounded.
Variable U : reflect.Universe.
Variable sg : swaggerGen.

Lemma switchReturns_more n n' t : n <= n' -> switchReturns U sg n t -> switchReturns U sg n' t.
Proof.
  intros Hle H wrapFunc fName def m.
  destruct (H wrapFunc fName def m) as (def' & m' & E).
  exists def', m'.
  pose proof (Switch_below U (addDefinition U sg n) (addDefinition U sg n')
                (fun m t => addDefinition_below U sg n n' Hle m t)
                n n' Hle wrapFunc fName t def m) as B.
  rewrite E in B. now apply below_Ok.
Qed.

(** One fuel that is enough for each of finitely many types. *)
Lemma switchReturns_all (ts : list reflect.Typ) :
  (forall t, In t ts -> exists n, switchReturns U sg n t) ->
  exists n, forall t, In t ts -> switchReturns U sg n t.
Proof.
  induction ts as [|t ts IH]; intros H.
  - exists 0. intros t [].
  - destruct (H t) as [n1 H1]; [now left|].
    destruct IH as [n2 H2]; [intros; apply H; now right|].
    exists (Nat.max n1 n2). intros u [<-|Hu].
    + apply (switchReturns_more n1); [lia | exact H1].
    + apply (switchReturns_more n2); [lia | now apply H2].
Qed.

Lemma addDefinition_of_fields n m t :
  reflect.Kind_ U t = reflect.Struct ->
  (forall f, In f (reflect.fields (U t)) ->
             reflect.Get (reflect.fieldTag f) (tagName sg) <> "" ->
             switchReturns U sg n (wrapping U (reflect.fieldType f)).2) ->
  exists m', addDefinition U sg (S n) m t = Ok m'.
Proof.
  intros K H. rewrite addDefinition_S, (recordOf_struct U t K).
  unfold reflect.Fields. rewrite K, bind_Ok.
  destruct (forRange_Ok (addDefinition_field U sg (addDefinition U sg n) n)
              (reflect.fields (U t))) with (s := (objectSchema, makeDefinitions m))
    as [[def m'] ->].
  - intros [def0 m0] f Hin. unfold addDefinition_field.
    destruct (String.eqb_spec (reflect.Get (reflect.fieldTag f) (tagName sg)) "")
      as [E|E]; [eexists; reflexivity|].
    specialize (H f Hin E).
    destruct (wrapping U (reflect.fieldType f)) as [wrapFunc fType]. simpl in H.
    destruct (H wrapFunc
                (propertyName (reflect.Get (reflect.fieldTag f) (tagName sg))) def0 m0)
      as (def' & m' & ->).
    eexists. reflexivity.
  - simpl. eexists. reflexivity.
Qed.

(** Where every walk from a type is finite, some fuel is enough. *)
Lemma switchReturns_Acc t :
  Acc (fun u t => visits U sg t u) t -> exists n, switchReturns U sg n t.
Proof.
  induction 1 as [t _ IH].
  destruct (reflect.Kind_ U t) eqn:K;
    try (exists 1; intros wrapFunc fName def m; simpl; rewrite K;
         eexists; eexists; reflexivity).
  - (* a pointer: [goto Switch] on its element *)
    destruct (IH (reflect.Elem U t) (visits_ptr U sg t K)) as [n Hn].
    exists (S n). intros wrapFunc fName def m. rewrite Switch_ptr by exact K.
    destruct (Hn wrapFunc fName def m) as (def' & m' & E). exists def', m'.
    pose proof (Switch_below U (addDefinition U sg n) (addDefinition U sg (S n))
                  (fun m t => addDefinition_below U sg n (S n) (Nat.le_succ_diag_r n) m t)
                  n n (Nat.le_refl n) wrapFunc fName (reflect.Elem U t) def m) as B.
    rewrite E in B. now apply below_Ok.
  - (* a struct: the nested call walks its tagged fields *)
    destruct (switchReturns_all
                (map (fun f => (wrapping U (reflect.fieldType f)).2)
                   (List.filter (fun f => negb (String.eqb
                                             (reflect.Get (reflect.fieldTag f) (tagName sg)) ""))
                      (reflect.fields (U t))))) as [n Hn].
    { intros u Hu. apply in_map_iff in Hu as (f & <- & Hf).
      apply filter_In in Hf as [Hin Hne]. apply IH.
      apply visits_field; [exact K | exact Hin|].
      apply negb_true_iff, String.eqb_neq in Hne. exact Hne. }
    exists (S n). intros wrapFunc fName def m. rewrite Switch_struct by exact K.
    destruct (addDefinition_of_fields n m t K) as [m' E].
    { intros f Hin Hne. apply Hn. apply in_map_iff. exists f. split; [reflexivity|].
      apply filter_In. split; [exact Hin|].
      now apply negb_true_iff, String.eqb_neq. }
    rewrite E. eexists. eexists. reflexivity.
Qed.

Lemma addDefinition_Acc t :
  reflect.Kind_ U (recordOf U t) = reflect.Struct ->
  Acc (fun u t => visits U sg t u) (recordOf U t) ->
  exists n, forall m, exists m', addDefinition U sg n m t = Ok m'.
Proof.
  intros K HA. destruct (switchReturns_Acc _ HA) as [n Hn].
  exists n. intros m. rewrite (addDefinition_recordOf U sg n m t K).
  destruct (Hn (fun s => s) "" objectSchema m) as (def' & m' & E).
  destruct n as [|n]; [discriminate|]. rewrite Switch_struct in E by exact K.
  destruct (addDefinition U sg (S n) m (recordOf U t)) as [m1| |];
    [eexists; reflexivity | discriminate | discriminate].
Qed.

(** *** Finitely many types and no cycle: every walk is finite *)

Lemma reaches_snoc t u v : reaches U sg t u -> visits U sg u v -> reaches U sg t v.
Proof.
  induction 1 as [t|t w u Hv Hr IH]; intros H.
  - apply (reaches_step _ _ _ v); [exact H | apply reaches_refl].
  - apply (reaches_step _ _ _ w); [exact Hv | now apply IH].
Qed.

Lemma reachesPlus_snoc t u v :
  reachesPlus U sg t u -> visits U sg u v -> reachesPlus U sg t v.
Proof.
  intros (w & Hv & Hr) H. exists w. split; [exact Hv | now apply (reaches_snoc w u)].
Qed.

Lemma acyclic_Acc (root : reflect.Typ) (nodes : list reflect.Typ) :
  (forall u, reaches U sg root u -> In u nodes) ->
  ~ cyclic U sg root ->
  Acc (fun u t => visits U sg t u) root.
Proof.
  intros Hfin Hacyc.
  assert (G : forall k visited u,
             length nodes <= k + length visited ->
             List.NoDup visited ->
             reaches U sg root u ->
             (forall v, In v visited -> reachesPlus U sg v u) ->
             (forall v, In v visited -> In v nodes) ->
             Acc (fun u t => visits U sg t u) u).
  { induction k as [|k IH]; intros visited u Hlen Hnd Hr Hanc Hincl.
    - exfalso. assert (Hu : ~ In u visited).
      { intros Hin. apply Hacyc. exists u. split; [exact Hr | now apply Hanc]. }
      assert (L : length (u :: visited) <= length nodes).
      { apply List.NoDup_incl_length; [now constructor|].
        intros v [<-|Hv]; [now apply Hfin | now apply Hincl]. }
      simpl in L, Hlen. lia.
    - constructor. intros w Hw.
      assert (Hu : ~ In u visited).
      { intros Hin. apply Hacyc. exists u. split; [exact Hr | now apply Hanc]. }
      apply (IH (u :: visited)).
      + simpl. lia.
      + now constructor.
      + now apply (reaches_snoc root u).
      + intros v [<-|Hv].
        * exists w. split; [exact Hw | apply reaches_refl].
        * apply (reachesPlus_snoc v u); [now apply Hanc | exact Hw].
      + intros v [<-|Hv]; [now apply Hfin | now apply Hincl]. }
  apply (G (length nodes) [] root); simpl.
  - lia.
  - constructor.
  - apply reaches_refl.
  - intros v [].
  - intros v [].
Qed.

End Wellfounded.

(** *** The types of the corner cases *)

Lemma Node_nested_in_itself :
  nestedStruct Fixtures.universe Fixtures.sg Fixtures.tNode Fixtures.tNode.
Proof.
  split; [reflexivity|]. split; [reflexivity|].
  exists (reflect.mkField "Next" Fixtures.pNode (Fixtures.json "next")).
  split; [now left|]. split; [discriminate|].
  apply pointsTo_here. discriminate.
Qed.

Lemma Node_cyclic : cyclic Fixtures.universe Fixtures.sg Fixtures.tNode.
Proof.
  exists Fixtures.tNode. split; [apply reaches_refl|].
  exists Fixtures.tNode. split; [|apply reaches_refl].
  apply (visits_field Fixtures.universe Fixtures.sg Fixtures.tNode
           (reflect.mkField "Next" Fixtures.pNode (Fixtures.json "next")));
    [reflexivity | now left | discriminate].
Qed.

Lemma Ping_Pong_nested :
  nestedStruct Fixtures.universe Fixtures.sg Fixtures.tPing Fixtures.tPong
  /\ nestedStruct Fixtures.universe Fixtures.sg Fixtures.tPong Fixtures.tPing.
Proof.
  split.
  - split; [reflexivity|]. split; [reflexivity|].
    exists (reflect.mkField "Pong" Fixtures.pPong (Fixtures.json "pong")).
    split; [now left|]. split; [discriminate|]. apply pointsTo_here. discriminate.
  - split; [reflexivity|]. split; [reflexivity|].
    exists (reflect.mkField "Ping" Fixtures.pPing (Fixtures.json "ping")).
    split; [now left|]. split; [discriminate|]. apply pointsTo_here. discriminate.
Qed.

Lemma Ping_cyclic : cyclic Fixtures.universe Fixtures.sg Fixtures.tPing.
Proof.
  exists Fixtures.tPing. split; [apply reaches_refl|].
  exists Fixtures.tPong. split.
  - apply (visits_field Fixtures.universe Fixtures.sg Fixtures.tPing
             (reflect.mkField "Pong" Fixtures.pPong (Fixtures.json "pong")));
      [reflexivity | now left | discriminate].
  - apply (reaches_step _ _ _ Fixtures.tPing); [|apply reaches_refl].
    apply (visits_field Fixtures.universe Fixtures.sg Fixtures.tPong
             (reflect.mkField "Ping" Fixtures.pPing (Fixtures.json "ping")));
      [reflexivity | now left | discriminate].
Qed.

(** [type P *P]: the chain of pointers from [P] never ends. *)
Lemma P_points_nowhere t : ~ pointsTo Fixtures.universe Fixtures.tP t.
Proof.
  intros H. remember Fixtures.tP as u eqn:E.
  induction H as [t K|u t K H IH]; subst.
  - apply K. reflexivity.
  - apply IH. reflexivity.
Qed.

Lemma hasP_cyclic : cyclic Fixtures.universe Fixtures.sg Fixtures.tHasP.
Proof.
  exists Fixtures.tP. split.
  - apply (reaches_step _ _ _ Fixtures.tP); [|apply reaches_refl].
    apply (visits_field Fixtures.universe Fixtures.sg Fixtures.tHasP
             (reflect.mkField "F" Fixtures.tP (Fixtures.json "f")));
      [reflexivity | now left | discriminate].
  - exists Fixtures.tP. split; [|apply reaches_refl].
    apply (visits_ptr Fixtures.universe Fixtures.sg Fixtures.tP). reflexivity.
Qed.

Lemma visits_Item u :
  visits Fixtures.universe Fixtures.sg Fixtures.tItemA u -> u = Fixtures.tString.
Proof.
  inversion 1 as [? f K Hin Hn|? K]; subst.
  - destruct Hin as [<-|[]]. reflexivity.
  - discriminate K.
Qed.

Lemma visits_string u : ~ visits Fixtures.universe Fixtures.sg Fixtures.tString u.
Proof. inversion 1 as [? f K Hin Hn|? K]; subst; discriminate K. Qed.

Lemma reaches_Item u :
  reaches Fixtures.universe Fixtures.sg Fixtures.tItemA u ->
  In u [Fixtures.tItemA; Fixtures.tString].
Proof.
  inversion 1 as [|? w ? Hv Hr]; subst; [now left|].
  apply visits_Item in Hv as ->.
  inversion Hr as [|? w ? Hv' Hr']; subst; [right; now left|].
  now apply visits_string in Hv'.
Qed.

Lemma Item_acyclic : ~ cyclic Fixtures.universe Fixtures.sg Fixtures.tItemA.
Proof.
  intros (u & Hr & (w & Hv & Hr')).
  apply reaches_Item in Hr as [<-|[<-|[]]].
  - apply visits_Item in Hv as ->.
    inversion Hr' as [|? w ? Hv' _]; subst. now apply visits_string in Hv'.
  - now apply visits_string in Hv.
Qed.

(** C3, amended.  [addDefinition] has no cycle detection: on the
    self-referential [Node] (a tagged field [*Node]) and on the mutually
    referential pair [Ping]/[Pong] no fuel makes it return, and so it is
    for every record from which its walk over the types (tagged fields,
    one pointer or slice level removed, then pointer chains) reaches a
    cycle.  It returns for every record from which that walk reaches
    finitely many types and no cycle. *)
Theorem addDefinition_termination :
  (exists U sg t,
      nestedStruct U sg t t /\ forall n m, addDefinition U sg n m t = Diverge)
  /\ (exists U sg t t',
      t <> t' /\ nestedStruct U sg t t' /\ nestedStruct U sg t' t
      /\ forall n m, addDefinition U sg n m t = Diverge)
  /\ (forall U sg t,
      reflect.Kind_ U (recordOf U t) = reflect.Struct ->
      cyclic U sg (recordOf U t) ->
      forall n m, addDefinition U sg n m t = Diverge)
  /\ (forall U sg t nodes,
      reflect.Kind_ U (recordOf U t) = reflect.Struct ->
      (forall u, reaches U sg (recordOf U t) u -> In u nodes) ->
      ~ cyclic U sg (recordOf U t) ->
      exists n, forall m, exists m', addDefinition U sg n m t = Ok m').
Proof.
  split; [|split; [|split]].
  - exists Fixtures.universe, Fixtures.sg, Fixtures.tNode.
    split; [apply Node_nested_in_itself|]. intros n m.
    apply addDefinition_cyclic; [reflexivity | apply Node_cyclic].
  - exists Fixtures.universe, Fixtures.sg, Fixtures.tPing, Fixtures.tPong.
    split; [discriminate|]. split; [apply Ping_Pong_nested|].
    split; [apply Ping_Pong_nested|]. intros n m.
    apply addDefinition_cyclic; [reflexivity | apply Ping_cyclic].
  - intros U sg t K Hc n m. rewrite (addDefinition_recordOf U sg n m t K).
    now apply addDefinition_cyclic.
  - intros U sg t nodes K Hfin Hacyc.
    apply addDefinition_Acc; [exact K|]. now apply (acyclic_Acc U sg _ nodes).
Qed.

(** The theorem at [a.Item], whose walk reaches only itself and
    [string]. *)
Lemma addDefinition_termination_witness :
  exists n, forall m, exists m',
    addDefinition Fixtures.universe Fixtures.sg n m Fixtures.tItemA = Ok m'.
Proof.
  apply (proj2 (proj2 (proj2 addDefinition_termination))
           Fixtures.universe Fixtures.sg Fixtures.tItemA
           [Fixtures.tItemA; Fixtures.tString]).
  - reflexivity.
  - exact reaches_Item.
  - exact Item_acyclic.
Defined.

(** C3 as stated fails on [struct { F P `json:"f"` }] with [type P *P]:
    no struct is nested in it, so its nested-struct graph has no edge
    and no cycle, and yet [goto Switch] follows the pointer [P] to
    itself for ever. *)
Lemma hasP_diverges_without_nested_struct :
  reflect.Kind_ Fixtures.universe Fixtures.tHasP = reflect.Struct
  /\ (forall t', ~ nestedStruct Fixtures.universe Fixtures.sg Fixtures.tHasP t')
  /\ forall n m,
       addDefinition Fixtures.universe Fixtures.sg n m Fixtures.tHasP = Diverge.
Proof.
  split; [reflexivity|]. split.
  - intros t' (_ & _ & f & Hin & _ & Hp).
    destruct Hin as [<-|[]]. now apply P_points_nowhere in Hp.
  - intros n m. apply addDefinition_cyclic; [reflexivity | apply hasP_cyclic].
Qed.

(** ** Every record met by the walk gets an entry *)

Lemma extends_keeps ws log m m' k :
  extends ws log m m' ->
  is_Some (definitionsOf m !! k) -> is_Some (definitionsOf m' !! k).
Proof.
  intros (D & _) H. rewrite D, applyWrites_lookup.
  destruct (lastWrite k ws); [eauto | exact H].
Qed.

Section Registered.
Variable U : reflect.Universe.
Variable sg : swaggerGen.

Lemma reaches_from_other t v :
  reflect.Kind_ U t <> reflect.Struct -> reflect.Kind_ U t <> reflect.Ptr ->
  reflect.Kind_ U v = reflect.Struct -> ~ reaches U sg t v.
Proof.
  intros H1 H2 Hv Hr. destruct Hr as [t|t u v Hvis _]; [congruence|].
  destruct Hvis; congruence.
Qed.

Lemma Switch_registers rec :
  (forall m s m' v,
      reflect.Kind_ U s = reflect.Struct -> rec m s = Ok m' ->
      reflect.Kind_ U v = reflect.Struct -> reaches U sg s v ->
      is_Some (definitionsOf m' !! reflect.Name U v)) ->
  forall n wrapFunc fName t def m def' m' v,
    Switch U rec n wrapFunc fName t def m = Ok (def', m') ->
    reflect.Kind_ U v = reflect.Struct -> reaches U sg t v ->
    is_Some (definitionsOf m' !! reflect.Name U v).
Proof.
  intros Hrec. induction n as [|n IH];
    intros wrapFunc fName t def m def' m' v H Kv Hr; [discriminate|].
  destruct (reflect.Kind_ U t) eqn:K;
    try (exfalso; apply (reaches_from_other t v); [congruence | congruence | exact Kv | exact Hr]).
  - (* a pointer *)
    rewrite Switch_ptr in H by exact K.
    apply (IH _ _ _ _ _ _ _ _ H Kv).
    destruct Hr as [t|t u v Hvis Hr]; [congruence|].
    destruct Hvis; [congruence | exact Hr].
  - (* a struct *)
    rewrite Switch_struct in H by exact K.
    destruct (rec m t) as [m1| |] eqn:E; try discriminate.
    rewrite bind_Ok in H. injection H as _ <-.
    now apply (Hrec m t m1 v).
Qed.

Lemma addDefinition_field_extends n k def m f def' m' :
  addDefinition_field U sg (addDefinition U sg n) k (def, m) f = Ok (def', m') ->
  exists ws log, extends ws log m m'.
Proof.
  intros H.
  destruct (addDefinition_field_uniform U sg (addDefinition U sg n) k f) as [r Hr].
  { intros t. destruct (addDefinition_uniform U sg n t) as (r & Hr & _). eauto. }
  specialize (Hr def m). rewrite H in Hr.
  destruct r as [[[g ws] log]| |]; simpl in Hr; try discriminate.
  destruct Hr as (? & [= _ <-] & E). eauto.
Qed.

Lemma addDefinition_fields_keep n k fs : forall def m def' m' key,
  forRange (addDefinition_field U sg (addDefinition U sg n) k) fs (def, m) = Ok (def', m') ->
  is_Some (definitionsOf m !! key) -> is_Some (definitionsOf m' !! key).
Proof.
  induction fs as [|f fs IH]; intros def m def' m' key H Hk.
  - now injection H as _ <-.
  - rewrite forRange_cons in H.
    destruct (addDefinition_field U sg _ k (def, m) f) as [[def1 m1]| |] eqn:E;
      try discriminate.
    rewrite bind_Ok in H. apply (IH _ _ _ _ _ H).
    apply addDefinition_field_extends in E as (ws & log & E).
    now apply (extends_keeps ws log m).
Qed.

Lemma addDefinition_fields_register n k fs
    (Hrec : forall m s m' v,
        reflect.Kind_ U s = reflect.Struct -> addDefinition U sg n m s = Ok m' ->
        reflect.Kind_ U v = reflect.Struct -> reaches U sg s v ->
        is_Some (definitionsOf m' !! reflect.Name U v)) :
  forall def m def' m' f v,
    forRange (addDefinition_field U sg (addDefinition U sg n) k) fs (def, m) = Ok (def', m') ->
    In f fs ->
    reflect.Get (reflect.fieldTag f) (tagName sg) <> "" ->
    reflect.Kind_ U v = reflect.Struct ->
    reaches U sg (wrapping U (reflect.fieldType f)).2 v ->
    is_Some (definitionsOf m' !! reflect.Name U v).
Proof.
  induction fs as [|g fs IH]; intros def m def' m' f v H Hin Hn Kv Hr; [destruct Hin|].
  rewrite forRange_cons in H.
  destruct (addDefinition_field U sg _ k (def, m) g) as [[def1 m1]| |] eqn:E;
    try discriminate.
  rewrite bind_Ok in H. destruct Hin as [->|Hin].
  - apply (addDefinition_fields_keep n k fs _ _ _ _ _ H).
    unfold addDefinition_field in E.
    destruct (String.eqb_spec (reflect.Get (reflect.fieldTag f) (tagName sg)) "");
      [contradiction|].
    destruct (wrapping U (reflect.fieldType f)) as [wrapFunc fType].
    now apply (Switch_registers _ Hrec _ _ _ _ _ _ _ _ v E).
  - now apply (IH _ _ _ _ f v H).
Qed.

(** After a returning call on a struct, every struct its walk reaches
    has an entry under its name. *)
Lemma addDefinition_registers n : forall m s m' v,
  reflect.Kind_ U s = reflect.Struct -> addDefinition U sg n m s = Ok m' ->
  reflect.Kind_ U v = reflect.Struct -> reaches U sg s v ->
  is_Some (definitionsOf m' !! reflect.Name U v).
Proof.
  induction n as [|n IH]; intros m s m' v Ks H Kv Hr; [discriminate|].
  rewrite addDefinition_S, (recordOf_struct U s Ks) in H.
  unfold reflect.Fields in H. rewrite Ks, bind_Ok in H.
  destruct (forRange _ _ _) as [[def1 m1]| |] eqn:E; try discriminate.
  rewrite bind_Ok in H. injection H as <-.
  unfold setDefinition, definitionsOf. simpl.
  destruct Hr as [s|s u v Hvis Hr].
  - rewrite lookup_insert_eq. eauto.
  - destruct (String.eqb_spec (reflect.Name U s) (reflect.Name U v)) as [->|Hne];
      [rewrite lookup_insert_eq; eauto|].
    rewrite lookup_insert_ne by exact Hne.
    inversion Hvis as [? f _ Hin Hn|? K]; subst; [|congruence].
    now apply (addDefinition_fields_register n n _ IH _ _ _ _ f v E).
Qed.

End Registered.

(** ** The definitions map is keyed by the bare type name *)

Section Definitions.
Variable U : reflect.Universe.
Variable sg : swaggerGen.

(** Two returning calls on the same type did the same writes, the last
    one under the type's name. *)
Lemma addDefinition_trace t n m m' n0 m0 m0' :
  addDefinition U sg n m t = Ok m' ->
  addDefinition U sg n0 m0 t = Ok m0' ->
  exists ws0 def log,
    extends (ws0 ++ [(reflect.Name U (recordOf U t), def)]) log m m'
    /\ extends (ws0 ++ [(reflect.Name U (recordOf U t), def)]) log m0 m0'.
Proof.
  intros H H0.
  apply (addDefinition_fuel U sg n (Nat.max n n0)) in H; [|lia].
  apply (addDefinition_fuel U sg n0 (Nat.max n n0)) in H0; [|lia].
  destruct (addDefinition_uniform U sg (Nat.max n n0) t) as (r & Hr & Hlast).
  pose proof (Hr m) as F. pose proof (Hr m0) as F0. rewrite H in F. rewrite H0 in F0.
  destruct r as [[ws log]| |]; simpl in F, F0; try discriminate.
  destruct F as (? & [= <-] & E). destruct F0 as (? & [= <-] & E0).
  destruct (Hlast ws log eq_refl) as (ws0 & def & ->).
  exists ws0, def, log. split; assumption.
Qed.

Lemma extends_last ws0 k def log m m' :
  extends (ws0 ++ [(k, def)]) log m m' -> definitionsOf m' !! k = Some def.
Proof.
  intros (D & _). rewrite D, applyWrites_lookup, lastWrite_snoc.
  now rewrite String.eqb_refl.
Qed.

(** C4.  After [addDefinition] has returned for a type, the definitions
    map has an entry under the type's bare name, and that entry is the
    same whatever the map held before: the one any returning
    registration of this type files.  Hence (a) registering the type
    again leaves the whole map as it is, one entry for the type; (b)
    registering a second type of the same name afterwards puts that
    second type's definition under the name, whatever the first had
    left there; and (c) every record met as a nested field, of this or
    of any other parent, has its entry under its own bare name, the map
    holding one entry per name. *)
Theorem definitions_keyed_by_name
    (t : reflect.Typ) (n : nat) (m m' : Mem) :
  addDefinition U sg n m t = Ok m' ->
  (exists def,
      definitionsOf m' !! reflect.Name U (recordOf U t) = Some def
      /\ forall n0 m0 m0',
           addDefinition U sg n0 m0 t = Ok m0' ->
           definitionsOf m0' !! reflect.Name U (recordOf U t) = Some def)
  /\ (forall n2 m2,
        addDefinition U sg n2 m' t = Ok m2 -> definitionsOf m2 = definitionsOf m')
  /\ (forall t2 n2 m2,
        reflect.Name U (recordOf U t2) = reflect.Name U (recordOf U t) ->
        addDefinition U sg n2 m' t2 = Ok m2 ->
        exists def2,
          definitionsOf m2 !! reflect.Name U (recordOf U t) = Some def2
          /\ forall n0 m0 m0',
               addDefinition U sg n0 m0 t2 = Ok m0' ->
               definitionsOf m0' !! reflect.Name U (recordOf U t) = Some def2)
  /\ (forall v,
        reflect.Kind_ U v = reflect.Struct -> reaches U sg (recordOf U t) v ->
        is_Some (definitionsOf m' !! reflect.Name U v)).
Proof.
  intros H. split; [|split; [|split]].
  - destruct (addDefinition_trace t n m m' n m m' H H) as (ws0 & def & log & E & _).
    exists def. split; [now apply (extends_last ws0 _ _ log m)|].
    intros n0 m0 m0' H0.
    destruct (addDefinition_trace t n m m' n0 m0 m0' H H0) as (ws1 & def1 & log1 & E1 & E0).
    apply extends_last in E, E1, E0. congruence.
  - intros n2 m2 H2.
    destruct (addDefinition_trace t n m m' n2 m' m2 H H2) as (ws0 & def & log & E & E2).
    destruct E as (D & _), E2 as (D2 & _). rewrite D2, D. apply applyWrites_idem.
  - intros t2 n2 m2 Hname H2. rewrite <- Hname.
    destruct (addDefinition_trace t2 n2 m' m2 n2 m' m2 H2 H2) as (ws0 & def & log & E & _).
    exists def. split; [now apply (extends_last ws0 _ _ log m')|].
    intros n0 m0 m0' H0.
    destruct (addDefinition_trace t2 n2 m' m2 n0 m0 m0' H2 H0)
      as (ws1 & def1 & log1 & E1 & E0).
    apply extends_last in E, E1, E0. congruence.
  - intros v Kv Hr.
    assert (K : reflect.Kind_ U (recordOf U t) = reflect.Struct).
    { destruct n as [|n]; [discriminate|]. rewrite addDefinition_S in H.
      unfold reflect.Fields in H.
      destruct (reflect.Kind_ U (recordOf U t)); try discriminate. reflexivity. }
    rewrite (addDefinition_recordOf U sg n m t K) in H.
    now apply (addDefinition_registers U sg n m (recordOf U t) m' v).
Qed.

End Definitions.

(** The theorem at two distinct types that are both called [Item]:
    registering [b.Item] after [a.Item] leaves under ["Item"] the
    definition every registration of [b.Item] files. *)
Lemma definitions_keyed_by_name_witness :
  exists m1 m2,
    addDefinition Fixtures.universe Fixtures.sg 3 Fixtures.mem0 Fixtures.tItemA = Ok m1
    /\ addDefinition Fixtures.universe Fixtures.sg 3 m1 Fixtures.tItemB = Ok m2
    /\ exists def2,
         definitionsOf m2 !! "Item" = Some def2
         /\ forall n0 m0 m0',
              addDefinition Fixtures.universe Fixtures.sg n0 m0 Fixtures.tItemB = Ok m0' ->
              definitionsOf m0' !! "Item" = Some def2.
Proof.
  eexists. eexists. split; [reflexivity|]. split; [reflexivity|].
  eapply (proj1 (proj2 (proj2 (definitions_keyed_by_name Fixtures.universe Fixtures.sg
                                 Fixtures.tItemA 3 Fixtures.mem0 _ eq_refl)))
            Fixtures.tItemB 3).
  - reflexivity.
  - reflexivity.
Defined.

(** What the map holds in that run: the second [Item] has replaced the
    first. *)
Example same_name_overwrites :
  (m1 ← addDefinition Fixtures.universe Fixtures.sg 3 Fixtures.mem0 Fixtures.tItemA;
   m2 ← addDefinition Fixtures.universe Fixtures.sg 3 m1 Fixtures.tItemB;
   Ok (spec.schProperties <$> definitionsOf m1 !! "Item",
       spec.schProperties <$> definitionsOf m2 !! "Item",
       size (definitionsOf m2)))
  = Ok (Some {["id" := spec.StringProperty]},
        Some {["count" := spec.Int64Property]},
        1).
Proof. vm_compute. reflexivity. Qed.

(** ** [addOperation]: responses *)

Lemma responseFor_RespondsWith o code resp code' :
  spec.responseFor (spec.RespondsWith o code resp) code' =
  if (code' =? code)%Z then Some resp else spec.responseFor o code'.
Proof.
  unfold spec.responseFor, spec.RespondsWith. simpl.
  destruct (Z.eqb_spec code 0) as [->|Hc]; destruct (Z.eqb_spec code' 0) as [->|Hc'];
    simpl.
  - reflexivity.
  - destruct (spec.opResponses o); simpl; [reflexivity | apply lookup_empty].
  - destruct code; try congruence; now destruct (spec.opResponses o).
  - destruct (Z.eqb_spec code' code) as [->|Hne].
    + apply lookup_insert_eq.
    + rewrite lookup_insert_ne by congruence.
      destruct (spec.opResponses o); simpl; [reflexivity | apply lookup_empty].
Qed.

Lemma lastErrorFor_None code pes : lastErrorFor code pes = None -> itemsFor code pes = [].
Proof.
  unfold itemsFor. induction pes as [|pe pes IH]; simpl; [reflexivity|].
  destruct (lastErrorFor code pes); [discriminate|].
  destruct (desc.Code pe =? code)%Z; [discriminate | exact IH].
Qed.

Lemma AddParam_responses o p : spec.opResponses (spec.AddParam o p) = spec.opResponses o.
Proof. now destruct p. Qed.

Section OperationFacts.
Variable U : reflect.Universe.
Variable sg : swaggerGen.

(** [addDefinition] only touches the definitions and standard output. *)
Lemma addDefinition_frame n m t m' :
  addDefinition U sg n m t = Ok m' -> exists ws log, extends ws log m m'.
Proof.
  intros H. destruct (addDefinition_uniform U sg n t) as (r & Hr & _).
  specialize (Hr m). rewrite H in Hr.
  destruct r as [[ws log]| |]; simpl in Hr; try discriminate.
  destruct Hr as (? & [= <-] & E). eauto.
Qed.

Lemma addDefinition_ops n m t m' : addDefinition U sg n m t = Ok m' -> ops m' = ops m.
Proof. intros H. apply addDefinition_frame in H as (ws & log & E). apply E. Qed.

Lemma setInput_responses op path t op' :
  setInput U sg op path t = Ok op' -> spec.opResponses op' = spec.opResponses op.
Proof.
  unfold setInput. destruct (reflect.Fields U _) as [fs| |]; try discriminate.
  simpl. intros [= <-]. revert op.
  induction fs as [|f fs IH]; intros op; simpl; [reflexivity|].
  rewrite IH. unfold setInput_field.
  destruct (String.eqb _ ""); [reflexivity|].
  destruct (foundIn _ _); apply AddParam_responses.
Qed.

Lemma storeOp_lookup r op m :
  r < length (ops m) -> ops (storeOp r op m) !! r = Some op.
Proof. intros H. simpl. now apply list_lookup_insert_eq. Qed.

Lemma addOperation_error_eq n r possibleErrors op m pe :
  addOperation_error U sg n r (possibleErrors, op, m) pe =
  (m' ← addDefinition U sg n m (reflect.IndirectType U (desc.Message pe));
   Ok (<[desc.Code pe := default [] (possibleErrors !! desc.Code pe) ++ [desc.Item pe]]>
         possibleErrors,
       spec.RespondsWith op (desc.Code pe)
         (spec.mkResponse
            ("Items: " +:+ Strings.Join
                             (default [] (possibleErrors !! desc.Code pe) ++ [desc.Item pe])
                             ", ")
            (Some (definitionRef U (reflect.IndirectType U (desc.Message pe))))),
       storeOp r
         (spec.RespondsWith op (desc.Code pe)
            (spec.mkResponse
               ("Items: " +:+ Strings.Join
                                (default [] (possibleErrors !! desc.Code pe) ++ [desc.Item pe])
                                ", ")
               (Some (definitionRef U (reflect.IndirectType U (desc.Message pe))))))
         m')).
Proof. reflexivity. Qed.

Lemma errors_loop n r pes : forall pe0 op0 m0 pe1 op1 m1,
  forRange (addOperation_error U sg n r) pes (pe0, op0, m0) = Ok (pe1, op1, m1) ->
  r < length (ops m0) ->
  ops m0 !! r = Some op0 ->
  (forall code,
      spec.responseFor op1 code =
      match lastErrorFor code pes with
      | Some last =>
          Some (spec.mkResponse
                  ("Items: " +:+ Strings.Join (default [] (pe0 !! code) ++ itemsFor code pes) ", ")
                  (Some (definitionRef U (reflect.IndirectType U (desc.Message last)))))
      | None => spec.responseFor op0 code
      end)
  /\ ops m1 !! r = Some op1
  /\ length (ops m1) = length (ops m0).
Proof.
  induction pes as [|pe pes IH]; intros pe0 op0 m0 pe1 op1 m1 H Hr Hop.
  - injection H as <- <- <-. auto.
  - rewrite forRange_cons, addOperation_error_eq in H.
    destruct (addDefinition U sg n m0 (reflect.IndirectType U (desc.Message pe)))
      as [ma| |] eqn:Ea; try discriminate.
    rewrite !bind_Ok in H. apply addDefinition_ops in Ea.
    apply IH in H as (HR & Hop1 & Hlen).
    + split; [|split; [exact Hop1|]].
      * intros code. rewrite HR. simpl lastErrorFor.
        unfold itemsFor at 2. simpl List.filter. fold (itemsFor code pes).
        destruct (Z.eqb_spec (desc.Code pe) code) as [<-|Hne].
        -- rewrite lookup_insert_eq. simpl default at 1.
           destruct (lastErrorFor (desc.Code pe) pes) eqn:L.
           ++ simpl map. rewrite <- app_assoc. reflexivity.
           ++ rewrite responseFor_RespondsWith, Z.eqb_refl.
              apply lastErrorFor_None in L. unfold itemsFor in L.
              simpl map. rewrite L. reflexivity.
        -- rewrite lookup_insert_ne by exact Hne.
           destruct (lastErrorFor code pes); [reflexivity|].
           rewrite responseFor_RespondsWith.
           destruct (Z.eqb_spec code (desc.Code pe)); [congruence | reflexivity].
      * rewrite Hlen. simpl. rewrite length_insert. now rewrite Ea.
    + simpl. rewrite length_insert. now rewrite Ea.
    + apply storeOp_lookup. now rewrite Ea.
Qed.

Lemma addOperation_method_responses r inType method op pathItem :
  spec.opResponses (addOperation_method U r inType method op pathItem).1
  = spec.opResponses op.
Proof.
  unfold addOperation_method.
  repeat (destruct (String.eqb _ _); [try reflexivity; apply AddParam_responses|]).
  reflexivity.
Qed.

Lemma addOperation_selector_eq n r inType outType op m method path :
  addOperation_selector U sg n r inType outType (op, m) (desc.REST method path) =
  (op ← setInput U sg op path inType;
   m ← addDefinition U sg n (storeOp r op m) inType;
   m ← addDefinition U sg n m outType;
   Ok ((addOperation_method U r inType method op
          (default zeroPathItem (pathsOf m !! replacePath path))).1,
       setPathItem (replacePath path)
         (addOperation_method U r inType method op
            (default zeroPathItem (pathsOf m !! replacePath path))).2
         (storeOp r
            (addOperation_method U r inType method op
               (default zeroPathItem (pathsOf m !! replacePath path))).1 m))).
Proof.
  unfold addOperation_selector.
  destruct (setInput U sg op path inType) as [opa| |]; [|reflexivity|reflexivity].
  rewrite !bind_Ok.
  destruct (addDefinition U sg n (storeOp r opa m) inType) as [ma| |];
    [|reflexivity|reflexivity].
  rewrite !bind_Ok.
  destruct (addDefinition U sg n ma outType) as [mb| |]; [|reflexivity|reflexivity].
  rewrite !bind_Ok.
  now destruct (addOperation_method U r inType method opa _).
Qed.

Lemma selectors_loop n r inType outType sels : forall op0 m0 op1 m1,
  forRange (addOperation_selector U sg n r inType outType) sels (op0, m0) = Ok (op1, m1) ->
  r < length (ops m0) ->
  ops m0 !! r = Some op0 ->
  spec.opResponses op1 = spec.opResponses op0
  /\ ops m1 !! r = Some op1
  /\ length (ops m1) = length (ops m0).
Proof.
  induction sels as [|sel sels IH]; intros op0 m0 op1 m1 H Hr Hop.
  - injection H as <- <-. auto.
  - rewrite forRange_cons in H.
    destruct sel as [method path|]; [|now apply IH in H].
    rewrite addOperation_selector_eq in H.
    destruct (setInput U sg op0 path inType) as [opa| |] eqn:Ei; try discriminate.
    rewrite bind_Ok in H. apply setInput_responses in Ei.
    destruct (addDefinition U sg n (storeOp r opa m0) inType) as [ma| |] eqn:Ea;
      try discriminate.
    rewrite bind_Ok in H. apply addDefinition_ops in Ea.
    destruct (addDefinition U sg n ma outType) as [mb| |] eqn:Eb; try discriminate.
    rewrite !bind_Ok in H. apply addDefinition_ops in Eb.
    pose proof (addOperation_method_responses r inType method opa
                  (default zeroPathItem (pathsOf mb !! replacePath path))) as Em.
    assert (L : length (ops mb) = length (ops m0)).
    { rewrite Eb, Ea. simpl. apply length_insert. }
    apply IH in H as (HR & Hop1 & Hlen).
    + split; [congruence|]. split; [exact Hop1|].
      rewrite Hlen. simpl. rewrite length_insert. exact L.
    + simpl. rewrite length_insert. lia.
    + simpl. apply list_lookup_insert_eq. lia.
Qed.

End OperationFacts.

Section Responses.
Variable U : reflect.Universe.
Variable sg : swaggerGen.

Lemma ops_makePaths m : ops (makePaths m) = ops m.
Proof. unfold makePaths. now destruct (Paths (swag m)). Qed.

Lemma addOperation_eq n m serviceName c :
  addOperation U sg n m serviceName c =
  ('(_, op, m1) ← forRange (addOperation_error U sg n (length (ops (makePaths m))))
                    (desc.PossibleErrors c)
                    (∅, initialOperation U serviceName c,
                     (newOp (initialOperation U serviceName c) (makePaths m)).2);
   '(_, m2) ← forRange (addOperation_selector U sg n (length (ops (makePaths m)))
                          (reflect.IndirectType U (desc.Input c))
                          (reflect.IndirectType U (desc.Output c)))
                (desc.Selectors c) (op, m1);
   Ok m2).
Proof. reflexivity. Qed.

Lemma lastErrorFor_In pe pes :
  In pe pes -> exists last, lastErrorFor (desc.Code pe) pes = Some last.
Proof.
  induction pes as [|q pes IH]; [intros []|]. intros [->|H]; simpl.
  - destruct (lastErrorFor (desc.Code pe) pes); [eauto|].
    rewrite Z.eqb_refl. eauto.
  - destruct (IH H) as [last ->]. eauto.
Qed.

Lemma responseFor_responses o o' code :
  spec.opResponses o = spec.opResponses o' ->
  spec.responseFor o code = spec.responseFor o' code.
Proof. unfold spec.responseFor. now intros ->. Qed.

End Responses.

(** ** [addOperation]: the request-body parameter *)

(** The switch on the method adds a body parameter exactly for POST, PUT
    and PATCH (in any letter case). *)
Lemma addOperation_method_body U r inType method op pathItem :
  (addOperation_method U r inType method op pathItem).1 =
  if String.eqb (Strings.ToUpper method) "POST"
     || String.eqb (Strings.ToUpper method) "PUT"
     || String.eqb (Strings.ToUpper method) "PATCH"
  then spec.AddParam op
         (Some (spec.BodyParam (reflect.Name U inType) (definitionRef U inType)))
  else op.
Proof.
  unfold addOperation_method. cbv zeta.
  generalize (Strings.ToUpper method). intros M.
  destruct (String.eqb_spec M "GET") as [->|_]; [reflexivity|].
  destruct (String.eqb_spec M "DELETE") as [->|_]; [reflexivity|].
  destruct (String.eqb_spec M "POST") as [->|_]; [reflexivity|].
  destruct (String.eqb_spec M "PUT") as [->|_]; [reflexivity|].
  destruct (String.eqb_spec M "PATCH") as [->|_]; reflexivity.
Qed.

(** C7, at a contract with the selectors GET and POST on
    [/some/:x/:y]: both path-item slots point to the contract's one
    operation object, so the operation registered under GET carries the
    body parameter that the POST selector added. *)
Theorem get_operation_carries_body_param :
  (m ← addOperation Fixtures.universe Fixtures.sg 5 Fixtures.mem0 "testService"
         Fixtures.getAndPost;
   Ok (paths ← Paths (document m);
       pathItem ← paths !! "/some/{x}/{y}";
       op ← piGet pathItem;
       Some (map (fun p => (spec.parName p, spec.parIn p)) (spec.opParameters op))))
  = Ok (Some [("x", "path"); ("y", "path"); ("z", "query"); ("w", "query");
              ("sampleReq", "body")]).
Proof. vm_compute. reflexivity. Qed.

(** ** Tags: what a run leaves behind for the next *)

Section Tags.
Variable U : reflect.Universe.
Variable sg : swaggerGen.

Lemma addDefinition_tags n m t m' :
  addDefinition U sg n m t = Ok m' -> Tags (swag m') = Tags (swag m).
Proof. intros H. apply addDefinition_frame in H as (ws & log & E). apply E. Qed.

Lemma tags_makePaths m : Tags (swag (makePaths m)) = Tags (swag m).
Proof. unfold makePaths. now destruct (Paths (swag m)). Qed.

Lemma errors_loop_tags n r pes : forall pe0 op0 m0 pe1 op1 m1,
  forRange (addOperation_error U sg n r) pes (pe0, op0, m0) = Ok (pe1, op1, m1) ->
  Tags (swag m1) = Tags (swag m0).
Proof.
  induction pes as [|pe pes IH]; intros pe0 op0 m0 pe1 op1 m1 H.
  - now injection H as <- <- <-.
  - rewrite forRange_cons, addOperation_error_eq in H.
    destruct (addDefinition U sg n m0 (reflect.IndirectType U (desc.Message pe)))
      as [ma| |] eqn:Ea; try discriminate.
    rewrite !bind_Ok in H. apply addDefinition_tags in Ea.
    apply IH in H. now rewrite H.
Qed.

Lemma selectors_loop_tags n r inType outType sels : forall op0 m0 op1 m1,
  forRange (addOperation_selector U sg n r inType outType) sels (op0, m0) = Ok (op1, m1) ->
  Tags (swag m1) = Tags (swag m0).
Proof.
  induction sels as [|sel sels IH]; intros op0 m0 op1 m1 H.
  - now injection H as <- <-.
  - rewrite forRange_cons in H.
    destruct sel as [method path|]; [|now apply IH in H].
    rewrite addOperation_selector_eq in H.
    destruct (setInput U sg op0 path inType) as [opa| |]; try discriminate.
    rewrite bind_Ok in H.
    destruct (addDefinition U sg n (storeOp r opa m0) inType) as [ma| |] eqn:Ea;
      try discriminate.
    rewrite bind_Ok in H. apply addDefinition_tags in Ea.
    destruct (addDefinition U sg n ma outType) as [mb| |] eqn:Eb; try discriminate.
    rewrite !bind_Ok in H. apply addDefinition_tags in Eb.
    apply IH in H. rewrite H. simpl. now rewrite Eb, Ea.
Qed.

Lemma addOperation_tags n m serviceName c m' :
  addOperation U sg n m serviceName c = Ok m' -> Tags (swag m') = Tags (swag m).
Proof.
  rewrite addOperation_eq. intros H.
  destruct (forRange (addOperation_error U sg n _) _ _)
    as [[[pe1 op1] m1]| |] eqn:E1; try discriminate.
  rewrite bind_Ok in H.
  destruct (forRange (addOperation_selector U sg n _ _ _) _ _)
    as [[op2 m2]| |] eqn:E2; try discriminate.
  rewrite bind_Ok in H. injection H as <-.
  apply errors_loop_tags in E1. apply selectors_loop_tags in E2.
  rewrite E2, E1. simpl. apply tags_makePaths.
Qed.

Lemma contracts_loop_tags n serviceName cs : forall m m',
  forRange (fun m c => addOperation U sg n m serviceName c) cs m = Ok m' ->
  Tags (swag m') = Tags (swag m).
Proof.
  induction cs as [|c cs IH]; intros m m' H.
  - now injection H as <-.
  - rewrite forRange_cons in H.
    destruct (addOperation U sg n m serviceName c) as [ma| |] eqn:Ea; try discriminate.
    rewrite bind_Ok in H. apply addOperation_tags in Ea. apply IH in H. congruence.
Qed.

(** A run appends one tag per service, in order, to the tags the
    document already has. *)
Lemma assemble_tags n services : forall m m',
  assemble U sg n services m = Ok m' ->
  Tags (swag m') =
  Tags (swag m) ++ map (fun s => spec.NewTag (desc.ServiceName s) "") services.
Proof.
  unfold assemble. induction services as [|s services IH]; intros m m' H.
  - injection H as <-. now rewrite app_nil_r.
  - rewrite forRange_cons in H.
    destruct (assemble_service U sg n m s) as [ma| |] eqn:Ea; try discriminate.
    rewrite bind_Ok in H. apply IH in H. rewrite H.
    unfold assemble_service in Ea. apply contracts_loop_tags in Ea.
    rewrite Ea. simpl. now rewrite <- app_assoc.
Qed.

End Tags.

(** ** [WriteTo]: successive runs *)

Section Runs.
Variable U : reflect.Universe.
Variable sg : swaggerGen.
Variable error World Writer : Type.
Variable Write : Writer -> string -> World -> World * option error.
Variable Create : string -> World -> World * (Writer + error).
Variable MarshalJSON : Swagger spec.Operation -> string + error.

Lemma WriteTo_eq n w services m world :
  WriteTo U sg error World Writer Write MarshalJSON n w services m world =
  (m1 ← assemble U sg n services m;
   Ok (m1, (encodeAndWrite error World Writer Write MarshalJSON w m1 world).1,
       (encodeAndWrite error World Writer Write MarshalJSON w m1 world).2)).
Proof.
  unfold WriteTo. destruct (assemble U sg n services m) as [m1| |]; try reflexivity.
  rewrite !bind_Ok. now destruct (encodeAndWrite _ _ _ _ _ _ _ _).
Qed.

Lemma WriteTo_assemble n w services m world m1 world1 err :
  WriteTo U sg error World Writer Write MarshalJSON n w services m world
  = Ok (m1, world1, err) ->
  assemble U sg n services m = Ok m1.
Proof.
  rewrite WriteTo_eq. destruct (assemble U sg n services m); try discriminate.
  rewrite bind_Ok. now intros [= -> _ _].
Qed.

(** C6, amended.  The generator's document is carried over from one
    [WriteTo] to the next: a call that returns has appended one tag per
    service to the tags the document had, so of two successive calls
    with the same services the second ends with every service tag once
    more than the first, and the two documents differ as soon as there
    is a service. *)
Theorem WriteTo_carries_tags_over (n1 n2 : nat) (w : Writer)
    (services : list desc.Service) (m m1 m2 : Mem) (world world1 world2 : World)
    (err1 err2 : option error) :
  WriteTo U sg error World Writer Write MarshalJSON n1 w services m world
  = Ok (m1, world1, err1) ->
  WriteTo U sg error World Writer Write MarshalJSON n2 w services m1 world1
  = Ok (m2, world2, err2) ->
  Tags (document m1) =
  Tags (document m) ++ map (fun s => spec.NewTag (desc.ServiceName s) "") services
  /\ Tags (document m2) =
     Tags (document m1) ++ map (fun s => spec.NewTag (desc.ServiceName s) "") services
  /\ (services <> [] -> document m2 <> document m1).
Proof.
  intros H1 H2. apply WriteTo_assemble, assemble_tags in H1, H2.
  split; [exact H1|]. split; [exact H2|].
  intros Hne E. assert (T : Tags (document m2) = Tags (document m1)) by now rewrite E.
  simpl in T. rewrite H2 in T. apply (f_equal (@length _)) in T.
  rewrite length_app, length_map in T. destruct services; [congruence | simpl in T; lia].
Qed.

End Runs.

(** The theorem at the service on [a.Item], written twice to the
    stand-in sink. *)
Lemma WriteTo_carries_tags_over_witness :
  exists m1 world1 err1 m2 world2 err2,
    WriteTo Fixtures.universe Fixtures.sg string (list string) unit
      Fixtures.sinkWrite Fixtures.encodeTagNames 3 tt [Fixtures.itemService]
      Fixtures.mem0 [] = Ok (m1, world1, err1)
    /\ WriteTo Fixtures.universe Fixtures.sg string (list string) unit
         Fixtures.sinkWrite Fixtures.encodeTagNames 3 tt [Fixtures.itemService]
         m1 world1 = Ok (m2, world2, err2)
    /\ Tags (document m2) =
       Tags (document m1)
       ++ map (fun s => spec.NewTag (desc.ServiceName s) "") [Fixtures.itemService]
    /\ document m2 <> document m1.
Proof.
  destruct (WriteTo Fixtures.universe Fixtures.sg string (list string) unit
              Fixtures.sinkWrite Fixtures.encodeTagNames 3 tt [Fixtures.itemService]
              Fixtures.mem0 []) as [[[m1 world1] err1]| |] eqn:E1.
  2, 3: vm_compute in E1; discriminate E1.
  destruct (WriteTo Fixtures.universe Fixtures.sg string (list string) unit
              Fixtures.sinkWrite Fixtures.encodeTagNames 3 tt [Fixtures.itemService]
              m1 world1) as [[[m2 world2] err2]| |] eqn:E2.
  - exists m1, world1, err1, m2, world2, err2.
    split; [reflexivity|]. split; [exact E2|].
    destruct (WriteTo_carries_tags_over Fixtures.universe Fixtures.sg string
                (list string) unit Fixtures.sinkWrite Fixtures.encodeTagNames
                3 3 tt [Fixtures.itemService] Fixtures.mem0 m1 m2 [] world1 world2
                err1 err2 E1 E2) as (_ & T & D).
    split; [exact T | apply D; discriminate].
  - exfalso. vm_compute in E1. injection E1 as <- <- <-.
    vm_compute in E2. discriminate E2.
  - exfalso. vm_compute in E1. injection E1 as <- <- <-.
    vm_compute in E2. discriminate E2.
Defined.

(** C6 as stated fails at the service of the test: the second of two
    successive calls writes a document with the tag twice. *)
Lemma WriteTo_twice_differs :
  ('(m1, world1, _) ← WriteTo Fixtures.universe Fixtures.sg string (list string) unit
                        Fixtures.sinkWrite Fixtures.encodeTagNames 5 tt
                        [Fixtures.testService] Fixtures.mem0 [];
   '(m2, world2, _) ← WriteTo Fixtures.universe Fixtures.sg string (list string) unit
                        Fixtures.sinkWrite Fixtures.encodeTagNames 5 tt
                        [Fixtures.testService] m1 world1;
   Ok (Tags (document m1), Tags (document m2), world2))
  = Ok ([spec.NewTag "testService" ""],
        [spec.NewTag "testService" ""; spec.NewTag "testService" ""],
        ["testService"; "testService,testService"])
  /\ [spec.NewTag "testService" ""]
     <> [spec.NewTag "testService" ""; spec.NewTag "testService" ""].
Proof. split; [vm_compute; reflexivity | discriminate]. Qed.

(** ** [WriteTo] and [WriteToFile]: where a run can fail *)

(** Finitely many things that each hold from some fuel on hold together
    from some fuel on. *)
Lemma eventually_all {A} (P : nat -> A -> Prop) (xs : list A) :
  (forall x, In x xs -> exists n, forall n', n <= n' -> P n' x) ->
  exists n, forall n', n <= n' -> forall x, In x xs -> P n' x.
Proof.
  induction xs as [|x xs IH]; intros H.
  - exists 0. intros n' _ x [].
  - destruct (H x) as [n1 H1]; [now left|].
    destruct IH as [n2 H2]; [intros; apply H; now right|].
    exists (Nat.max n1 n2). intros n' Hle y [<-|Hy].
    + apply H1. lia.
    + apply H2; [lia | exact Hy].
Qed.

Section Totality.
Variable U : reflect.Universe.
Variable sg : swaggerGen.

Lemma addDefinition_total t :
  recordType U sg t ->
  exists n, forall n', n <= n' -> forall m, exists m', addDefinition U sg n' m t = Ok m'.
Proof.
  intros [K HA]. destruct (addDefinition_Acc U sg t K HA) as [n Hn].
  exists n. intros n' Hle m. destruct (Hn m) as [m' E]. exists m'.
  now apply (addDefinition_fuel U sg n n').
Qed.

Lemma addOperation_total c :
  recordContract U sg c ->
  exists n, forall n', n <= n' ->
            forall m serviceName, exists m', addOperation U sg n' m serviceName c = Ok m'.
Proof.
  intros (Hin & Hout & Herr).
  destruct (addDefinition_total _ Hin) as [n1 H1].
  destruct (addDefinition_total _ Hout) as [n2 H2].
  destruct (eventually_all
              (fun n pe => forall m, exists m',
                   addDefinition U sg n m (reflect.IndirectType U (desc.Message pe)) = Ok m')
              (desc.PossibleErrors c)) as [n3 H3].
  { intros pe Hpe. now apply addDefinition_total, Herr. }
  exists (Nat.max n1 (Nat.max n2 n3)). intros n Hle m serviceName.
  rewrite addOperation_eq.
  destruct (forRange_Ok (addOperation_error U sg n (length (ops (makePaths m))))
              (desc.PossibleErrors c)) with
    (s := (∅ : gmap Z (list string), initialOperation U serviceName c,
           (newOp (initialOperation U serviceName c) (makePaths m)).2))
    as [[[pe1 op1] m1] ->].
  { intros [[pe0 op0] m0] pe Hpe. rewrite addOperation_error_eq.
    destruct (H3 n) with (x := pe) (m := m0) as [ma ->]; [lia | exact Hpe|].
    rewrite bind_Ok. eexists. reflexivity. }
  rewrite bind_Ok.
  destruct (forRange_Ok (addOperation_selector U sg n (length (ops (makePaths m)))
                           (reflect.IndirectType U (desc.Input c))
                           (reflect.IndirectType U (desc.Output c)))
              (desc.Selectors c)) with (s := (op1, m1)) as [[op2 m2] ->].
  { intros [op0 m0] [method path|] _; [|eexists; reflexivity].
    rewrite addOperation_selector_eq.
    rewrite (setInput_record U sg op0 path _ (proj1 Hin)), bind_Ok.
    destruct (H1 n) with (m := storeOp (length (ops (makePaths m)))
                                  (fold_left
                                     (setInput_field U sg (pathParamsOf path))
                                     (reflect.fields
                                        (U (recordOf U
                                              (reflect.IndirectType U (desc.Input c)))))
                                     op0) m0)
      as [ma ->]; [lia|].
    rewrite bind_Ok. destruct (H2 n) with (m := ma) as [mb ->]; [lia|].
    rewrite bind_Ok. eexists. reflexivity. }
  rewrite bind_Ok. eexists. reflexivity.
Qed.

Lemma assemble_total services :
  (forall s c, In s services -> In c (desc.Contracts s) -> recordContract U sg c) ->
  exists n, forall n', n <= n' ->
            forall m, exists m', assemble U sg n' services m = Ok m'.
Proof.
  intros H.
  destruct (eventually_all
              (fun n c => forall m serviceName, exists m',
                   addOperation U sg n m serviceName c = Ok m')
              (concat (map desc.Contracts services))) as [n Hn].
  { intros c Hc. apply in_concat in Hc as (cs & Hcs & Hc).
    apply in_map_iff in Hcs as (s & <- & Hs). apply addOperation_total.
    now apply (H s c). }
  exists n. intros n' Hle m. unfold assemble. apply forRange_Ok.
  intros m0 s Hs. unfold assemble_service. apply forRange_Ok.
  intros m1 c Hc. apply (Hn n' Hle).
  apply in_concat. exists (desc.Contracts s). split; [|exact Hc].
  apply in_map_iff. eauto.
Qed.

End Totality.

(** ** [addOperation]: merged error responses *)

Section MergedErrors.
Variable U : reflect.Universe.
Variable sg : swaggerGen.

(** C8.  When [addOperation] has returned for a contract, the operation
    it made (the new object of the store) holds, for every declared
    possible error, one response entry under the error's status code;
    its description is ["Items: "] followed by the item labels of all
    errors declared under that code, joined by [", "] in declaration
    order, and its schema refers to the definition of the error-payload
    type (that of the last error declared under the code).  And it does
    return, given enough fuel, for every contract whose messages are
    records with a finite walk. *)
Theorem possible_errors_merged (c : desc.Contract) :
  (forall n m serviceName m',
      addOperation U sg n m serviceName c = Ok m' ->
      exists op, ops m' !! length (ops m) = Some op /\ mergedErrors U c op)
  /\ (recordContract U sg c ->
      exists n, forall n', n <= n' ->
      forall m serviceName, exists m', addOperation U sg n' m serviceName c = Ok m').
Proof.
  split; [|apply addOperation_total].
  intros n m serviceName m'.
  rewrite addOperation_eq, ops_makePaths. intros H.
  destruct (forRange (addOperation_error U sg n (length (ops m))) _ _)
    as [[[pe1 op1] m1]| |] eqn:E1; try discriminate.
  rewrite bind_Ok in H.
  destruct (forRange (addOperation_selector U sg n (length (ops m)) _ _) _ _)
    as [[op2 m2]| |] eqn:E2; try discriminate.
  rewrite bind_Ok in H. injection H as <-.
  apply errors_loop in E1 as (HR & Hop1 & Hlen1).
  2: { simpl. rewrite ops_makePaths, length_app. simpl. lia. }
  2: { simpl. rewrite ops_makePaths. apply list_lookup_middle. reflexivity. }
  apply selectors_loop in E2 as (HS & Hop2 & Hlen2); [|rewrite Hlen1|exact Hop1].
  2: { simpl. rewrite ops_makePaths, length_app. simpl. lia. }
  exists op2. split; [exact Hop2|].
  intros pe Hin. destruct (lastErrorFor_In pe _ Hin) as [last L].
  exists last. split; [exact L|].
  rewrite (responseFor_responses op2 op1 _ HS), HR, L. reflexivity.
Qed.

End MergedErrors.

(** The theorem at a contract with two errors under 404. *)
Lemma possible_errors_merged_witness :
  exists m',
    addOperation Fixtures.universe Fixtures.sg 5 Fixtures.mem0 "testService"
      Fixtures.sharedCode = Ok m'
    /\ exists op, ops m' !! length (ops Fixtures.mem0) = Some op
                  /\ mergedErrors Fixtures.universe Fixtures.sharedCode op.
Proof.
  destruct (addOperation Fixtures.universe Fixtures.sg 5 Fixtures.mem0 "testService"
              Fixtures.sharedCode) as [m'| |] eqn:E.
  - exists m'. split; [reflexivity|].
    exact (proj1 (possible_errors_merged Fixtures.universe Fixtures.sg
                    Fixtures.sharedCode)
             5 Fixtures.mem0 "testService" m' E).
  - vm_compute in E. discriminate E.
  - vm_compute in E. discriminate E.
Defined.

(** The responses of that operation. *)
Example shared_code_responses :
  (m ← addOperation Fixtures.universe Fixtures.sg 5 Fixtures.mem0 "testService"
         Fixtures.sharedCode;
   Ok (op ← ops m !! 0;
       Some (spec.respDescription <$> spec.responseFor op 404,
             spec.respDescription <$> spec.responseFor op 504)))
  = Ok (Some (Some "Items: ITEM1, ITEM2", Some "Items: SERVER")).
Proof. vm_compute. reflexivity. Qed.

Section Failure.
Variable U : reflect.Universe.
Variable sg : swaggerGen.
Variable error World Writer : Type.
Variable Write : Writer -> string -> World -> World * option error.
Variable Create : string -> World -> World * (Writer + error).
Variable MarshalJSON : Swagger spec.Operation -> string + error.

(** C5, amended.  For services whose contract messages are all records
    with a finite walk, some fuel is enough for the assembly, and from
    then on: [WriteTo] returns; the error it returns is that of the
    terminal step alone, namely the encoder's error, in which case
    nothing has been written, or else whatever the single [Write] of the
    complete encoding returns; and [WriteToFile] returns the creation
    error with the document untouched, or else is [WriteTo] on the
    created file.  The assembly itself has no error to return. *)
Theorem WriteTo_fails_only_at_the_end (services : list desc.Service) :
  (forall s c, In s services -> In c (desc.Contracts s) -> recordContract U sg c) ->
  exists n, forall n', n <= n' ->
  forall (m : Mem) (w : Writer) (world : World) (filename : string),
  exists m1,
    assemble U sg n' services m = Ok m1
    /\ WriteTo U sg error World Writer Write MarshalJSON n' w services m world =
       match MarshalJSON (document m1) with
       | inr err => Ok (m1, world, Some err)
       | inl swaggerJSON =>
           Ok (m1, (Write w swaggerJSON world).1, (Write w swaggerJSON world).2)
       end
    /\ WriteToFile U sg error World Writer Write Create MarshalJSON n' filename
         services m world =
       match Create filename world with
       | (world', inr err) => Ok (m, world', Some err)
       | (world', inl f) =>
           WriteTo U sg error World Writer Write MarshalJSON n' f services m world'
       end.
Proof.
  intros H. destruct (assemble_total U sg services H) as [n Hn].
  exists n. intros n' Hle m w world filename.
  destruct (Hn n' Hle m) as [m1 E]. exists m1. split; [exact E|]. split.
  - rewrite WriteTo_eq, E, bind_Ok. unfold encodeAndWrite.
    now destruct (MarshalJSON (document m1)).
  - unfold WriteToFile. now destruct (Create filename world) as [world' [f|err]].
Qed.

End Failure.

Lemma Item_recordType :
  recordType Fixtures.universe Fixtures.sg Fixtures.tItemA.
Proof.
  split; [reflexivity|]. constructor. intros u Hu.
  apply visits_Item in Hu as ->. constructor. intros w Hw.
  now apply visits_string in Hw.
Qed.

(** The theorem at a service on [a.Item] and the stand-in sink. *)
Lemma WriteTo_fails_only_at_the_end_witness :
  exists n, forall n', n <= n' ->
  forall (m : Mem) (w : unit) (world : list string) (filename : string),
  exists m1,
    assemble Fixtures.universe Fixtures.sg n' [Fixtures.itemService] m = Ok m1
    /\ WriteTo Fixtures.universe Fixtures.sg string (list string) unit
         Fixtures.sinkWrite Fixtures.encodeTagNames n' w [Fixtures.itemService] m world =
       match Fixtures.encodeTagNames (document m1) with
       | inr err => Ok (m1, world, Some err)
       | inl swaggerJSON =>
           Ok (m1, (Fixtures.sinkWrite w swaggerJSON world).1,
               (Fixtures.sinkWrite w swaggerJSON world).2)
       end
    /\ WriteToFile Fixtures.universe Fixtures.sg string (list string) unit
         Fixtures.sinkWrite Fixtures.sinkCreate Fixtures.encodeTagNames n' filename
         [Fixtures.itemService] m world =
       match Fixtures.sinkCreate filename world with
       | (world', inr err) => Ok (m, world', Some err)
       | (world', inl f) =>
           WriteTo Fixtures.universe Fixtures.sg string (list string) unit
             Fixtures.sinkWrite Fixtures.encodeTagNames n' f [Fixtures.itemService] m world'
       end.
Proof.
  apply (WriteTo_fails_only_at_the_end Fixtures.universe Fixtures.sg string
           (list string) unit Fixtures.sinkWrite Fixtures.sinkCreate
           Fixtures.encodeTagNames [Fixtures.itemService]).
  intros s c [<-|[]] [<-|[]].
  split; [exact Item_recordType|]. split; [exact Item_recordType|]. intros pe [].
Defined.

Lemma forRange_nil {A S} (body : S -> A -> Res S) s : forRange body [] s = Ok s.
Proof. reflexivity. Qed.

Lemma addOperation_on_Node n m serviceName :
  addOperation Fixtures.universe Fixtures.sg n m serviceName Fixtures.nodeContract
  = Diverge.
Proof.
  rewrite addOperation_eq.
  change (desc.PossibleErrors Fixtures.nodeContract) with (@nil desc.Error).
  change (desc.Selectors Fixtures.nodeContract) with [desc.REST "GET" "/node"].
  rewrite forRange_nil, bind_Ok. cbv beta iota.
  rewrite forRange_cons, addOperation_selector_eq.
  rewrite setInput_record by reflexivity. rewrite bind_Ok.
  rewrite addDefinition_cyclic; [reflexivity | reflexivity | apply Node_cyclic].
Qed.

(** C5 as stated fails before the terminal step: with a sink and an
    encoder that never fail, a contract whose input is a plain string
    makes the run panic ([NumField] of a non-struct) and a contract on
    the self-referential [Node] makes it run for ever, whatever the
    fuel. *)
Lemma WriteTo_fails_before_the_end :
  (forall n,
      WriteTo Fixtures.universe Fixtures.sg string (list string) unit
        Fixtures.sinkWrite Fixtures.encodeTagNames n tt [Fixtures.stringInput]
        Fixtures.mem0 [] = Panic)
  /\ (forall n,
      WriteToFile Fixtures.universe Fixtures.sg string (list string) unit
        Fixtures.sinkWrite Fixtures.sinkCreate Fixtures.encodeTagNames n "swagger.json"
        [Fixtures.stringInput] Fixtures.mem0 [] = Panic)
  /\ (forall n,
      WriteTo Fixtures.universe Fixtures.sg string (list string) unit
        Fixtures.sinkWrite Fixtures.encodeTagNames n tt [Fixtures.nodeService]
        Fixtures.mem0 [] = Diverge).
Proof.
  split; [|split]; intros n.
  - reflexivity.
  - reflexivity.
  - rewrite WriteTo_eq. unfold assemble. rewrite forRange_cons.
    unfold assemble_service.
    change (desc.Contracts Fixtures.nodeService) with [Fixtures.nodeContract].
    rewrite forRange_cons, addOperation_on_Node. reflexivity.
Qed.

(* ================================================================== *)
(** * Further properties of the generator *)
(* ================================================================== *)

(** ** [replacePath]: what rewriting keeps and what it never leaves *)

(** Cutting a string at a separator and joining the pieces with it gives
    the string back. *)
Lemma Join_Split s sep : Strings.Join (Strings.Split s sep) (String sep "") = s.
Proof.
  induction s as [|c s IH]; [reflexivity|]. simpl Strings.Split.
  destruct (Ascii.eqb c sep) eqn:E.
  - apply Ascii.eqb_eq in E as ->.
    pose proof (Split_not_nil s sep) as Hne.
    destruct (Strings.Split s sep) as [|p ps]; [congruence|].
    rewrite Join_cons2, append_empty_l, append_cons, append_empty_l. now rewrite IH.
  - destruct (Strings.Split s sep) as [|p ps] eqn:Es.
    + now apply Split_not_nil in Es.
    + destruct ps as [|q ps].
      * simpl in *. now rewrite IH.
      * rewrite Join_cons2, append_cons. rewrite Join_cons2 in IH. now rewrite IH.
Qed.

Lemma placeholder_no_colon p : Strings.HasPrefix (placeholder_of_segment p) ":" = false.
Proof.
  destruct p as [|c p]; [reflexivity|].
  destruct (Ascii.eqb c ":") eqn:E.
  - apply Ascii.eqb_eq in E as ->. reflexivity.
  - rewrite placeholder_other by exact E. exact E.
Qed.

Lemma placeholder_fixed p :
  Strings.HasPrefix p ":" = false -> placeholder_of_segment p = p.
Proof.
  destruct p as [|c p]; [reflexivity|]. simpl. apply placeholder_other.
Qed.

Lemma placeholder_moves p :
  Strings.HasPrefix p ":" = true -> placeholder_of_segment p <> p.
Proof.
  destruct p as [|c p]; [discriminate|]. simpl. intros E.
  apply Ascii.eqb_eq in E as ->. discriminate.
Qed.

Lemma replacePath_Split path :
  Strings.Split (replacePath path) "/" =
  map placeholder_of_segment (Strings.Split path "/").
Proof.
  rewrite replacePath_Join. apply Split_Join.
  - pose proof (Split_not_nil path "/").
    destruct (Strings.Split path "/"); [congruence | discriminate].
  - pose proof (Split_pieces_free path "/") as H.
    induction H; constructor; auto using placeholder_free.
Qed.

(** X1.  No piece of a rewritten path starts with a colon, and
    rewriting a rewritten path changes nothing: a path key is stable
    once it has been through [replacePath]. *)
Theorem replacePath_idempotent (path : string) :
  Forall (fun piece => Strings.HasPrefix piece ":" = false)
    (Strings.Split (replacePath path) "/")
  /\ replacePath (replacePath path) = replacePath path.
Proof.
  split.
  - rewrite replacePath_Split. apply Forall_forall. intros piece H.
    apply list_elem_of_In, in_map_iff in H as (p & <- & _). apply placeholder_no_colon.
  - rewrite (replacePath_Join (replacePath path)), replacePath_Split, map_map.
    rewrite (replacePath_Join path). f_equal. apply map_ext. intros p.
    apply placeholder_fixed, placeholder_no_colon.
Qed.

(** X2.  [replacePath] returns its argument unchanged exactly when no
    piece of the path starts with a colon. *)
Theorem replacePath_identity_iff (path : string) :
  replacePath path = path
  <-> Forall (fun piece => Strings.HasPrefix piece ":" = false) (Strings.Split path "/").
Proof.
  split.
  - intros E. pose proof (replacePath_Split path) as H. rewrite E in H.
    apply Forall_forall. intros piece Hin. apply list_elem_of_In in Hin.
    destruct (Strings.HasPrefix piece ":") eqn:C; [exfalso|reflexivity].
    assert (G : forall l, l = map placeholder_of_segment l -> In piece l -> False).
    { induction l as [|q l IH]; [intros _ []|]. simpl. intros [= E1 E2] [->|Hl].
      - now apply (placeholder_moves piece).
      - now apply IH. }
    exact (G _ H Hin).
  - intros HF. rewrite replacePath_Join.
    rewrite <- (Join_Split path "/") at 2. f_equal.
    induction HF as [|p ps Hp _ IH]; [reflexivity|]. simpl.
    now rewrite (placeholder_fixed p Hp), IH.
Qed.

(** ** [setInput] and [replacePath] agree on the path parameters *)

(** X3.  On a record type [setInput] adds only query and path
    parameters, and every path parameter it adds has its placeholder
    [{name}] among the pieces of the rewritten path under which the
    operation is registered. *)
Theorem path_parameters_have_placeholders (U : reflect.Universe) (sg : swaggerGen)
    (op : spec.Operation) (path : string) (inType : reflect.Typ) :
  reflect.Kind_ U (recordOf U inType) = reflect.Struct ->
  exists op',
    setInput U sg op path inType = Ok op'
    /\ forall p,
         In p (spec.opParameters op') ->
         In p (spec.opParameters op)
         \/ (spec.parIn p = "query"
             \/ spec.parIn p = "path"
                /\ In ("{" +:+ spec.parName p +:+ "}")
                     (Strings.Split (replacePath path) "/")).
Proof.
  intros K. rewrite (setInput_record U sg op path inType K).
  eexists. split; [reflexivity|]. intros p Hp.
  destruct (setInput_fields_origin U sg (pathParamsOf path) _ op p Hp)
    as [H|(f & _ & _ & _ & Hn & Hi & _)]; [left; exact H | right].
  destruct (foundIn _ (pathParamsOf path)) eqn:F; [right | left; exact Hi].
  split; [exact Hi|]. apply foundIn_segment in F. rewrite Hn.
  rewrite replacePath_Split. apply in_map_iff.
  exists (String ":" (reflect.Get (reflect.fieldTag f) (tagName sg))).
  split; [apply placeholder_colon | exact F].
Qed.

(** The theorem at the request type of the test. *)
Lemma path_parameters_have_placeholders_witness :
  exists op',
    setInput Fixtures.universe Fixtures.sg (spec.NewOperation "op") "/some/:x/:y"
      Fixtures.pSampleReq = Ok op'
    /\ forall p,
         In p (spec.opParameters op') ->
         In p (spec.opParameters (spec.NewOperation "op"))
         \/ (spec.parIn p = "query"
             \/ spec.parIn p = "path"
                /\ In ("{" +:+ spec.parName p +:+ "}")
                     (Strings.Split (replacePath "/some/:x/:y") "/")).
Proof.
  apply (path_parameters_have_placeholders Fixtures.universe Fixtures.sg
           (spec.NewOperation "op") "/some/:x/:y" Fixtures.pSampleReq).
  reflexivity.
Defined.

(** ** [addDefinition]: property names *)

Lemma occurs_rev_app c s : forall acc,
  occurs c (String.rev_app s acc) = occurs c s || occurs c acc.
Proof.
  induction s as [|x s IH]; intros acc; simpl; [reflexivity|].
  rewrite IH. simpl. destruct (Ascii.eqb x c), (occurs c s), (occurs c acc); reflexivity.
Qed.

Lemma occurs_rev c s : occurs c (String.rev s) = occurs c s.
Proof. unfold String.rev. rewrite occurs_rev_app. simpl. apply orb_false_r. Qed.

(** Trimming only removes bytes: what is left is a suffix (of the
    reversed string, for the right end). *)
Lemma TrimLeftSpace_suffix n : forall s,
  String.length s <= n -> exists pre, s = pre +:+ Strings.TrimLeftSpace s.
Proof.
  induction n as [|n IH]; intros s Hlen.
  - destruct s; [exists ""; reflexivity | simpl in Hlen; lia].
  - destruct s as [|x r]; [exists ""; reflexivity|].
    simpl in Hlen. simpl Strings.TrimLeftSpace.
    destruct (Strings.isSpace1 x).
    { destruct (IH r) as [pre E]; [lia|]. exists (String x pre).
      rewrite append_cons. now f_equal. }
    destruct r as [|y r2]; [exists ""; reflexivity|].
    simpl in Hlen. destruct (Strings.isSpace2 x y).
    { destruct (IH r2) as [pre E]; [lia|]. exists (String x (String y pre)).
      rewrite !append_cons. now do 2 f_equal. }
    destruct r2 as [|z r3]; [exists ""; reflexivity|].
    simpl in Hlen. destruct (Strings.isSpace3 x y z); [|exists ""; reflexivity].
    destruct (IH r3) as [pre E]; [lia|]. exists (String x (String y (String z pre))).
    rewrite !append_cons. now do 3 f_equal.
Qed.

Lemma TrimLeftSpace_rev_suffix n : forall s,
  String.length s <= n -> exists pre, s = pre +:+ Strings.TrimLeftSpace_rev s.
Proof.
  induction n as [|n IH]; intros s Hlen.
  - destruct s; [exists ""; reflexivity | simpl in Hlen; lia].
  - destruct s as [|x r]; [exists ""; reflexivity|].
    simpl in Hlen. simpl Strings.TrimLeftSpace_rev.
    destruct (Strings.isSpace1 x).
    { destruct (IH r) as [pre E]; [lia|]. exists (String x pre).
      rewrite append_cons. now f_equal. }
    destruct r as [|y r2]; [exists ""; reflexivity|].
    simpl in Hlen. destruct (Strings.isSpace2 y x).
    { destruct (IH r2) as [pre E]; [lia|]. exists (String x (String y pre)).
      rewrite !append_cons. now do 2 f_equal. }
    destruct r2 as [|z r3]; [exists ""; reflexivity|].
    simpl in Hlen. destruct (Strings.isSpace3 z y x); [|exists ""; reflexivity].
    destruct (IH r3) as [pre E]; [lia|]. exists (String x (String y (String z pre))).
    rewrite !append_cons. now do 3 f_equal.
Qed.

Lemma TrimSpace_free c s :
  occurs c s = false -> occurs c (Strings.TrimSpace s) = false.
Proof.
  intros H. unfold Strings.TrimSpace, Strings.TrimRightSpace.
  rewrite occurs_rev.
  destruct (TrimLeftSpace_suffix (String.length s) s (Nat.le_refl _)) as [pre E].
  rewrite E, occurs_append in H. apply orb_false_iff in H as [_ H].
  rewrite <- occurs_rev in H.
  destruct (TrimLeftSpace_rev_suffix _ (String.rev (Strings.TrimLeftSpace s))
              (Nat.le_refl _)) as [pre' E'].
  rewrite E', occurs_append in H. now apply orb_false_iff in H as [_ H].
Qed.

(** X4.  The name under which [addDefinition] files a property never
    contains a comma: whatever follows the first comma of the tag value
    is dropped.  The name is therefore stable: taking the property name
    of a property name changes nothing. *)
Theorem propertyName_has_no_comma (fName : string) :
  occurs "," (propertyName fName) = false
  /\ propertyName (propertyName fName) = propertyName fName.
Proof.
  assert (H : occurs "," (propertyName fName) = false).
  { unfold propertyName.
    pose proof (Split_pieces_free fName ",") as HF.
    pose proof (Join_Split fName ",") as HJ.
    destruct (Strings.Split fName ",") as [|p [|q ps]]; simpl.
    - simpl in HJ. now subst.
    - simpl in HJ. subst. now inversion HF.
    - apply TrimSpace_free. now inversion HF. }
  split; [exact H|].
  unfold propertyName at 1. now rewrite (Split_free _ _ H).
Qed.

(** ** [addDefinition]: what it touches and what it files *)

Section Filed.
Variable U : reflect.Universe.
Variable sg : swaggerGen.

(** X5.  A returning [addDefinition] leaves paths, tags, info, schemes,
    version and all operations as they were; it only appends to standard
    output and writes definitions, and it never removes a definition
    that was there. *)
Theorem addDefinition_touches_only_definitions (n : nat) (m m' : Mem) (t : reflect.Typ) :
  addDefinition U sg n m t = Ok m' ->
  Paths (swag m') = Paths (swag m)
  /\ Tags (swag m') = Tags (swag m)
  /\ Info (swag m') = Info (swag m)
  /\ Schemes (swag m') = Schemes (swag m)
  /\ SwaggerVersion (swag m') = SwaggerVersion (swag m)
  /\ ops m' = ops m
  /\ (exists log, stdout m' = stdout m ++ log)
  /\ (forall k, is_Some (definitionsOf m !! k) -> is_Some (definitionsOf m' !! k)).
Proof.
  intros H. apply addDefinition_frame in H as (ws & log & E).
  pose proof (extends_keeps ws log m m') as K.
  destruct E as (D & S & O & P & T & I & C & V).
  repeat (split; [assumption|]). split; [eauto|].
  intros k. apply K. unfold extends. tauto.
Qed.

(** Every branch of the labelled switch files the wrapped schema. *)
Lemma Switch_wraps rec n : forall wrapFunc fName t def m def' m',
  Switch U rec n wrapFunc fName t def m = Ok (def', m') ->
  exists s, def' = spec.SetProperty def fName (wrapFunc s).
Proof.
  induction n as [|n IH]; intros wrapFunc fName t def m def' m' H; [discriminate|].
  simpl in H. destruct (reflect.Kind_ U t);
    try (injection H as <- _; eexists; reflexivity).
  - eapply IH. exact H.
  - destruct (rec m t); try discriminate. injection H as <- _. eexists. reflexivity.
Qed.

Lemma addDefinition_field_untagged rec n f def m :
  reflect.Get (reflect.fieldTag f) (tagName sg) = "" ->
  addDefinition_field U sg rec n (def, m) f = Ok (def, m).
Proof. intros E. unfold addDefinition_field. now rewrite E. Qed.

Lemma addDefinition_fields_properties rec n fs : forall def m def' m',
  forRange (addDefinition_field U sg rec n) fs (def, m) = Ok (def', m') ->
  spec.schType def' = spec.schType def
  /\ spec.schFormat def' = spec.schFormat def
  /\ spec.schRef def' = spec.schRef def
  /\ spec.schItems def' = spec.schItems def
  /\ forall key,
       is_Some (spec.schProperties def' !! key)
       <-> is_Some (spec.schProperties def !! key)
           \/ exists f, In f fs
                        /\ reflect.Get (reflect.fieldTag f) (tagName sg) <> ""
                        /\ propertyName (reflect.Get (reflect.fieldTag f) (tagName sg)) = key.
Proof.
  induction fs as [|f fs IH]; intros def m def' m' H.
  - injection H as <- <-. repeat (split; [reflexivity|]).
    intros key. split; [auto | intros [H|(f & [] & _)]; exact H].
  - rewrite forRange_cons in H.
    destruct (addDefinition_field U sg rec n (def, m) f) as [[def1 m1]| |] eqn:E;
      try discriminate.
    rewrite bind_Ok in H. apply IH in H as (T & F & R & I & P).
    destruct (String.eqb_spec (reflect.Get (reflect.fieldTag f) (tagName sg)) "")
      as [Et|Et].
    + rewrite (addDefinition_field_untagged _ _ _ _ _ Et) in E. injection E as <- <-.
      repeat (split; [assumption|]). intros key. rewrite P. split.
      * intros [H|(g & Hg & ?)]; [auto | right; exists g; split; [now right | assumption]].
      * intros [H|(g & [->|Hg] & Hn & ?)]; [auto | contradiction | right; eauto].
    + apply (addDefinition_field_sets U sg rec n f def m def1 m1 Et) in E as [s ->].
      simpl in *. repeat (split; [assumption|]). intros key. rewrite P. split.
      * intros [H|(g & Hg & ?)]; [|right; exists g; split; [now right | assumption]].
        destruct (String.eqb_spec
                    (propertyName (reflect.Get (reflect.fieldTag f) (tagName sg))) key)
          as [Ek|Ek].
        -- right. exists f. split; [now left | auto].
        -- left. now rewrite lookup_insert_ne in H.
      * intros [H|(g & [->|Hg] & Hn & Hk)].
        -- left. destruct (String.eqb_spec
                             (propertyName (reflect.Get (reflect.fieldTag f) (tagName sg)))
                             key) as [->|Ek];
             [rewrite lookup_insert_eq; eauto | now rewrite lookup_insert_ne].
        -- left. rewrite <- Hk, lookup_insert_eq. eauto.
        -- right. eauto.
Qed.

(** X6.  The definition a returning [addDefinition] files under the
    record's name is an object schema whose property names are exactly
    the names ([propertyName] of the tag value) of the record's fields
    with a non-empty tag value: untagged fields, embedded ones included,
    contribute nothing. *)
Theorem filed_definition_properties (n : nat) (m m' : Mem) (t : reflect.Typ) :
  addDefinition U sg n m t = Ok m' ->
  exists def,
    definitionsOf m' !! reflect.Name U (recordOf U t) = Some def
    /\ spec.schType def = ["object"]
    /\ spec.schRef def = ""
    /\ spec.schItems def = None
    /\ forall key,
         is_Some (spec.schProperties def !! key)
         <-> exists f, In f (reflect.fields (U (recordOf U t)))
                       /\ reflect.Get (reflect.fieldTag f) (tagName sg) <> ""
                       /\ propertyName (reflect.Get (reflect.fieldTag f) (tagName sg)) = key.
Proof.
  intros H. destruct n as [|n]; [discriminate|]. rewrite addDefinition_S in H.
  unfold reflect.Fields in H.
  destruct (reflect.Kind_ U (recordOf U t)); try discriminate.
  rewrite bind_Ok in H.
  destruct (forRange _ _ _) as [[def m1]| |] eqn:E; try discriminate.
  rewrite bind_Ok in H. injection H as <-.
  apply addDefinition_fields_properties in E as (T & F & R & I & P).
  exists def. split; [apply lookup_insert_eq|].
  repeat (split; [assumption|]). intros key. rewrite P. split.
  - intros [H|H]; [|exact H]. simpl in H. rewrite lookup_empty in H. now destruct H.
  - auto.
Qed.

End Filed.

(** The two theorems at the nested record of the test. *)
Lemma addDefinition_touches_only_definitions_witness :
  exists m',
    addDefinition Fixtures.universe Fixtures.sg 3 Fixtures.mem0 Fixtures.tSampleRes = Ok m'
    /\ ops m' = ops Fixtures.mem0
    /\ Paths (swag m') = Paths (swag Fixtures.mem0).
Proof.
  destruct (addDefinition Fixtures.universe Fixtures.sg 3 Fixtures.mem0
              Fixtures.tSampleRes) as [m'| |] eqn:E.
  - exists m'. split; [reflexivity|].
    pose proof (addDefinition_touches_only_definitions Fixtures.universe Fixtures.sg
                  3 Fixtures.mem0 m' Fixtures.tSampleRes E) as H.
    split; apply H.
  - vm_compute in E. discriminate E.
  - vm_compute in E. discriminate E.
Defined.

Lemma filed_definition_properties_witness :
  exists m' def,
    addDefinition Fixtures.universe Fixtures.sg 3 Fixtures.mem0 Fixtures.pAnotherRes = Ok m'
    /\ definitionsOf m' !! "anotherRes" = Some def
    /\ (is_Some (spec.schProperties def !! "out1")
        <-> exists f, In f (reflect.fields (Fixtures.universe Fixtures.tAnotherRes))
                      /\ reflect.Get (reflect.fieldTag f) (tagName Fixtures.sg) <> ""
                      /\ propertyName (reflect.Get (reflect.fieldTag f)
                                         (tagName Fixtures.sg)) = "out1").
Proof.
  destruct (addDefinition Fixtures.universe Fixtures.sg 3 Fixtures.mem0
              Fixtures.pAnotherRes) as [m'| |] eqn:E.
  - destruct (filed_definition_properties Fixtures.universe Fixtures.sg
                3 Fixtures.mem0 m' Fixtures.pAnotherRes E) as (def & D & _ & _ & _ & P).
    exists m', def. split; [reflexivity|]. split; [exact D | apply P].
  - vm_compute in E. discriminate E.
  - vm_compute in E. discriminate E.
Defined.

(** ** [addDefinition]: slices and pointers *)

Section Wrapping.
Variable U : reflect.Universe.
Variable sg : swaggerGen.

(** X7.  A field of slice type with a non-empty tag value is always
    filed as an array, whatever its elements are; a slice of strings is
    filed as an array of strings. *)
Theorem slice_field_is_array (rec : Mem -> reflect.Typ -> Res Mem) (n : nat)
    (f : reflect.StructField) (def def' : spec.Schema) (m m' : Mem) :
  reflect.Get (reflect.fieldTag f) (tagName sg) <> "" ->
  reflect.Kind_ U (reflect.fieldType f) = reflect.Slice ->
  addDefinition_field U sg rec n (def, m) f = Ok (def', m') ->
  exists item,
    spec.schProperties def'
      !! propertyName (reflect.Get (reflect.fieldTag f) (tagName sg))
    = Some (spec.ArrayProperty item)
    /\ (reflect.Kind_ U (reflect.Elem U (reflect.fieldType f)) = reflect.String ->
        item = spec.StringProperty /\ m' = m).
Proof.
  intros Hn Hs. unfold addDefinition_field.
  destruct (String.eqb_spec (reflect.Get (reflect.fieldTag f) (tagName sg)) "");
    [contradiction|].
  unfold wrapping. rewrite Hs. intros H.
  destruct (reflect.Kind_ U (reflect.Elem U (reflect.fieldType f))) eqn:Ke.
  all: try (destruct n as [|n]; [discriminate|]; simpl in H; rewrite Ke in H;
            injection H as <- <-; eexists; split;
            [apply lookup_insert_eq | first [discriminate | intros _; split; reflexivity]]).
  all: apply Switch_wraps in H as [s ->]; exists s;
    split; [apply lookup_insert_eq | discriminate].
Qed.

Lemma Switch_through rec k : forall n wrapFunc fName t u def m,
  throughPointers U k t = Some u ->
  Switch U rec (k + n) wrapFunc fName t def m = Switch U rec n wrapFunc fName u def m.
Proof.
  induction k as [|k IH]; intros n wrapFunc fName t u def m H.
  - now injection H as <-.
  - simpl in H. destruct (reflect.Kind_ U t) eqn:K; try discriminate.
    simpl plus. rewrite Switch_ptr by exact K. now apply IH.
Qed.

(** X8.  Pointers are transparent to the schema: a field whose type is
    a pointer chain to [u] is filed exactly like a field of type [u]
    with the same tag, provided [u] is no slice.  A pointer to a slice
    is not filed as an array: it falls to the default case, is filed as
    a plain string, and ["slice"] is printed. *)
Theorem pointer_field_is_transparent (rec : Mem -> reflect.Typ -> Res Mem)
    (k : nat) (f g : reflect.StructField) (u : reflect.Typ) :
  reflect.fieldTag f = reflect.fieldTag g ->
  reflect.Kind_ U (reflect.fieldType f) = reflect.Ptr ->
  throughPointers U k (reflect.Elem U (reflect.fieldType f)) = Some u ->
  reflect.fieldType g = u ->
  reflect.Kind_ U u <> reflect.Ptr ->
  (reflect.Kind_ U u <> reflect.Slice ->
   forall n def m,
     addDefinition_field U sg rec (k + n) (def, m) f
     = addDefinition_field U sg rec n (def, m) g)
  /\ (reflect.Kind_ U u = reflect.Slice ->
      reflect.Get (reflect.fieldTag f) (tagName sg) <> "" ->
      forall n def m,
        addDefinition_field U sg rec (k + S n) (def, m) f
        = Ok (spec.SetProperty def
                (propertyName (reflect.Get (reflect.fieldTag f) (tagName sg)))
                spec.StringProperty,
              Println "slice" m)).
Proof.
  intros Ht Kf Hk Hg Ku. split.
  - intros Ks n def m. unfold addDefinition_field. rewrite Ht.
    destruct (String.eqb _ ""); [reflexivity|].
    unfold wrapping. rewrite Kf, Hg.
    destruct (reflect.Kind_ U u) eqn:K; try congruence;
      now rewrite (Switch_through rec k n _ _ _ u).
  - intros Ks Hn n def m. unfold addDefinition_field.
    destruct (String.eqb_spec (reflect.Get (reflect.fieldTag f) (tagName sg)) "");
      [contradiction|].
    unfold wrapping. rewrite Kf.
    rewrite (Switch_through rec k (S n) _ _ _ u _ _ Hk). simpl. now rewrite Ks.
Qed.

End Wrapping.

(** The theorems at [W []string `json:"w"`] of the test's request and
    at [Next *Node `json:"next"`]. *)
Lemma slice_field_is_array_witness :
  exists item,
    spec.schProperties
      (spec.SetProperty objectSchema "w" (spec.ArrayProperty spec.StringProperty))
      !! propertyName (reflect.Get (Fixtures.json "w") (tagName Fixtures.sg))
    = Some (spec.ArrayProperty item)
    /\ (reflect.Kind_ Fixtures.universe
          (reflect.Elem Fixtures.universe Fixtures.tStrings) = reflect.String ->
        item = spec.StringProperty /\ Fixtures.mem0 = Fixtures.mem0).
Proof.
  apply (slice_field_is_array Fixtures.universe Fixtures.sg
           (addDefinition Fixtures.universe Fixtures.sg 1) 1
           (reflect.mkField "W" Fixtures.tStrings (Fixtures.json "w"))
           objectSchema _ Fixtures.mem0 Fixtures.mem0).
  - discriminate.
  - reflexivity.
  - reflexivity.
Defined.

Lemma pointer_field_is_transparent_witness :
  addDefinition_field Fixtures.universe Fixtures.sg
    (addDefinition Fixtures.universe Fixtures.sg 1) (0 + 1) (objectSchema, Fixtures.mem0)
    (reflect.mkField "Next" Fixtures.pNode (Fixtures.json "next"))
  = addDefinition_field Fixtures.universe Fixtures.sg
      (addDefinition Fixtures.universe Fixtures.sg 1) 1 (objectSchema, Fixtures.mem0)
      (reflect.mkField "Next" Fixtures.tNode (Fixtures.json "next")).
Proof.
  apply (proj1 (pointer_field_is_transparent Fixtures.universe Fixtures.sg
                  (addDefinition Fixtures.universe Fixtures.sg 1) 0
                  (reflect.mkField "Next" Fixtures.pNode (Fixtures.json "next"))
                  (reflect.mkField "Next" Fixtures.tNode (Fixtures.json "next"))
                  Fixtures.tNode eq_refl eq_refl eq_refl eq_refl
                  ltac:(discriminate))).
  discriminate.
Defined.

(** ** [addOperation]: what it leaves alone and what it registers *)

Lemma forRange_rel {A S} (R : S -> S -> Prop) (body : S -> A -> Res S) xs :
  (forall s, R s s) ->
  (forall a b c, R a b -> R b c -> R a c) ->
  (forall s x s', In x xs -> body s x = Ok s' -> R s s') ->
  forall s s', forRange body xs s = Ok s' -> R s s'.
Proof.
  intros Hrefl Htrans. induction xs as [|x xs IH]; intros Hbody s s' H.
  - injection H as <-. apply Hrefl.
  - rewrite forRange_cons in H. destruct (body s x) as [s1| |] eqn:E; try discriminate.
    rewrite bind_Ok in H. apply (Htrans _ s1).
    + apply (Hbody s x); [now left | exact E].
    + apply IH; [|exact H]. intros s0 y s0' Hy. apply Hbody. now right.
Qed.

Lemma slotKept_refl r a : slotKept r a a.
Proof. now left. Qed.

Lemma slotKept_trans r a b c : slotKept r a b -> slotKept r b c -> slotKept r a c.
Proof. unfold slotKept. intros [->| ->] [->| ->]; auto. Qed.

Lemma itemKept_refl r pi : itemKept r pi pi.
Proof. unfold itemKept. auto using slotKept_refl. Qed.

Lemma itemKept_trans r a b c : itemKept r a b -> itemKept r b c -> itemKept r a c.
Proof.
  unfold itemKept. intros (A1 & A2 & A3 & A4 & A5) (B1 & B2 & B3 & B4 & B5).
  eauto 10 using slotKept_trans.
Qed.

Lemma grows_refl r m : grows r m m.
Proof.
  unfold grows. repeat (split; [reflexivity|]).
  split; [exists []; now rewrite app_nil_r|]. split; [auto|].
  intros path. split; [auto | apply itemKept_refl].
Qed.

Lemma grows_trans r a b c : grows r a b -> grows r b c -> grows r a c.
Proof.
  intros (L1 & O1 & T1 & I1 & S1 & V1 & [l1 P1] & D1 & Q1)
         (L2 & O2 & T2 & I2 & S2 & V2 & [l2 P2] & D2 & Q2).
  unfold grows. split; [congruence|].
  split; [intros r' Hr; rewrite O2, O1; auto|].
  split; [congruence|]. split; [congruence|]. split; [congruence|]. split; [congruence|].
  split; [exists (l1 ++ l2); rewrite P2, P1; now rewrite app_assoc|].
  split; [auto|].
  intros path. destruct (Q1 path) as [E1 K1]. destruct (Q2 path) as [E2 K2].
  split; [auto | now apply (itemKept_trans r _ _ _ K1)].
Qed.

Lemma grows_extends r ws log m m' : extends ws log m m' -> grows r m m'.
Proof.
  intros E. pose proof (extends_keeps ws log m m') as K.
  assert (E' := E). destruct E as (D & S & O & P & T & I & C & V).
  unfold grows. rewrite O. split; [reflexivity|]. split; [reflexivity|].
  repeat (split; [assumption|]). split; [eauto|]. split; [intros k; now apply K|].
  intros path. unfold pathsOf. rewrite P. split; [auto | apply itemKept_refl].
Qed.

Lemma grows_storeOp r op m : grows r m (storeOp r op m).
Proof.
  unfold grows. simpl. split; [apply length_insert|].
  split; [intros r' Hr; apply list_lookup_insert_ne; congruence|].
  repeat (split; [reflexivity|]).
  split; [exists []; now rewrite app_nil_r|]. split; [auto|].
  intros path. split; [auto | apply itemKept_refl].
Qed.

Lemma grows_setPathItem r path pathItem m :
  itemKept r (default zeroPathItem (pathsOf m !! path)) pathItem ->
  grows r m (setPathItem path pathItem m).
Proof.
  intros K. unfold grows. simpl. repeat (split; [reflexivity|]).
  split; [exists []; now rewrite app_nil_r|]. split; [auto|].
  intros p. unfold pathsOf at 2 4. simpl.
  destruct (String.eqb_spec path p) as [->|Hne].
  - rewrite lookup_insert_eq. split; [eauto | exact K].
  - rewrite lookup_insert_ne by exact Hne. split; [auto | apply itemKept_refl].
Qed.

Section Registered_operations.
Variable U : reflect.Universe.
Variable sg : swaggerGen.

Lemma addOperation_method_kept r inType method op pathItem :
  itemKept r pathItem (addOperation_method U r inType method op pathItem).2.
Proof.
  unfold addOperation_method, itemKept, slotKept. cbv zeta.
  repeat (destruct (String.eqb _ _); [simpl; tauto|]). simpl. tauto.
Qed.

Lemma addOperation_method_slot r inType method op pathItem :
  forall slot,
    methodSlot method (addOperation_method U r inType method op pathItem).2 = Some slot ->
    slot = Some r.
Proof.
  unfold addOperation_method, methodSlot. cbv zeta.
  generalize (Strings.ToUpper method). intros M slot.
  destruct (String.eqb M "GET"); [simpl; congruence|].
  destruct (String.eqb M "DELETE"); [simpl; congruence|].
  destruct (String.eqb M "POST"); [simpl; congruence|].
  destruct (String.eqb M "PUT"); [simpl; congruence|].
  destruct (String.eqb M "PATCH"); [simpl; congruence|].
  discriminate.
Qed.

Lemma methodSlot_kept r method pi pi' :
  itemKept r pi pi' ->
  (forall slot, methodSlot method pi = Some slot -> slot = Some r) ->
  forall slot, methodSlot method pi' = Some slot -> slot = Some r.
Proof.
  unfold methodSlot, itemKept, slotKept. cbv zeta.
  generalize (Strings.ToUpper method). intros M (G & P & O & D & A) H slot.
  destruct (String.eqb M "GET");
    [intros [= <-]; destruct G as [-> | ->]; auto|].
  destruct (String.eqb M "DELETE");
    [intros [= <-]; destruct D as [-> | ->]; auto|].
  destruct (String.eqb M "POST");
    [intros [= <-]; destruct O as [-> | ->]; auto|].
  destruct (String.eqb M "PUT");
    [intros [= <-]; destruct P as [-> | ->]; auto|].
  destruct (String.eqb M "PATCH");
    [intros [= <-]; destruct A as [-> | ->]; auto|].
  discriminate.
Qed.

Lemma AddParam_head o p : operationHead (spec.AddParam o p) = operationHead o.
Proof. now destruct p. Qed.

Lemma setInput_head op path t op' :
  setInput U sg op path t = Ok op' -> operationHead op' = operationHead op.
Proof.
  unfold setInput. destruct (reflect.Fields U _) as [fs| |]; try discriminate.
  simpl. intros [= <-]. revert op.
  induction fs as [|f fs IH]; intros op; simpl; [reflexivity|].
  rewrite IH. unfold setInput_field.
  destruct (String.eqb _ ""); [reflexivity|].
  destruct (foundIn _ _); apply AddParam_head.
Qed.

Lemma addOperation_method_head r inType method op pathItem :
  operationHead (addOperation_method U r inType method op pathItem).1 = operationHead op.
Proof.
  rewrite addOperation_method_body.
  destruct (_ || _); [apply AddParam_head | reflexivity].
Qed.

(** One turn of the loop over the selectors, taken apart. *)
Lemma addOperation_selector_inv n r inType outType op0 m0 method path op1 m1 :
  addOperation_selector U sg n r inType outType (op0, m0) (desc.REST method path)
  = Ok (op1, m1) ->
  exists opa ma mb,
    setInput U sg op0 path inType = Ok opa
    /\ addDefinition U sg n (storeOp r opa m0) inType = Ok ma
    /\ addDefinition U sg n ma outType = Ok mb
    /\ op1 = (addOperation_method U r inType method opa
                (default zeroPathItem (pathsOf mb !! replacePath path))).1
    /\ m1 = setPathItem (replacePath path)
              (addOperation_method U r inType method opa
                 (default zeroPathItem (pathsOf mb !! replacePath path))).2
              (storeOp r op1 mb).
Proof.
  rewrite addOperation_selector_eq. intros H.
  destruct (setInput U sg op0 path inType) as [opa| |]; try discriminate.
  rewrite bind_Ok in H.
  destruct (addDefinition U sg n (storeOp r opa m0) inType) as [ma| |] eqn:Ea;
    try discriminate.
  rewrite bind_Ok in H.
  destruct (addDefinition U sg n ma outType) as [mb| |] eqn:Eb; try discriminate.
  rewrite bind_Ok in H. injection H as <- <-.
  exists opa, ma, mb. split; [reflexivity|]. split; [exact Ea|]. split; [exact Eb|].
  split; reflexivity.
Qed.

Lemma addOperation_selector_grows n r inType outType op0 m0 sel op1 m1 :
  addOperation_selector U sg n r inType outType (op0, m0) sel = Ok (op1, m1) ->
  grows r m0 m1 /\ operationHead op1 = operationHead op0.
Proof.
  destruct sel as [method path|]; [|intros [= <- <-]; split; [apply grows_refl | reflexivity]].
  intros H. apply addOperation_selector_inv in H as (opa & ma & mb & Ei & Ea & Eb & -> & ->).
  split.
  - apply (grows_trans r _ (storeOp r opa m0)); [apply grows_storeOp|].
    apply addDefinition_frame in Ea as (ws1 & l1 & Ea).
    apply addDefinition_frame in Eb as (ws2 & l2 & Eb).
    apply (grows_trans r _ ma); [now apply (grows_extends r ws1 l1)|].
    apply (grows_trans r _ mb); [now apply (grows_extends r ws2 l2)|].
    apply (grows_trans r _ (storeOp r
                              (addOperation_method U r inType method opa
                                 (default zeroPathItem (pathsOf mb !! replacePath path))).1
                              mb)); [apply grows_storeOp|].
    apply grows_setPathItem. apply addOperation_method_kept.
  - rewrite addOperation_method_head. exact (setInput_head _ _ _ _ Ei).
Qed.

Lemma selectors_loop_grows n r inType outType sels op0 m0 op1 m1 :
  forRange (addOperation_selector U sg n r inType outType) sels (op0, m0) = Ok (op1, m1) ->
  grows r m0 m1 /\ operationHead op1 = operationHead op0.
Proof.
  apply (forRange_rel
           (fun a b : spec.Operation * Mem =>
              grows r a.2 b.2 /\ operationHead b.1 = operationHead a.1)).
  - intros s. split; [apply grows_refl | reflexivity].
  - intros a b c [G1 H1] [G2 H2]. split; [now apply (grows_trans r _ b.2) | congruence].
  - intros [opa ma] sel [opb mb] _. apply addOperation_selector_grows.
Qed.

Lemma errors_loop_grows n r pes pe0 op0 m0 pe1 op1 m1 :
  forRange (addOperation_error U sg n r) pes (pe0, op0, m0) = Ok (pe1, op1, m1) ->
  grows r m0 m1 /\ operationHead op1 = operationHead op0.
Proof.
  apply (forRange_rel
           (fun a b : gmap Z (list string) * spec.Operation * Mem =>
              grows r a.2 b.2 /\ operationHead b.1.2 = operationHead a.1.2)).
  - intros s. split; [apply grows_refl | reflexivity].
  - intros a b c [G1 H1] [G2 H2]. split; [now apply (grows_trans r _ b.2) | congruence].
  - intros [[pa opa] ma] pe [[pb opb] mb] _. rewrite addOperation_error_eq.
    destruct (addDefinition U sg n ma _) as [mc| |] eqn:Ea; try discriminate.
    rewrite bind_Ok. intros [= <- <- <-]. simpl. split; [|reflexivity].
    apply addDefinition_frame in Ea as (ws & l & Ea).
    apply (grows_trans r _ mc); [now apply (grows_extends r ws l) | apply grows_storeOp].
Qed.

Lemma pathsOf_makePaths m : pathsOf (makePaths m) = pathsOf m.
Proof.
  unfold makePaths, pathsOf.
  destruct (Paths (swag m)) eqn:E; simpl; [now rewrite E | reflexivity].
Qed.

Lemma definitionsOf_makePaths m : definitionsOf (makePaths m) = definitionsOf m.
Proof. unfold makePaths, definitionsOf. now destruct (Paths (swag m)). Qed.

(** The two loops of a returning [addOperation], with the operation
    object they work on. *)
Lemma addOperation_inv n m serviceName c m' :
  addOperation U sg n m serviceName c = Ok m' ->
  exists pe1 op1 m1 op2,
    forRange (addOperation_error U sg n (length (ops m))) (desc.PossibleErrors c)
      (∅, initialOperation U serviceName c,
       (newOp (initialOperation U serviceName c) (makePaths m)).2) = Ok (pe1, op1, m1)
    /\ forRange (addOperation_selector U sg n (length (ops m))
                   (reflect.IndirectType U (desc.Input c))
                   (reflect.IndirectType U (desc.Output c)))
         (desc.Selectors c) (op1, m1) = Ok (op2, m')
    /\ ops m1 !! length (ops m) = Some op1
    /\ ops m' !! length (ops m) = Some op2
    /\ length (ops m1) = S (length (ops m)).
Proof.
  rewrite addOperation_eq, ops_makePaths. intros H.
  destruct (forRange (addOperation_error U sg n (length (ops m))) _ _)
    as [[[pe1 op1] m1]| |] eqn:E1; try discriminate.
  rewrite bind_Ok in H.
  destruct (forRange (addOperation_selector U sg n (length (ops m)) _ _) _ _)
    as [[op2 m2]| |] eqn:E2; try discriminate.
  rewrite bind_Ok in H. injection H as <-.
  exists pe1, op1, m1, op2. split; [reflexivity|]. split; [exact E2|].
  assert (L0 : length (ops (newOp (initialOperation U serviceName c) (makePaths m)).2)
               = S (length (ops m))).
  { simpl. rewrite ops_makePaths, length_app. simpl. lia. }
  apply errors_loop in E1 as (_ & Hop1 & Hlen1).
  2: { rewrite L0. lia. }
  2: { simpl. rewrite ops_makePaths. apply list_lookup_middle. reflexivity. }
  apply selectors_loop in E2 as (_ & Hop2 & _); [|rewrite Hlen1, L0; lia|exact Hop1].
  split; [exact Hop1|]. split; [exact Hop2 | congruence].
Qed.

(** The one operation a returning [addOperation] adds to the store. *)
Lemma addOperation_new_operation n m serviceName c m' :
  addOperation U sg n m serviceName c = Ok m' ->
  exists op,
    ops m' = ops m ++ [op]
    /\ operationHead op = operationHead (initialOperation U serviceName c)
    /\ grows (length (ops m)) (newOp (initialOperation U serviceName c) (makePaths m)).2 m'.
Proof.
  intros H. apply addOperation_inv in H as (pe1 & op1 & m1 & op2 & E1 & E2 & Hop1 & Hop2 & L1).
  apply errors_loop_grows in E1 as [G1 H1].
  apply selectors_loop_grows in E2 as [G2 H2].
  pose proof (grows_trans _ _ _ _ G1 G2) as G. clear G1 G2.
  exists op2. split; [|split; [congruence | exact G]].
  destruct G as (L & O & _). simpl in L, O. rewrite ops_makePaths in L, O.
  apply list_eq. intros i.
  destruct (lt_eq_lt_dec i (length (ops m))) as [[Hlt| ->]|Hgt].
  - rewrite O by lia. rewrite !lookup_app_l by lia. reflexivity.
  - rewrite Hop2. symmetry. apply list_lookup_middle. reflexivity.
  - rewrite O by lia.
    rewrite !lookup_ge_None_2; [reflexivity | |]; rewrite length_app; simpl; lia.
Qed.

(** X9.  A returning [addOperation] makes exactly one new operation,
    with the contract's name as identifier, the service's name as its
    only tag and JSON as the media type both ways.  The operations made
    before are untouched, as are tags, info, schemes and version; no
    definition and no path is removed, and every slot of a path item
    that was there is kept or now points to the new operation. *)
Theorem addOperation_adds_one_operation (n : nat) (m m' : Mem) (serviceName : string)
    (c : desc.Contract) :
  addOperation U sg n m serviceName c = Ok m' ->
  (exists op,
      ops m' = ops m ++ [op]
      /\ spec.opID op = desc.ContractName c
      /\ spec.opTags op = [serviceName]
      /\ spec.opProduces op = ["application/json"]
      /\ spec.opConsumes op = ["application/json"])
  /\ Tags (swag m') = Tags (swag m)
  /\ Info (swag m') = Info (swag m)
  /\ Schemes (swag m') = Schemes (swag m)
  /\ SwaggerVersion (swag m') = SwaggerVersion (swag m)
  /\ (forall k, is_Some (definitionsOf m !! k) -> is_Some (definitionsOf m' !! k))
  /\ (forall path pathItem,
        pathsOf m !! path = Some pathItem ->
        exists pathItem',
          pathsOf m' !! path = Some pathItem'
          /\ itemKept (length (ops m)) pathItem pathItem').
Proof.
  intros H. apply addOperation_new_operation in H as (op & Eo & Eh & G).
  destruct G as (_ & _ & T & I & S & V & _ & D & Q).
  simpl in T, I, S, V.
  split.
  - exists op. split; [exact Eo|].
    unfold operationHead in Eh. simpl in Eh. injection Eh as -> -> -> ->. auto.
  - unfold makePaths in T, I, S, V.
    split; [destruct (Paths (swag m)); exact T|].
    split; [destruct (Paths (swag m)); exact I|].
    split; [destruct (Paths (swag m)); exact S|].
    split; [destruct (Paths (swag m)); exact V|].
    split.
    + intros k Hk. apply D. change (is_Some (definitionsOf (makePaths m) !! k)).
      now rewrite definitionsOf_makePaths.
    + intros path pathItem Hp. destruct (Q path) as [Q1 Q2].
      change (pathsOf _ !! path) with (pathsOf (makePaths m) !! path) in Q1 at 1.
      change (pathsOf _ !! path) with (pathsOf (makePaths m) !! path) in Q2 at 1.
      rewrite pathsOf_makePaths in Q1, Q2. rewrite Hp in Q1, Q2.
      destruct Q1 as [pathItem' E]; [eauto|]. rewrite E in Q2. eauto.
Qed.

Lemma pathsOf_setPathItem path pathItem m :
  pathsOf (setPathItem path pathItem m) !! path = Some pathItem.
Proof. unfold pathsOf. simpl. apply lookup_insert_eq. Qed.

Lemma selectors_loop_registered n r inType outType sels : forall op0 m0 op1 m1,
  forRange (addOperation_selector U sg n r inType outType) sels (op0, m0) = Ok (op1, m1) ->
  (forall method path,
      In (desc.REST method path) sels ->
      exists pathItem,
        pathsOf m1 !! replacePath path = Some pathItem
        /\ forall slot, methodSlot method pathItem = Some slot -> slot = Some r)
  /\ (forall key,
        is_Some (pathsOf m1 !! key) ->
        is_Some (pathsOf m0 !! key)
        \/ exists method path, In (desc.REST method path) sels /\ replacePath path = key).
Proof.
  induction sels as [|sel sels IH]; intros op0 m0 op1 m1 H.
  - injection H as <- <-. split; [intros ? ? [] | auto].
  - rewrite forRange_cons in H.
    destruct (addOperation_selector U sg n r inType outType (op0, m0) sel)
      as [[opa ma]| |] eqn:E; try discriminate.
    rewrite bind_Ok in H. destruct (IH _ _ _ _ H) as [IH1 IH2].
    apply selectors_loop_grows in H as [(_ & _ & _ & _ & _ & _ & _ & _ & Q) _].
    split.
    + intros method path [->|Hin]; [|now apply IH1].
      apply addOperation_selector_inv in E as (opb & mb & mc & _ & _ & _ & _ & ->).
      destruct (Q (replacePath path)) as [Q1 Q2].
      rewrite pathsOf_setPathItem in Q1, Q2.
      destruct Q1 as [pathItem' E']; [eauto|]. rewrite E' in Q2.
      exists pathItem'. split; [exact E'|].
      apply (methodSlot_kept r method _ _ Q2). apply addOperation_method_slot.
    + intros key Hk. destruct (IH2 key Hk) as [Hk'|(method & path & Hin & <-)].
      * destruct sel as [method path|]; [|injection E as <- <-; now left].
        apply addOperation_selector_inv in E as (opb & mb & mc & _ & Eb & Ec & _ & ->).
        destruct (String.eqb_spec (replacePath path) key) as [<-|Hne];
          [right; exists method, path; split; [now left | reflexivity]|].
        left. unfold pathsOf in Hk' at 1. simpl in Hk'.
        rewrite lookup_insert_ne in Hk' by exact Hne.
        change (is_Some (pathsOf mc !! key)) in Hk'.
        apply addDefinition_frame in Eb as (? & ? & (_ & _ & _ & Pb & _)).
        apply addDefinition_frame in Ec as (? & ? & (_ & _ & _ & Pc & _)).
        unfold pathsOf in *. simpl in Pb. now rewrite Pc, Pb in Hk'.
      * right. exists method, path. split; [now right | reflexivity].
Qed.

Lemma errors_loop_paths n r pes pe0 op0 m0 pe1 op1 m1 :
  forRange (addOperation_error U sg n r) pes (pe0, op0, m0) = Ok (pe1, op1, m1) ->
  Paths (swag m1) = Paths (swag m0).
Proof.
  apply (forRange_rel
           (fun a b : gmap Z (list string) * spec.Operation * Mem =>
              Paths (swag b.2) = Paths (swag a.2))).
  - reflexivity.
  - intros a b c. simpl. congruence.
  - intros [[pa opa] ma] pe [[pb opb] mb] _. rewrite addOperation_error_eq.
    destruct (addDefinition U sg n ma _) as [mc| |] eqn:Ea; try discriminate.
    rewrite bind_Ok. intros [= <- <- <-]. simpl.
    apply addDefinition_frame in Ea as (? & ? & (_ & _ & _ & P & _)). exact P.
Qed.

(** X10.  After a returning [addOperation], every REST selector of the
    contract has a path item under its rewritten path, and for the five
    methods GET, DELETE, POST, PUT and PATCH (in any letter case) the
    method's slot points to the contract's new operation; a selector
    with any other method still gets a path item, with no slot set by
    it.  The call adds no path other than the rewritten paths of the
    contract's REST selectors. *)
Theorem selectors_are_registered (n : nat) (m m' : Mem) (serviceName : string)
    (c : desc.Contract) :
  addOperation U sg n m serviceName c = Ok m' ->
  (forall method path,
      In (desc.REST method path) (desc.Selectors c) ->
      exists pathItem,
        pathsOf m' !! replacePath path = Some pathItem
        /\ forall slot, methodSlot method pathItem = Some slot ->
                        slot = Some (length (ops m)))
  /\ (forall key,
        is_Some (pathsOf m' !! key) ->
        is_Some (pathsOf m !! key)
        \/ exists method path,
             In (desc.REST method path) (desc.Selectors c) /\ replacePath path = key).
Proof.
  intros H. apply addOperation_inv in H as (pe1 & op1 & m1 & op2 & E1 & E2 & _).
  apply selectors_loop_registered in E2 as [R1 R2]. split; [exact R1|].
  intros key Hk. destruct (R2 key Hk) as [Hk'|Hk']; [left | now right].
  apply errors_loop_paths in E1. unfold pathsOf in Hk'. rewrite E1 in Hk'.
  change (is_Some (pathsOf (makePaths m) !! key)) in Hk'.
  now rewrite pathsOf_makePaths in Hk'.
Qed.

(** ** [addOperation]: all the responses of the operation *)

Lemma responseFor_initial serviceName c code :
  spec.responseFor (initialOperation U serviceName c) code =
  if (code =? 200)%Z
  then Some (spec.mkResponse ""
               (Some (definitionRef U (reflect.IndirectType U (desc.Output c)))))
  else None.
Proof.
  assert (E : spec.responseFor (initialOperation U serviceName c) code
              = spec.responseFor
                  (spec.RespondsWith (spec.NewOperation (desc.ContractName c)) 200
                     (spec.WithSchema spec.NewResponse
                        (definitionRef U (reflect.IndirectType U (desc.Output c)))))
                  code)
    by (apply responseFor_responses; reflexivity).
  rewrite E, responseFor_RespondsWith. destruct (code =? 200)%Z; [reflexivity|].
  unfold spec.responseFor. reflexivity.
Qed.

(** X11.  The responses of the operation a returning [addOperation]
    made, for every status code: under a code that some possible error
    declares, the merged error response; under 200, when no error
    declares it, a response with empty description whose schema refers
    to the definition of the output type; under any other code,
    nothing.  So an error declared under 200 replaces the success
    response. *)
Theorem operation_responses (n : nat) (m m' : Mem) (serviceName : string)
    (c : desc.Contract) :
  addOperation U sg n m serviceName c = Ok m' ->
  exists op,
    ops m' !! length (ops m) = Some op
    /\ forall code,
         spec.responseFor op code =
         match lastErrorFor code (desc.PossibleErrors c) with
         | Some last =>
             Some (spec.mkResponse
                     ("Items: " +:+ Strings.Join (itemsFor code (desc.PossibleErrors c)) ", ")
                     (Some (definitionRef U (reflect.IndirectType U (desc.Message last)))))
         | None =>
             if (code =? 200)%Z
             then Some (spec.mkResponse ""
                          (Some (definitionRef U (reflect.IndirectType U (desc.Output c)))))
             else None
         end.
Proof.
  intros H.
  apply addOperation_inv in H as (pe1 & op1 & m1 & op2 & E1 & E2 & Hop1 & Hop2 & L1).
  exists op2. split; [exact Hop2|]. intros code.
  apply errors_loop in E1 as (HR & _ & Hlen1).
  2: { simpl. rewrite ops_makePaths, length_app. simpl. lia. }
  2: { simpl. rewrite ops_makePaths. apply list_lookup_middle. reflexivity. }
  apply selectors_loop in E2 as (HS & _ & _); [|lia|exact Hop1].
  rewrite (responseFor_responses op2 op1 _ HS), HR.
  destruct (lastErrorFor code (desc.PossibleErrors c)); [|apply responseFor_initial].
  rewrite lookup_empty. reflexivity.
Qed.

(** ** [addOperation]: the parameters of the operation *)

Lemma replaceParam_keys ps p :
  match spec.replaceParam ps p with
  | Some ps' => map paramKey ps' = map paramKey ps /\ In (paramKey p) (map paramKey ps)
  | None => ~ In (paramKey p) (map paramKey ps)
  end.
Proof.
  induction ps as [|q ps IH]; simpl; [tauto|].
  destruct (String.eqb_spec (spec.parName q) (spec.parName p)) as [En|En]; simpl.
  - destruct (String.eqb_spec (spec.parIn q) (spec.parIn p)) as [Ei|Ei].
    + unfold paramKey. simpl. rewrite En, Ei. auto.
    + destruct (spec.replaceParam ps p); simpl.
      * destruct IH as [-> ?]. auto.
      * unfold paramKey in *. intros [[= _ ?]|?]; auto.
  - destruct (spec.replaceParam ps p); simpl.
    + destruct IH as [-> ?]. auto.
    + unfold paramKey in *. intros [[= ? _]|?]; auto.
Qed.

(** [AddParam] adds the parameter's key to the keys, and keeps them
    distinct. *)
Lemma AddParam_keys o p k :
  In k (map paramKey (spec.opParameters (spec.AddParam o (Some p))))
  <-> In k (map paramKey (spec.opParameters o)) \/ k = paramKey p.
Proof.
  simpl. pose proof (replaceParam_keys (spec.opParameters o) p) as H.
  destruct (spec.replaceParam (spec.opParameters o) p); simpl.
  - destruct H as [-> H]. split; [auto | intros [?| ->]; auto].
  - rewrite map_app, in_app_iff. simpl. split; [intros [?|[?|[]]]; auto | intros [?|?]; auto].
Qed.

Lemma AddParam_NoDup o p :
  NoDup (map paramKey (spec.opParameters o)) ->
  NoDup (map paramKey (spec.opParameters (spec.AddParam o p))).
Proof.
  destruct p as [p|]; [|auto]. simpl.
  pose proof (replaceParam_keys (spec.opParameters o) p) as H.
  destruct (spec.replaceParam (spec.opParameters o) p); simpl.
  - destruct H as [-> _]. auto.
  - intros ND. rewrite map_app. apply NoDup_app. split; [exact ND|].
    split; [|apply NoDup_singleton].
    intros k Hk Hk'. apply list_elem_of_In in Hk. apply list_elem_of_In in Hk'.
    destruct Hk' as [<-|[]]. contradiction.
Qed.

Lemma setInput_fields_keys pathParams fs : forall op name loc,
  In (name, loc)
    (map paramKey (spec.opParameters (fold_left (setInput_field U sg pathParams) fs op)))
  <-> In (name, loc) (map paramKey (spec.opParameters op))
      \/ exists f, In f fs
                   /\ reflect.Get (reflect.fieldTag f) (tagName sg) = name
                   /\ name <> ""
                   /\ hasWireType U (reflect.fieldType f) = true
                   /\ loc = (if foundIn name pathParams then "path" else "query").
Proof.
  induction fs as [|f fs IH]; intros op name loc; simpl.
  - split; [auto | intros [?|(? & [] & _)]; auto].
  - rewrite IH.
    destruct (setInput_field_cases U sg pathParams op f)
      as [[E ->]|[(Hn & Hw & ->)|(Hn & Hw & p & -> & Hpn & Hpi & _)]].
    + split; [intros [?|(g & ? & ?)]; [auto | right; exists g; tauto]|].
      intros [?|(g & [->|?] & En & Hne & ?)]; [auto | congruence | right; exists g; tauto].
    + split; [intros [?|(g & ? & ?)]; [auto | right; exists g; tauto]|].
      intros [?|(g & [->|?] & En & Hne & Hw' & ?)];
        [auto | congruence | right; exists g; tauto].
    + rewrite AddParam_keys. unfold paramKey at 2. rewrite Hpn, Hpi. split.
      * intros [[?|[= -> ->]]|(g & ? & ?)]; [auto | | right; exists g; tauto].
        right. exists f. auto 10.
      * intros [?|(g & [->|?] & <- & ? & ? & ->)]; [auto | auto | right; exists g; auto 10].
Qed.

Lemma setInput_fields_NoDup pathParams fs : forall op,
  NoDup (map paramKey (spec.opParameters op)) ->
  NoDup (map paramKey (spec.opParameters (fold_left (setInput_field U sg pathParams) fs op))).
Proof.
  induction fs as [|f fs IH]; intros op H; simpl; [exact H|].
  apply IH.
  destruct (setInput_field_cases U sg pathParams op f)
    as [[_ ->]|[(_ & _ & ->)|(_ & _ & p & -> & _)]]; auto using AddParam_NoDup.
Qed.

(** A returning [setInput] was given a record type. *)
Lemma setInput_inv op path t op' :
  setInput U sg op path t = Ok op' ->
  reflect.Kind_ U (recordOf U t) = reflect.Struct
  /\ op' = fold_left (setInput_field U sg (pathParamsOf path))
             (reflect.fields (U (recordOf U t))) op.
Proof.
  intros H.
  assert (K : reflect.Kind_ U (recordOf U t) = reflect.Struct).
  { unfold setInput, reflect.Fields in H. fold (recordOf U t) in H.
    destruct (reflect.Kind_ U (recordOf U t)); try discriminate. reflexivity. }
  split; [exact K|]. rewrite setInput_record in H by exact K. now injection H as <-.
Qed.

Lemma selectors_loop_keys n r inType outType sels : forall op0 m0 op1 m1,
  forRange (addOperation_selector U sg n r inType outType) sels (op0, m0) = Ok (op1, m1) ->
  (NoDup (map paramKey (spec.opParameters op0)) ->
   NoDup (map paramKey (spec.opParameters op1)))
  /\ forall name loc,
       In (name, loc) (map paramKey (spec.opParameters op1))
       <-> In (name, loc) (map paramKey (spec.opParameters op0))
           \/ (exists method path f,
                  In (desc.REST method path) sels
                  /\ In f (reflect.fields (U (recordOf U inType)))
                  /\ reflect.Get (reflect.fieldTag f) (tagName sg) = name
                  /\ name <> ""
                  /\ hasWireType U (reflect.fieldType f) = true
                  /\ loc = (if foundIn name (pathParamsOf path) then "path" else "query"))
           \/ (exists method path,
                  In (desc.REST method path) sels
                  /\ bodyMethod method = true
                  /\ name = reflect.Name U inType /\ loc = "body").
Proof.
  induction sels as [|sel sels IH]; intros op0 m0 op1 m1 H.
  - injection H as <- <-. split; [auto|]. intros name loc.
    split; [auto | intros [?|[(? & ? & ? & [] & _)|(? & ? & [] & _)]]; auto].
  - rewrite forRange_cons in H.
    destruct (addOperation_selector U sg n r inType outType (op0, m0) sel)
      as [[opa ma]| |] eqn:E; try discriminate.
    rewrite bind_Ok in H. destruct (IH _ _ _ _ H) as [IH1 IH2]. clear IH H.
    destruct sel as [method path|].
    2: { injection E as <- <-. split; [exact IH1|]. intros name loc. rewrite IH2.
         split.
         - intros [?|[(me & pa & f & ? & ?)|(me & pa & ? & ?)]]; [auto | |].
           + right. left. exists me, pa, f. split; [now right | tauto].
           + right. right. exists me, pa. split; [now right | tauto].
         - intros [?|[(me & pa & f & [?|?] & ?)|(me & pa & [?|?] & ?)]];
             [auto | discriminate | | discriminate |].
           + right. left. exists me, pa, f. tauto.
           + right. right. exists me, pa. tauto. }
    apply addOperation_selector_inv in E as (opb & mb & mc & Ei & _ & _ & -> & _).
    apply setInput_inv in Ei as [K ->].
    rewrite addOperation_method_body in IH1, IH2.
    change (String.eqb (Strings.ToUpper method) "POST"
            || String.eqb (Strings.ToUpper method) "PUT"
            || String.eqb (Strings.ToUpper method) "PATCH")
      with (bodyMethod method) in IH1, IH2.
    split.
    + intros ND. apply IH1.
      destruct (bodyMethod method); [apply AddParam_NoDup|];
        now apply setInput_fields_NoDup.
    + intros name loc. rewrite IH2. clear IH1 IH2.
      assert (G : In (name, loc)
                    (map paramKey
                       (spec.opParameters
                          (if bodyMethod method
                           then spec.AddParam
                                  (fold_left (setInput_field U sg (pathParamsOf path))
                                     (reflect.fields (U (recordOf U inType))) op0)
                                  (Some (spec.BodyParam (reflect.Name U inType)
                                           (definitionRef U inType)))
                           else fold_left (setInput_field U sg (pathParamsOf path))
                                  (reflect.fields (U (recordOf U inType))) op0)))
                  <-> In (name, loc) (map paramKey (spec.opParameters op0))
                      \/ (exists f,
                             In f (reflect.fields (U (recordOf U inType)))
                             /\ reflect.Get (reflect.fieldTag f) (tagName sg) = name
                             /\ name <> ""
                             /\ hasWireType U (reflect.fieldType f) = true
                             /\ loc = (if foundIn name (pathParamsOf path)
                                       then "path" else "query"))
                      \/ (bodyMethod method = true
                          /\ name = reflect.Name U inType /\ loc = "body")).
      { destruct (bodyMethod method).
        - rewrite AddParam_keys, setInput_fields_keys. unfold paramKey at 2. simpl.
          split; [intros [[?|?]|[= -> ->]]; auto | intros [?|[?|(_ & -> & ->)]]; auto].
        - rewrite setInput_fields_keys.
          split; [intros [?|?]; auto | intros [?|[?|(? & _)]]; auto; discriminate]. }
      rewrite G. clear G. split.
      * intros [[?|[(f & ?)|?]]|[(me & pa & f & ? & ?)|(me & pa & ? & ?)]].
        -- auto.
        -- right. left. exists method, path, f. split; [now left | assumption].
        -- right. right. exists method, path. split; [now left | assumption].
        -- right. left. exists me, pa, f. split; [now right | assumption].
        -- right. right. exists me, pa. split; [now right | assumption].
      * intros [?|[(me & pa & f & [[= -> ->]|?] & ?)|(me & pa & [[= -> ->]|?] & ?)]].
        -- auto.
        -- left. right. left. exists f. assumption.
        -- right. left. exists me, pa, f. tauto.
        -- left. right. right. assumption.
        -- right. right. exists me, pa. tauto.
Qed.

Lemma errors_loop_parameters n r pes pe0 op0 m0 pe1 op1 m1 :
  forRange (addOperation_error U sg n r) pes (pe0, op0, m0) = Ok (pe1, op1, m1) ->
  spec.opParameters op1 = spec.opParameters op0.
Proof.
  apply (forRange_rel
           (fun a b : gmap Z (list string) * spec.Operation * Mem =>
              spec.opParameters b.1.2 = spec.opParameters a.1.2)).
  - reflexivity.
  - intros a b c. simpl. congruence.
  - intros [[pa opa] ma] pe [[pb opb] mb] _. rewrite addOperation_error_eq.
    destruct (addDefinition U sg n ma _) as [mc| |]; try discriminate.
    rewrite bind_Ok. intros [= <- <- <-]. reflexivity.
Qed.

(** X12.  The parameters of the operation a returning [addOperation]
    made are pairwise distinct in name and location, and they are the
    union over all REST selectors of the contract: for every selector,
    one parameter per field of the input record with a non-empty tag
    value and a wire type, in the path or in the query as that
    selector's pattern says, and a body parameter named after the input
    type as soon as one selector is POST, PUT or PATCH.  Which selector
    the operation is looked up under makes no difference. *)
Theorem operation_parameters (n : nat) (m m' : Mem) (serviceName : string)
    (c : desc.Contract) :
  addOperation U sg n m serviceName c = Ok m' ->
  exists op,
    ops m' !! length (ops m) = Some op
    /\ NoDup (map paramKey (spec.opParameters op))
    /\ forall name loc,
         In (name, loc) (map paramKey (spec.opParameters op))
         <-> (exists method path f,
                 In (desc.REST method path) (desc.Selectors c)
                 /\ In f (reflect.fields
                            (U (recordOf U (reflect.IndirectType U (desc.Input c)))))
                 /\ reflect.Get (reflect.fieldTag f) (tagName sg) = name
                 /\ name <> ""
                 /\ hasWireType U (reflect.fieldType f) = true
                 /\ loc = (if foundIn name (pathParamsOf path) then "path" else "query"))
             \/ (exists method path,
                    In (desc.REST method path) (desc.Selectors c)
                    /\ bodyMethod method = true
                    /\ name = reflect.Name U (reflect.IndirectType U (desc.Input c))
                    /\ loc = "body").
Proof.
  intros H.
  apply addOperation_inv in H as (pe1 & op1 & m1 & op2 & E1 & E2 & Hop1 & Hop2 & L1).
  exists op2. split; [exact Hop2|].
  apply errors_loop_parameters in E1. simpl in E1.
  apply selectors_loop_keys in E2 as [ND K]. rewrite E1 in ND, K.
  split; [apply ND; constructor|].
  intros name loc. rewrite K. simpl. tauto.
Qed.

(** ** References and the definitions they name *)

(** A returning [addDefinition] was given a record type and has filed
    it under its name. *)
Lemma addDefinition_files n m t m' :
  addDefinition U sg n m t = Ok m' ->
  reflect.Kind_ U (recordOf U t) = reflect.Struct
  /\ is_Some (definitionsOf m' !! reflect.Name U (recordOf U t)).
Proof.
  intros H. destruct n as [|n]; [discriminate|]. rewrite addDefinition_S in H.
  unfold reflect.Fields in H.
  destruct (reflect.Kind_ U (recordOf U t)); try discriminate.
  split; [reflexivity|]. rewrite bind_Ok in H.
  destruct (forRange _ _ _) as [[def m1]| |]; try discriminate.
  rewrite bind_Ok in H. injection H as <-.
  unfold definitionsOf. simpl. rewrite lookup_insert_eq. eauto.
Qed.

Lemma grows_definitions r m m' k :
  grows r m m' -> is_Some (definitionsOf m !! k) -> is_Some (definitionsOf m' !! k).
Proof. intros (_ & _ & _ & _ & _ & _ & _ & D & _). apply D. Qed.

Lemma errors_loop_files n r pes : forall pe0 op0 m0 pe1 op1 m1,
  forRange (addOperation_error U sg n r) pes (pe0, op0, m0) = Ok (pe1, op1, m1) ->
  forall pe, In pe pes ->
    reflect.Kind_ U (recordOf U (reflect.IndirectType U (desc.Message pe))) = reflect.Struct
    /\ is_Some (definitionsOf m1
                  !! reflect.Name U (recordOf U (reflect.IndirectType U (desc.Message pe)))).
Proof.
  induction pes as [|pe pes IH]; intros pe0 op0 m0 pe1 op1 m1 H q Hq; [destruct Hq|].
  rewrite forRange_cons in H.
  destruct (addOperation_error U sg n r (pe0, op0, m0) pe) as [[[pea opa] ma]| |] eqn:E;
    try discriminate.
  rewrite bind_Ok in H. destruct Hq as [->|Hq]; [|now apply (IH _ _ _ _ _ _ H)].
  apply errors_loop_grows in H as [G _].
  rewrite addOperation_error_eq in E.
  destruct (addDefinition U sg n m0 _) as [mc| |] eqn:Ea; try discriminate.
  rewrite bind_Ok in E. injection E as _ _ <-.
  apply addDefinition_files in Ea as [K F]. split; [exact K|].
  apply (grows_definitions r _ _ _ G). exact F.
Qed.

Lemma selectors_loop_files n r inType outType sels : forall op0 m0 op1 m1,
  forRange (addOperation_selector U sg n r inType outType) sels (op0, m0) = Ok (op1, m1) ->
  forall method path, In (desc.REST method path) sels ->
    (reflect.Kind_ U (recordOf U inType) = reflect.Struct
     /\ is_Some (definitionsOf m1 !! reflect.Name U (recordOf U inType)))
    /\ (reflect.Kind_ U (recordOf U outType) = reflect.Struct
        /\ is_Some (definitionsOf m1 !! reflect.Name U (recordOf U outType))).
Proof.
  induction sels as [|sel sels IH]; intros op0 m0 op1 m1 H method path Hin; [destruct Hin|].
  rewrite forRange_cons in H.
  destruct (addOperation_selector U sg n r inType outType (op0, m0) sel)
    as [[opa ma]| |] eqn:E; try discriminate.
  rewrite bind_Ok in H. destruct Hin as [->|Hin]; [|now apply (IH _ _ _ _ H method path)].
  apply selectors_loop_grows in H as [G _].
  apply addOperation_selector_inv in E as (opb & mb & mc & _ & Eb & Ec & _ & ->).
  assert (Ec' := Ec). apply addDefinition_frame in Ec' as (ws & log & Ex).
  apply addDefinition_files in Eb as [Kb Fb]. apply addDefinition_files in Ec as [Kc Fc].
  split; (split; [assumption|]); apply (grows_definitions r _ _ _ G);
    unfold definitionsOf; simpl; fold (definitionsOf mc); [|exact Fc].
  now apply (extends_keeps ws log mb).
Qed.

(** X13.  What the references of an operation point to.  After a
    returning [addOperation] every possible error's message is a record
    whose definition is filed, and as soon as the contract has one REST
    selector so are the definitions of the input and output records.
    The entry is under the record's name, which is the name the
    operation's reference uses unless the message is a pointer to a
    pointer. *)
Theorem operation_references_are_filed (n : nat) (m m' : Mem) (serviceName : string)
    (c : desc.Contract) :
  addOperation U sg n m serviceName c = Ok m' ->
  (forall pe t,
      In pe (desc.PossibleErrors c) ->
      t = reflect.IndirectType U (desc.Message pe) ->
      reflect.Kind_ U (recordOf U t) = reflect.Struct
      /\ is_Some (definitionsOf m' !! reflect.Name U (recordOf U t))
      /\ (reflect.Kind_ U t <> reflect.Ptr -> recordOf U t = t))
  /\ (forall method path t,
        In (desc.REST method path) (desc.Selectors c) ->
        t = reflect.IndirectType U (desc.Input c)
        \/ t = reflect.IndirectType U (desc.Output c) ->
        reflect.Kind_ U (recordOf U t) = reflect.Struct
        /\ is_Some (definitionsOf m' !! reflect.Name U (recordOf U t))
        /\ (reflect.Kind_ U t <> reflect.Ptr -> recordOf U t = t)).
Proof.
  intros H. apply addOperation_inv in H as (pe1 & op1 & m1 & op2 & E1 & E2 & _).
  assert (R : forall t, reflect.Kind_ U t <> reflect.Ptr -> recordOf U t = t).
  { intros t K. unfold recordOf. now destruct (reflect.Kind_ U t). }
  split.
  - intros pe t Hpe ->.
    destruct (errors_loop_files _ _ _ _ _ _ _ _ _ E1 pe Hpe) as [K F].
    split; [exact K|]. split; [|apply R].
    apply selectors_loop_grows in E2 as [G _]. now apply (grows_definitions _ _ _ _ G).
  - intros method path t Hin Ht.
    destruct (selectors_loop_files _ _ _ _ _ _ _ _ _ E2 method path Hin)
      as [[Ki Fi] [Ko Fo]].
    destruct Ht as [-> | ->]; (split; [assumption|]); (split; [assumption | apply R]).
Qed.

Lemma append_inj_l p a b : p +:+ a = p +:+ b -> a = b.
Proof.
  induction p as [|x p IH]; [now rewrite !append_empty_l|].
  rewrite !append_cons. intros [= H]. now apply IH.
Qed.

Lemma resolvesIn_keys D D' def :
  (forall k, is_Some (D !! k) -> is_Some (D' !! k)) ->
  resolvesIn D def -> resolvesIn D' def.
Proof. intros K H pname s name Hs Hr. apply K. now apply (H pname s name). Qed.

Lemma closedDefinitions_insert D name def :
  closedDefinitions D -> resolvesIn D def -> closedDefinitions (<[name := def]> D).
Proof.
  intros C R k d Hk.
  assert (K : forall k, is_Some (D !! k) -> is_Some (<[name := def]> D !! k)).
  { intros k' Hk'. destruct (String.eqb_spec name k') as [->|Hne];
      [rewrite lookup_insert_eq; eauto | now rewrite lookup_insert_ne]. }
  destruct (String.eqb_spec name k) as [->|Hne].
  - rewrite lookup_insert_eq in Hk. injection Hk as <-. now apply (resolvesIn_keys D).
  - rewrite lookup_insert_ne in Hk by exact Hne.
    apply (resolvesIn_keys D); [exact K | now apply (C k)].
Qed.

(** A property set to a schema without reference keeps the references
    resolved; the schemas of the labelled switch other than the one for
    structs are such. *)
Lemma resolvesIn_SetProperty D def fName s :
  resolvesIn D def ->
  (forall name, refersTo s name -> is_Some (D !! name)) ->
  resolvesIn D (spec.SetProperty def fName s).
Proof.
  intros R Hs pname s' name Hp Hr. simpl in Hp.
  destruct (String.eqb_spec fName pname) as [->|Hne].
  - rewrite lookup_insert_eq in Hp. injection Hp as <-. now apply Hs.
  - rewrite lookup_insert_ne in Hp by exact Hne. now apply (R pname s' name).
Qed.

Lemma wrapping_cases t :
  (forall s, (wrapping U t).1 s = s) \/ (forall s, (wrapping U t).1 s = spec.ArrayProperty s).
Proof. unfold wrapping. destruct (reflect.Kind_ U t); simpl; auto. Qed.

Lemma refersTo_wrapped wrapFunc s name :
  (forall s, wrapFunc s = s) \/ (forall s, wrapFunc s = spec.ArrayProperty s) ->
  refersTo (wrapFunc s) name ->
  spec.schRef s = "#/definitions/" +:+ name
  \/ (exists item, spec.schItems s = Some item
                   /\ spec.schRef item = "#/definitions/" +:+ name).
Proof.
  intros [W|W]; rewrite W; [auto|].
  intros [H|(item & [= <-] & H)]; [discriminate H | now left].
Qed.

Lemma Switch_closed n k :
  (forall m t m', closedDefinitions (definitionsOf m) ->
                  addDefinition U sg n m t = Ok m' ->
                  closedDefinitions (definitionsOf m')) ->
  forall wrapFunc fName t def m def' m',
    (forall s, wrapFunc s = s) \/ (forall s, wrapFunc s = spec.ArrayProperty s) ->
    Switch U (addDefinition U sg n) k wrapFunc fName t def m = Ok (def', m') ->
    closedDefinitions (definitionsOf m) -> resolvesIn (definitionsOf m) def ->
    closedDefinitions (definitionsOf m') /\ resolvesIn (definitionsOf m') def'.
Proof.
  intros Hrec. induction k as [|k IH];
    intros wrapFunc fName t def m def' m' W H C R; [discriminate|].
  assert (B : forall s,
             spec.schRef s = "" ->
             (forall item, spec.schItems s = Some item -> spec.schRef item = "") ->
             resolvesIn (definitionsOf m) (spec.SetProperty def fName (wrapFunc s))).
  { intros s Hs Hi. apply resolvesIn_SetProperty; [exact R|].
    intros name Hr. apply (refersTo_wrapped _ _ _ W) in Hr as [Hr|(item & Ei & Hr)].
    - rewrite Hs in Hr. discriminate Hr.
    - rewrite (Hi item Ei) in Hr. discriminate Hr. }
  destruct (reflect.Kind_ U t) eqn:K.
  all: try (simpl in H; rewrite K in H; injection H as <- <-;
            split; [exact C|]; apply B; [reflexivity|];
            first [discriminate | intros item [= <-]; reflexivity]).
  - (* a pointer *)
    rewrite Switch_ptr in H by exact K. now apply (IH _ _ _ _ _ _ _ W H).
  - (* a struct *)
    rewrite Switch_struct in H by exact K.
    destruct (addDefinition U sg n m t) as [m1| |] eqn:E; try discriminate.
    rewrite bind_Ok in H. injection H as <- <-.
    split; [now apply (Hrec m t m1)|].
    assert (E' := E). apply addDefinition_frame in E' as (ws & log & Ex).
    apply addDefinition_files in E as [_ F].
    rewrite (recordOf_struct U t K) in F.
    apply resolvesIn_SetProperty.
    + apply (resolvesIn_keys (definitionsOf m)); [|exact R].
      intros key. apply (extends_keeps ws log m m1 key Ex).
    + intros name Hr. apply (refersTo_wrapped _ _ _ W) in Hr as [Hr|(item & Ei & Hr)].
      * simpl in Hr. apply append_inj_l in Hr as <-. exact F.
      * discriminate Ei.
Qed.

Lemma addDefinition_fields_closed n k fs :
  (forall m t m', closedDefinitions (definitionsOf m) ->
                  addDefinition U sg n m t = Ok m' ->
                  closedDefinitions (definitionsOf m')) ->
  forall def m def' m',
    forRange (addDefinition_field U sg (addDefinition U sg n) k) fs (def, m) = Ok (def', m') ->
    closedDefinitions (definitionsOf m) -> resolvesIn (definitionsOf m) def ->
    closedDefinitions (definitionsOf m') /\ resolvesIn (definitionsOf m') def'.
Proof.
  intros Hrec. induction fs as [|f fs IH]; intros def m def' m' H C R.
  - injection H as <- <-. auto.
  - rewrite forRange_cons in H.
    destruct (addDefinition_field U sg _ k (def, m) f) as [[def1 m1]| |] eqn:E;
      try discriminate.
    rewrite bind_Ok in H. unfold addDefinition_field in E.
    destruct (String.eqb _ "").
    + injection E as <- <-. now apply (IH _ _ _ _ H).
    + pose proof (wrapping_cases (reflect.fieldType f)) as W.
      destruct (wrapping U (reflect.fieldType f)) as [wrapFunc fType].
      destruct (Switch_closed n k Hrec _ _ _ _ _ _ _ W E C R) as [C1 R1].
      now apply (IH _ _ _ _ H).
Qed.

(** A returning [addDefinition] keeps the definitions closed under
    references. *)
Lemma addDefinition_closed n : forall m t m',
  closedDefinitions (definitionsOf m) ->
  addDefinition U sg n m t = Ok m' ->
  closedDefinitions (definitionsOf m').
Proof.
  induction n as [|n IH]; intros m t m' C H; [discriminate|].
  rewrite addDefinition_S in H.
  destruct (reflect.Fields U (recordOf U t)) as [fs| |]; try discriminate.
  rewrite bind_Ok in H.
  destruct (forRange _ _ _) as [[def m1]| |] eqn:E; try discriminate.
  rewrite bind_Ok in H. injection H as <-.
  apply (addDefinition_fields_closed n n fs IH) in E as [C1 R1].
  - unfold definitionsOf at 1. simpl. now apply closedDefinitions_insert.
  - destruct (extends_makeDefinitions m) as (-> & _). exact C.
  - intros pname s name Hp. simpl in Hp. rewrite lookup_empty in Hp. discriminate.
Qed.

Lemma forRange_keeps {A S} (P : S -> Prop) (body : S -> A -> Res S) xs :
  (forall s x s', In x xs -> P s -> body s x = Ok s' -> P s') ->
  forall s s', P s -> forRange body xs s = Ok s' -> P s'.
Proof.
  intros Hbody s s' Hs H. revert Hs.
  apply (forRange_rel (fun a b => P a -> P b) body xs); auto.
  intros a x b Hx E Ha. now apply (Hbody a x b).
Qed.

Lemma addOperation_closed n m serviceName c m' :
  closedDefinitions (definitionsOf m) ->
  addOperation U sg n m serviceName c = Ok m' ->
  closedDefinitions (definitionsOf m').
Proof.
  intros C H. apply addOperation_inv in H as (pe1 & op1 & m1 & op2 & E1 & E2 & _).
  apply (forRange_keeps
           (fun a : gmap Z (list string) * spec.Operation * Mem =>
              closedDefinitions (definitionsOf a.2))) in E1.
  - apply (forRange_keeps
             (fun a : spec.Operation * Mem => closedDefinitions (definitionsOf a.2))) in E2;
      [exact E2 | | exact E1].
    intros [opa ma] sel [opb mb] _ Ca E. simpl in *.
    destruct sel as [method path|]; [|now injection E as <- <-].
    apply addOperation_selector_inv in E as (opc & mc & md & _ & Ec & Ed & _ & ->).
    change (closedDefinitions (definitionsOf md)).
    apply (addDefinition_closed n _ _ _
             (addDefinition_closed n (storeOp (length (ops m)) opc ma) _ _ Ca Ec) Ed).
  - intros [[pa opa] ma] pe [[pb opb] mb] _ Ca. rewrite addOperation_error_eq.
    destruct (addDefinition U sg n ma _) as [mc| |] eqn:Ea; try discriminate.
    rewrite bind_Ok. intros [= <- <- <-]. simpl in *.
    apply (addDefinition_closed n _ _ _ Ca Ea).
  - simpl. change (closedDefinitions (definitionsOf (makePaths m))).
    now rewrite definitionsOf_makePaths.
Qed.

Lemma assemble_closed n services m m' :
  closedDefinitions (definitionsOf m) ->
  assemble U sg n services m = Ok m' ->
  closedDefinitions (definitionsOf m').
Proof.
  unfold assemble.
  apply (forRange_keeps (fun a : Mem => closedDefinitions (definitionsOf a))).
  intros ma s mb _ Ca. unfold assemble_service.
  apply (forRange_keeps (fun a : Mem => closedDefinitions (definitionsOf a))); [|exact Ca].
  intros mc c md _ Cc E. now apply (addOperation_closed n mc (desc.ServiceName s) c).
Qed.

(** ** Tags of the operations *)

Lemma addOperation_tagsDeclared n m serviceName c m' :
  tagsDeclared m ->
  In (spec.NewTag serviceName "") (Tags (swag m)) ->
  addOperation U sg n m serviceName c = Ok m' ->
  tagsDeclared m' /\ In (spec.NewTag serviceName "") (Tags (swag m')).
Proof.
  intros D Hs H. pose proof (addOperation_tags U sg _ _ _ _ _ H) as T.
  apply addOperation_new_operation in H as (op & Eo & Eh & _).
  rewrite T. split; [|exact Hs].
  intros o t Ho Ht. rewrite T. rewrite Eo in Ho. apply in_app_or in Ho as [Ho|[<-|[]]].
  - now apply (D o).
  - unfold operationHead in Eh. simpl in Eh. injection Eh as _ Et _ _.
    rewrite Et in Ht. destruct Ht as [<-|[]]. exact Hs.
Qed.

Lemma assemble_tagsDeclared n services : forall m m',
  tagsDeclared m -> assemble U sg n services m = Ok m' -> tagsDeclared m'.
Proof.
  unfold assemble. induction services as [|s services IH]; intros m m' D H.
  - now injection H as <-.
  - rewrite forRange_cons in H.
    destruct (assemble_service U sg n m s) as [ma| |] eqn:Ea; try discriminate.
    rewrite bind_Ok in H. apply (IH ma m'); [|exact H]. clear IH H.
    unfold assemble_service in Ea.
    assert (G : forall cs m0 m1,
               tagsDeclared m0 ->
               In (spec.NewTag (desc.ServiceName s) "") (Tags (swag m0)) ->
               forRange (fun m c => addOperation U sg n m (desc.ServiceName s) c) cs m0
               = Ok m1 ->
               tagsDeclared m1).
    { induction cs as [|c cs IHc]; intros m0 m1 D0 T0 H0.
      - now injection H0 as <-.
      - rewrite forRange_cons in H0.
        destruct (addOperation U sg n m0 (desc.ServiceName s) c) as [mb| |] eqn:Eb;
          try discriminate.
        rewrite bind_Ok in H0.
        destruct (addOperation_tagsDeclared _ _ _ _ _ D0 T0 Eb) as [Db Tb].
        now apply (IHc mb m1). }
    apply (G (desc.Contracts s) (addTag m s) ma); [| |exact Ea].
    + intros o t Ho Ht. simpl. apply in_or_app. left. now apply (D o).
    + simpl. apply in_or_app. right. now left.
Qed.

Lemma operationsOf_In os pathItem op :
  In op (operationsOf (derefPathItem os pathItem)) -> In op os.
Proof.
  unfold operationsOf, derefPathItem. simpl.
  destruct pathItem as [g p o d a]. simpl.
  assert (G : forall (x : option OpRef) l,
             In op (match x ≫= (fun r => os !! r) with Some y => y :: l | None => l end) ->
             In op os \/ In op l).
  { intros [r|] l; simpl; [|auto]. destruct (os !! r) as [y|] eqn:E; [|auto].
    intros [<-|?]; [|auto]. left. apply list_elem_of_In. now apply list_elem_of_lookup_2 with r. }
  intros H. unfold id in H.
  apply G in H as [?|H]; [assumption|]. apply G in H as [?|H]; [assumption|].
  apply G in H as [?|H]; [assumption|]. apply G in H as [?|H]; [assumption|].
  apply G in H as [?|[]]. assumption.
Qed.

(** ** A generator whose tag was never set *)

Lemma Get_no_key tag :
  (forall kv, In kv tag -> kv.1 <> "") -> reflect.Get tag "" = "".
Proof.
  induction tag as [|[k v] tag IH]; intros H; [reflexivity|]. simpl.
  destruct (String.eqb_spec k "") as [->|_].
  - exfalso. apply (H ("", v)); [now left | reflexivity].
  - apply IH. intros kv Hkv. apply H. now right.
Qed.

(** ** Fuel: a run that returns, returns the same with more fuel *)

Lemma addOperation_below n n' m serviceName c :
  n <= n' ->
  below (addOperation U sg n m serviceName c) (addOperation U sg n' m serviceName c).
Proof.
  intros Hle. rewrite !addOperation_eq.
  apply below_bind.
  - apply forRange_below. intros [[pe op] m0] e. rewrite !addOperation_error_eq.
    apply below_bind; [now apply addDefinition_below | intros; apply below_refl].
  - intros [[pe op] m0]. apply below_bind; [|intros [? ?]; apply below_refl].
    apply forRange_below. intros [op0 m1] [method path|]; [|apply below_refl].
    rewrite !addOperation_selector_eq.
    apply below_bind; [apply below_refl|]. intros opa.
    apply below_bind; [now apply addDefinition_below|]. intros ma.
    apply below_bind; [now apply addDefinition_below | intros; apply below_refl].
Qed.

Lemma assemble_fuel n n' services m m' :
  n <= n' -> assemble U sg n services m = Ok m' -> assemble U sg n' services m = Ok m'.
Proof.
  intros Hle H.
  assert (B : below (assemble U sg n services m) (assemble U sg n' services m)).
  { unfold assemble. apply forRange_below. intros m0 s. unfold assemble_service.
    apply forRange_below. intros m1 c. now apply addOperation_below. }
  rewrite H in B. now apply below_Ok.
Qed.

Lemma forRange_app {A S} (body : S -> A -> Res S) xs ys s :
  forRange body (xs ++ ys) s = forRange body xs s ≫= forRange body ys.
Proof.
  revert s. induction xs as [|x xs IH]; intros s; [reflexivity|].
  simpl. destruct (body s x); [apply IH | reflexivity | reflexivity].
Qed.

End Registered_operations.

(** The theorems at the contract of the test that has both a GET and a
    POST selector on [/some/:x/:y]. *)
Lemma addOperation_adds_one_operation_witness :
  exists m',
    addOperation Fixtures.universe Fixtures.sg 5 Fixtures.mem0 "testService"
      Fixtures.getAndPost = Ok m'
    /\ exists op,
         ops m' = ops Fixtures.mem0 ++ [op]
         /\ spec.opID op = "both"
         /\ spec.opTags op = ["testService"]
         /\ spec.opProduces op = ["application/json"]
         /\ spec.opConsumes op = ["application/json"].
Proof.
  destruct (addOperation Fixtures.universe Fixtures.sg 5 Fixtures.mem0 "testService"
              Fixtures.getAndPost) as [m'| |] eqn:E.
  - exists m'. split; [reflexivity|].
    exact (proj1 (addOperation_adds_one_operation Fixtures.universe Fixtures.sg 5
                    Fixtures.mem0 m' "testService" Fixtures.getAndPost E)).
  - vm_compute in E. discriminate E.
  - vm_compute in E. discriminate E.
Defined.

Lemma selectors_are_registered_witness :
  exists m',
    addOperation Fixtures.universe Fixtures.sg 5 Fixtures.mem0 "testService"
      Fixtures.getAndPost = Ok m'
    /\ forall method path,
         In (desc.REST method path) (desc.Selectors Fixtures.getAndPost) ->
         exists pathItem,
           pathsOf m' !! replacePath path = Some pathItem
           /\ forall slot, methodSlot method pathItem = Some slot ->
                           slot = Some (length (ops Fixtures.mem0)).
Proof.
  destruct (addOperation Fixtures.universe Fixtures.sg 5 Fixtures.mem0 "testService"
              Fixtures.getAndPost) as [m'| |] eqn:E.
  - exists m'. split; [reflexivity|].
    exact (proj1 (selectors_are_registered Fixtures.universe Fixtures.sg 5
                    Fixtures.mem0 m' "testService" Fixtures.getAndPost E)).
  - vm_compute in E. discriminate E.
  - vm_compute in E. discriminate E.
Defined.

Lemma operation_parameters_witness :
  exists m' op,
    addOperation Fixtures.universe Fixtures.sg 5 Fixtures.mem0 "testService"
      Fixtures.getAndPost = Ok m'
    /\ ops m' !! length (ops Fixtures.mem0) = Some op
    /\ NoDup (map paramKey (spec.opParameters op)).
Proof.
  destruct (addOperation Fixtures.universe Fixtures.sg 5 Fixtures.mem0 "testService"
              Fixtures.getAndPost) as [m'| |] eqn:E.
  - destruct (operation_parameters Fixtures.universe Fixtures.sg 5
                Fixtures.mem0 m' "testService" Fixtures.getAndPost E) as (op & Ho & ND & _).
    exists m', op. split; [reflexivity|]. split; [exact Ho | exact ND].
  - vm_compute in E. discriminate E.
  - vm_compute in E. discriminate E.
Defined.

(** The theorems at the contract of the test with two errors under one
    status code. *)
Lemma operation_responses_witness :
  exists m' op,
    addOperation Fixtures.universe Fixtures.sg 5 Fixtures.mem0 "testService"
      Fixtures.sharedCode = Ok m'
    /\ ops m' !! length (ops Fixtures.mem0) = Some op
    /\ spec.responseFor op 200 =
       Some (spec.mkResponse ""
               (Some (definitionRef Fixtures.universe Fixtures.tSampleRes))).
Proof.
  destruct (addOperation Fixtures.universe Fixtures.sg 5 Fixtures.mem0 "testService"
              Fixtures.sharedCode) as [m'| |] eqn:E.
  - destruct (operation_responses Fixtures.universe Fixtures.sg 5
                Fixtures.mem0 m' "testService" Fixtures.sharedCode E) as (op & Ho & R).
    exists m', op. split; [reflexivity|]. split; [exact Ho | exact (R 200%Z)].
  - vm_compute in E. discriminate E.
  - vm_compute in E. discriminate E.
Defined.

Lemma operation_references_are_filed_witness :
  exists m',
    addOperation Fixtures.universe Fixtures.sg 5 Fixtures.mem0 "testService"
      Fixtures.sharedCode = Ok m'
    /\ forall pe, In pe (desc.PossibleErrors Fixtures.sharedCode) ->
         is_Some (definitionsOf m'
                    !! reflect.Name Fixtures.universe
                         (recordOf Fixtures.universe
                            (reflect.IndirectType Fixtures.universe (desc.Message pe)))).
Proof.
  destruct (addOperation Fixtures.universe Fixtures.sg 5 Fixtures.mem0 "testService"
              Fixtures.sharedCode) as [m'| |] eqn:E.
  - exists m'. split; [reflexivity|]. intros pe Hpe.
    exact (proj1 (proj2 (proj1 (operation_references_are_filed Fixtures.universe
                                  Fixtures.sg 5 Fixtures.mem0 m' "testService"
                                  Fixtures.sharedCode E) pe _ Hpe eq_refl))).
  - vm_compute in E. discriminate E.
  - vm_compute in E. discriminate E.
Defined.

(** ** The document after a run *)

Section Documents.
Variable U : reflect.Universe.
Variable sg : swaggerGen.
Variable error World Writer : Type.
Variable Write : Writer -> string -> World -> World * option error.
Variable Create : string -> World -> World * (Writer + error).
Variable MarshalJSON : Swagger spec.Operation -> string + error.

(** X14.  A returning [WriteTo] keeps the definitions closed under
    references: if no property of a definition referred to a missing
    definition before the call (as in a fresh generator, which has no
    definition), none does after it.  Every [$ref] that [addDefinition]
    writes for a nested record, directly or as the items of an array,
    names an entry of the map. *)
Theorem WriteTo_keeps_definitions_closed (n : nat) (w : Writer)
    (services : list desc.Service) (m m' : Mem) (world world' : World)
    (err : option error) :
  closedDefinitions (definitionsOf m) ->
  WriteTo U sg error World Writer Write MarshalJSON n w services m world
  = Ok (m', world', err) ->
  closedDefinitions (definitionsOf m').
Proof.
  intros C H. apply WriteTo_assemble in H.
  exact (assemble_closed U sg n services m m' C H).
Qed.

(** X15.  After a returning [WriteTo] on a store whose operations have
    their tags declared (a fresh generator has no operation), every tag
    of every operation that a path item of the encoded document points
    to is among the declared tags of the document. *)
Theorem operation_tags_are_declared (n : nat) (w : Writer)
    (services : list desc.Service) (m m' : Mem) (world world' : World)
    (err : option error) :
  tagsDeclared m ->
  WriteTo U sg error World Writer Write MarshalJSON n w services m world
  = Ok (m', world', err) ->
  forall paths key pathItem op t,
    Paths (document m') = Some paths ->
    paths !! key = Some pathItem ->
    In op (operationsOf pathItem) ->
    In t (spec.opTags op) ->
    In (spec.NewTag t "") (Tags (document m')).
Proof.
  intros D H paths key pathItem op t Hp Hk Ho Ht.
  apply WriteTo_assemble in H. apply (assemble_tagsDeclared U sg n services m m' D) in H.
  simpl in Hp. destruct (Paths (swag m')) as [ps|]; [|discriminate].
  injection Hp as <-. rewrite lookup_fmap in Hk.
  destruct (ps !! key) as [pi0|]; [|discriminate]. injection Hk as <-.
  apply operationsOf_In in Ho. simpl. now apply (H op).
Qed.

(** X16.  Two successive returning calls of [WriteTo] compose: the
    document the second call encodes is the document that one call with
    the two lists of services in a row, started where the first call
    started, encodes (given enough fuel, and whatever the writer). *)
Theorem successive_runs_compose (n1 n2 : nat) (w1 w2 : Writer)
    (services1 services2 : list desc.Service) (m m1 m2 : Mem)
    (world world1 world2 : World) (err1 err2 : option error) :
  WriteTo U sg error World Writer Write MarshalJSON n1 w1 services1 m world
  = Ok (m1, world1, err1) ->
  WriteTo U sg error World Writer Write MarshalJSON n2 w2 services2 m1 world1
  = Ok (m2, world2, err2) ->
  exists n, forall n', n <= n' ->
  forall w world0,
  exists world' err',
    WriteTo U sg error World Writer Write MarshalJSON n' w (services1 ++ services2) m world0
    = Ok (m2, world', err').
Proof.
  intros H1 H2. apply WriteTo_assemble in H1, H2.
  exists (Nat.max n1 n2). intros n' Hle w world0.
  apply (assemble_fuel U sg n1 n') in H1; [|lia].
  apply (assemble_fuel U sg n2 n') in H2; [|lia].
  rewrite WriteTo_eq. unfold assemble in *. rewrite forRange_app, H1, bind_Ok, H2, bind_Ok.
  eexists. eexists. reflexivity.
Qed.

End Documents.

(** The three theorems at the service on [a.Item] and the stand-in
    sink. *)
Lemma WriteTo_keeps_definitions_closed_witness :
  exists m' world' err,
    WriteTo Fixtures.universe Fixtures.sg string (list string) unit
      Fixtures.sinkWrite Fixtures.encodeTagNames 3 tt [Fixtures.itemService]
      Fixtures.mem0 [] = Ok (m', world', err)
    /\ closedDefinitions (definitionsOf m').
Proof.
  destruct (WriteTo Fixtures.universe Fixtures.sg string (list string) unit
              Fixtures.sinkWrite Fixtures.encodeTagNames 3 tt [Fixtures.itemService]
              Fixtures.mem0 []) as [[[m' world'] err]| |] eqn:E.
  - exists m', world', err. split; [reflexivity|].
    apply (WriteTo_keeps_definitions_closed Fixtures.universe Fixtures.sg string
             (list string) unit Fixtures.sinkWrite Fixtures.encodeTagNames 3 tt
             [Fixtures.itemService] Fixtures.mem0 m' [] world' err); [|exact E].
    intros k def H. unfold definitionsOf in H. simpl in H.
    rewrite lookup_empty in H. discriminate H.
  - vm_compute in E. discriminate E.
  - vm_compute in E. discriminate E.
Defined.

Lemma operation_tags_are_declared_witness :
  exists m' world' err,
    WriteTo Fixtures.universe Fixtures.sg string (list string) unit
      Fixtures.sinkWrite Fixtures.encodeTagNames 3 tt [Fixtures.itemService]
      Fixtures.mem0 [] = Ok (m', world', err)
    /\ forall paths key pathItem op t,
         Paths (document m') = Some paths ->
         paths !! key = Some pathItem ->
         In op (operationsOf pathItem) ->
         In t (spec.opTags op) ->
         In (spec.NewTag t "") (Tags (document m')).
Proof.
  destruct (WriteTo Fixtures.universe Fixtures.sg string (list string) unit
              Fixtures.sinkWrite Fixtures.encodeTagNames 3 tt [Fixtures.itemService]
              Fixtures.mem0 []) as [[[m' world'] err]| |] eqn:E.
  - exists m', world', err. split; [reflexivity|].
    apply (operation_tags_are_declared Fixtures.universe Fixtures.sg string
             (list string) unit Fixtures.sinkWrite Fixtures.encodeTagNames 3 tt
             [Fixtures.itemService] Fixtures.mem0 m' [] world' err); [|exact E].
    intros op t [].
  - vm_compute in E. discriminate E.
  - vm_compute in E. discriminate E.
Defined.

Lemma successive_runs_compose_witness :
  exists m1 world1 err1 m2 world2 err2,
    WriteTo Fixtures.universe Fixtures.sg string (list string) unit
      Fixtures.sinkWrite Fixtures.encodeTagNames 3 tt [Fixtures.itemService]
      Fixtures.mem0 [] = Ok (m1, world1, err1)
    /\ WriteTo Fixtures.universe Fixtures.sg string (list string) unit
         Fixtures.sinkWrite Fixtures.encodeTagNames 3 tt [Fixtures.itemService]
         m1 world1 = Ok (m2, world2, err2)
    /\ exists n, forall n', n <= n' ->
       forall w world0,
       exists world' err',
         WriteTo Fixtures.universe Fixtures.sg string (list string) unit
           Fixtures.sinkWrite Fixtures.encodeTagNames n' w
           ([Fixtures.itemService] ++ [Fixtures.itemService]) Fixtures.mem0 world0
         = Ok (m2, world', err').
Proof.
  destruct (WriteTo Fixtures.universe Fixtures.sg string (list string) unit
              Fixtures.sinkWrite Fixtures.encodeTagNames 3 tt [Fixtures.itemService]
              Fixtures.mem0 []) as [[[m1 world1] err1]| |] eqn:E1.
  2, 3: vm_compute in E1; discriminate E1.
  destruct (WriteTo Fixtures.universe Fixtures.sg string (list string) unit
              Fixtures.sinkWrite Fixtures.encodeTagNames 3 tt [Fixtures.itemService]
              m1 world1) as [[[m2 world2] err2]| |] eqn:E2.
  - exists m1, world1, err1, m2, world2, err2.
    split; [reflexivity|]. split; [exact E2|].
    exact (successive_runs_compose Fixtures.universe Fixtures.sg string
             (list string) unit Fixtures.sinkWrite Fixtures.encodeTagNames
             3 3 tt tt [Fixtures.itemService] [Fixtures.itemService]
             Fixtures.mem0 m1 m2 [] world1 world2 err1 err2 E1 E2).
  - exfalso. vm_compute in E1. injection E1 as <- <- <-.
    vm_compute in E2. discriminate E2.
  - exfalso. vm_compute in E1. injection E1 as <- <- <-.
    vm_compute in E2. discriminate E2.
Defined.

(** ** A generator whose tag key was never set *)

Section Untagged.
Variable U : reflect.Universe.

Lemma setInput_field_untagged sg pathParams op f :
  reflect.Get (reflect.fieldTag f) (tagName sg) = "" ->
  setInput_field U sg pathParams op f = op.
Proof. intros E. unfold setInput_field. now rewrite E. Qed.

(** X17.  A generator as [NewSwagger] returns it, on which [WithTag]
    was not called, looks every field up under the empty tag key, which
    no conventional struct tag has: on a record type [setInput] then
    adds no parameter at all, and [addDefinition] files an object
    definition without properties, with no nested call. *)
Theorem generator_without_tag_sees_no_field (title ver desc : string) (t : reflect.Typ) :
  reflect.Kind_ U (recordOf U t) = reflect.Struct ->
  (forall f kv, In f (reflect.fields (U (recordOf U t))) ->
                In kv (reflect.fieldTag f) -> kv.1 <> "") ->
  (forall op path, setInput U (NewSwagger title ver desc).1 op path t = Ok op)
  /\ (forall n m,
        addDefinition U (NewSwagger title ver desc).1 (S n) m t
        = Ok (setDefinition (reflect.Name U (recordOf U t)) objectSchema
                (makeDefinitions m))).
Proof.
  intros K Hk.
  assert (G : forall f, In f (reflect.fields (U (recordOf U t))) ->
                        reflect.Get (reflect.fieldTag f)
                          (tagName (NewSwagger title ver desc).1) = "").
  { intros f Hf. apply Get_no_key. intros kv. now apply (Hk f). }
  split.
  - intros op path. rewrite setInput_record by exact K. f_equal.
    revert G. generalize (reflect.fields (U (recordOf U t))).
    induction l as [|f fs IH]; intros G; [reflexivity|]. cbn [fold_left].
    rewrite setInput_field_untagged by (apply G; now left).
    apply IH. intros g Hg. apply G. now right.
  - intros n m. rewrite addDefinition_S. unfold reflect.Fields. rewrite K, bind_Ok.
    assert (L : forall fs acc,
               (forall f, In f fs -> reflect.Get (reflect.fieldTag f)
                                       (tagName (NewSwagger title ver desc).1) = "") ->
               forRange (addDefinition_field U (NewSwagger title ver desc).1
                           (addDefinition U (NewSwagger title ver desc).1 n) n) fs acc
               = Ok acc).
    { induction fs as [|f fs IH]; intros [def m0] Hfs; [reflexivity|].
      rewrite forRange_cons, addDefinition_field_untagged by (apply Hfs; now left).
      rewrite bind_Ok. apply IH. intros g Hg. apply Hfs. now right. }
    rewrite (L _ _ G). reflexivity.
Qed.

End Untagged.

(** The theorem at the request type of the test. *)
Lemma generator_without_tag_sees_no_field_witness :
  setInput Fixtures.universe (NewSwagger "TestTitle" "v0.0.1" "").1
    (spec.NewOperation "op") "/some/:x/:y" Fixtures.pSampleReq
  = Ok (spec.NewOperation "op").
Proof.
  apply (generator_without_tag_sees_no_field Fixtures.universe "TestTitle" "v0.0.1" ""
           Fixtures.pSampleReq).
  - reflexivity.
  - intros f kv Hf Hkv. simpl in Hf.
    destruct Hf as [<-|[<-|[<-|[<-|[]]]]]; destruct Hkv as [<-|[]]; discriminate.
Defined.

(** ** [setInput]: a second call changes nothing *)

Lemma replaceParam_head_eq q l p :
  paramKey q = paramKey p -> spec.replaceParam (q :: l) p = Some (p :: l).
Proof.
  unfold paramKey. intros [= En Ei]. simpl. now rewrite En, Ei, !String.eqb_refl.
Qed.

Lemma replaceParam_head_ne q l p :
  paramKey q <> paramKey p ->
  spec.replaceParam (q :: l) p = cons q <$> spec.replaceParam l p.
Proof.
  unfold paramKey. intros H. simpl.
  destruct (String.eqb_spec (spec.parName q) (spec.parName p)) as [En|En]; [|reflexivity].
  destruct (String.eqb_spec (spec.parIn q) (spec.parIn p)) as [Ei|Ei]; [|reflexivity].
  exfalso. apply H. congruence.
Qed.

Lemma paramKey_dec (q p : spec.Param) : {paramKey q = paramKey p} + {paramKey q <> paramKey p}.
Proof.
  unfold paramKey.
  destruct (String.eqb_spec (spec.parName q) (spec.parName p)) as [En|En];
    [|right; congruence].
  destruct (String.eqb_spec (spec.parIn q) (spec.parIn p)) as [Ei|Ei];
    [left; congruence | right; congruence].
Qed.

(** The parameters after [AddParam], on a list that starts with a
    parameter of the same key, and on one that does not. *)
Lemma added_head_eq q l p :
  paramKey q = paramKey p ->
  default ((q :: l) ++ [p]) (spec.replaceParam (q :: l) p) = p :: l.
Proof. intros E. now rewrite replaceParam_head_eq. Qed.

Lemma added_head_ne q l p :
  paramKey q <> paramKey p ->
  default ((q :: l) ++ [p]) (spec.replaceParam (q :: l) p)
  = q :: default (l ++ [p]) (spec.replaceParam l p).
Proof.
  intros E. rewrite replaceParam_head_ne by exact E.
  now destruct (spec.replaceParam l p).
Qed.

(** Adding two parameters of the same key leaves the second. *)
Lemma added_same_key l p1 p2 :
  paramKey p1 = paramKey p2 ->
  default (default (l ++ [p1]) (spec.replaceParam l p1) ++ [p2])
    (spec.replaceParam (default (l ++ [p1]) (spec.replaceParam l p1)) p2)
  = default (l ++ [p2]) (spec.replaceParam l p2).
Proof.
  intros E. induction l as [|q l IH].
  - change (default ([p1] ++ [p2]) (spec.replaceParam [p1] p2) = [p2]).
    now apply added_head_eq.
  - destruct (paramKey_dec q p1) as [E1|E1].
    + rewrite (added_head_eq q l p1 E1), (added_head_eq p1 l p2 E).
      rewrite added_head_eq by congruence. reflexivity.
    + rewrite (added_head_ne q l p1 E1).
      rewrite !added_head_ne by congruence. now rewrite IH.
Qed.

(** Adding two parameters of different keys, one of which is there
    already, in either order gives the same list. *)
Lemma added_commute l p q :
  paramKey p <> paramKey q ->
  In (paramKey q) (map paramKey l) ->
  default (default (l ++ [p]) (spec.replaceParam l p) ++ [q])
    (spec.replaceParam (default (l ++ [p]) (spec.replaceParam l p)) q)
  = default (default (l ++ [q]) (spec.replaceParam l q) ++ [p])
      (spec.replaceParam (default (l ++ [q]) (spec.replaceParam l q)) p).
Proof.
  intros Hne. induction l as [|x l IH]; intros Hin; [destruct Hin|].
  destruct (paramKey_dec x p) as [Ep|Ep]; destruct (paramKey_dec x q) as [Eq|Eq].
  - congruence.
  - rewrite (added_head_eq x l p Ep), (added_head_ne x l q Eq).
    rewrite (added_head_ne p l q Hne). now rewrite added_head_eq.
  - rewrite (added_head_ne x l p Ep), (added_head_eq x l q Eq).
    rewrite added_head_eq by exact Eq. rewrite added_head_ne by congruence. reflexivity.
  - rewrite (added_head_ne x l p Ep), (added_head_ne x l q Eq).
    rewrite !added_head_ne by assumption. rewrite IH; [reflexivity|].
    destruct Hin as [Hin|Hin]; [congruence | exact Hin].
Qed.

Lemma AddParam_same_key o p1 p2 :
  paramKey p1 = paramKey p2 ->
  spec.AddParam (spec.AddParam o (Some p1)) (Some p2) = spec.AddParam o (Some p2).
Proof. intros E. unfold spec.AddParam. simpl. now rewrite added_same_key. Qed.

Lemma AddParam_commute o p q :
  paramKey p <> paramKey q ->
  In (paramKey q) (map paramKey (spec.opParameters o)) ->
  spec.AddParam (spec.AddParam o (Some p)) (Some q)
  = spec.AddParam (spec.AddParam o (Some q)) (Some p).
Proof. intros E H. unfold spec.AddParam. simpl. now rewrite added_commute. Qed.

Lemma AddParam_fold_keys ps : forall o k,
  In k (map paramKey (spec.opParameters
                        (fold_left (fun o p => spec.AddParam o (Some p)) ps o)))
  <-> In k (map paramKey (spec.opParameters o)) \/ In k (map paramKey ps).
Proof.
  induction ps as [|p ps IH]; intros o k; [simpl; tauto|].
  cbn [fold_left]. rewrite IH, AddParam_keys. cbn [map In].
  split; [intros [[?|?]|?]; auto | intros [?|[?|?]]; auto].
Qed.

(** A parameter added before a run of additions whose keys are all
    there, and added again after it, might as well only be added
    after it. *)
Lemma AddParam_fold_absorbs ps : forall o p,
  (forall q, In q ps -> In (paramKey q) (map paramKey (spec.opParameters o))) ->
  spec.AddParam
    (fold_left (fun o p => spec.AddParam o (Some p)) ps (spec.AddParam o (Some p))) (Some p)
  = spec.AddParam (fold_left (fun o p => spec.AddParam o (Some p)) ps o) (Some p).
Proof.
  induction ps as [|q ps IH]; intros o p H.
  - simpl fold_left. now apply AddParam_same_key.
  - cbn [fold_left]. destruct (paramKey_dec p q) as [E|E].
    + now rewrite (AddParam_same_key o p q E).
    + rewrite (AddParam_commute o p q E) by (apply H; now left).
      apply IH. intros x Hx. apply AddParam_keys. left. apply H. now right.
Qed.

Lemma AddParam_fold_idempotent ps : forall o,
  fold_left (fun o p => spec.AddParam o (Some p)) ps
    (fold_left (fun o p => spec.AddParam o (Some p)) ps o)
  = fold_left (fun o p => spec.AddParam o (Some p)) ps o.
Proof.
  induction ps as [|p ps IH] using rev_ind; intros o; [reflexivity|].
  rewrite !fold_left_app. cbn [fold_left].
  rewrite AddParam_fold_absorbs.
  - now rewrite IH.
  - intros q Hq. apply AddParam_fold_keys. right. now apply in_map.
Qed.

Section Twice.
Variable U : reflect.Universe.
Variable sg : swaggerGen.

(** What the loop of [setInput] does to the operation is a run of
    [AddParam]s that does not depend on the operation. *)
Lemma setInput_fields_additions pathParams fs :
  exists ps, forall op,
    fold_left (setInput_field U sg pathParams) fs op
    = fold_left (fun o p => spec.AddParam o (Some p)) ps op.
Proof.
  induction fs as [|f fs [ps IH]]; [exists []; reflexivity|].
  assert (G : exists x, forall op, setInput_field U sg pathParams op f = spec.AddParam op x).
  { unfold setInput_field. destruct (String.eqb _ ""); [exists None; reflexivity|].
    destruct (foundIn _ _); eexists; reflexivity. }
  destruct G as [[p|] G].
  - exists (p :: ps). intros op. cbn [fold_left]. now rewrite G, IH.
  - exists ps. intros op. cbn [fold_left]. now rewrite G, IH.
Qed.

(** X18.  [setInput] is idempotent: called again with the same pattern
    and type on the operation it returned, it returns that operation
    unchanged, parameters in the same order.  In [addOperation], a
    further selector with the same path pattern therefore adds no query
    or path parameter. *)
Theorem setInput_twice (op op' : spec.Operation) (path : string) (inType : reflect.Typ) :
  setInput U sg op path inType = Ok op' ->
  setInput U sg op' path inType = Ok op'.
Proof.
  intros H. apply setInput_inv in H as [K ->].
  rewrite setInput_record by exact K. f_equal.
  destruct (setInput_fields_additions (pathParamsOf path)
              (reflect.fields (U (recordOf U inType)))) as [ps E].
  rewrite !E. apply AddParam_fold_idempotent.
Qed.

End Twice.

(** The theorem at the request type of the test. *)
Lemma setInput_twice_witness :
  exists op',
    setInput Fixtures.universe Fixtures.sg (spec.NewOperation "op") "/some/:x/:y"
      Fixtures.pSampleReq = Ok op'
    /\ setInput Fixtures.universe Fixtures.sg op' "/some/:x/:y" Fixtures.pSampleReq = Ok op'.
Proof.
  eexists. split; [reflexivity|].
  apply (setInput_twice Fixtures.universe Fixtures.sg (spec.NewOperation "op")).
  reflexivity.
Defined.

(** ** The head of the document *)

Section Head.
Variable U : reflect.Universe.
Variable sg : swaggerGen.
Variable error World Writer : Type.
Variable Write : Writer -> string -> World -> World * option error.
Variable Create : string -> World -> World * (Writer + error).
Variable MarshalJSON : Swagger spec.Operation -> string + error.

Lemma addOperation_head n m serviceName c m' :
  addOperation U sg n m serviceName c = Ok m' ->
  Info (swag m') = Info (swag m)
  /\ Schemes (swag m') = Schemes (swag m)
  /\ SwaggerVersion (swag m') = SwaggerVersion (swag m).
Proof.
  intros H. apply addOperation_new_operation in H as (op & _ & _ & G).
  destruct G as (_ & _ & _ & I & S & V & _). simpl in I, S, V.
  unfold makePaths in I, S, V. destruct (Paths (swag m)); auto.
Qed.

Lemma assemble_head n services m m' :
  assemble U sg n services m = Ok m' ->
  Info (swag m') = Info (swag m)
  /\ Schemes (swag m') = Schemes (swag m)
  /\ SwaggerVersion (swag m') = SwaggerVersion (swag m).
Proof.
  unfold assemble.
  apply (forRange_rel
           (fun a b : Mem =>
              Info (swag b) = Info (swag a)
              /\ Schemes (swag b) = Schemes (swag a)
              /\ SwaggerVersion (swag b) = SwaggerVersion (swag a))).
  - auto.
  - intros a b c (I1 & S1 & V1) (I2 & S2 & V2). repeat split; congruence.
  - intros ma s mb _. unfold assemble_service. intros H.
    assert (G : Info (swag mb) = Info (swag (addTag ma s))
                /\ Schemes (swag mb) = Schemes (swag (addTag ma s))
                /\ SwaggerVersion (swag mb) = SwaggerVersion (swag (addTag ma s))).
    { revert H.
      apply (forRange_rel
               (fun a b : Mem =>
                  Info (swag b) = Info (swag a)
                  /\ Schemes (swag b) = Schemes (swag a)
                  /\ SwaggerVersion (swag b) = SwaggerVersion (swag a))).
      - auto.
      - intros a b c (I1 & S1 & V1) (I2 & S2 & V2). repeat split; congruence.
      - intros mc c md _. apply addOperation_head. }
    exact G.
Qed.

(** X19.  The head of the document a fresh generator writes: whatever
    the services, a returning [WriteTo] on the document [NewSwagger]
    made encodes the title, version and description given to
    [NewSwagger], the schemes http and https, Swagger version 2.0, and
    one tag per service, named after it, in the order of the
    services. *)
Theorem fresh_document_head (title ver desc : string) (n : nat) (w : Writer)
    (services : list desc.Service) (m' : Mem) (world world' : World)
    (err : option error) :
  WriteTo U sg error World Writer Write MarshalJSON n w services
    (NewSwagger title ver desc).2 world = Ok (m', world', err) ->
  Info (document m') = Some (spec.mkInfo desc title ver)
  /\ Schemes (document m') = ["http"; "https"]
  /\ SwaggerVersion (document m') = "2.0"
  /\ Tags (document m') = map (fun s => spec.NewTag (desc.ServiceName s) "") services.
Proof.
  intros H. apply WriteTo_assemble in H.
  destruct (assemble_head _ _ _ _ H) as (I & S & V).
  apply assemble_tags in H. simpl. rewrite I, S, V, H. auto.
Qed.

End Head.

(** The theorem at the service on [a.Item] and the stand-in sink. *)
Lemma fresh_document_head_witness :
  exists m' world' err,
    WriteTo Fixtures.universe Fixtures.sg string (list string) unit
      Fixtures.sinkWrite Fixtures.encodeTagNames 3 tt [Fixtures.itemService]
      (NewSwagger "TestTitle" "v0.0.1" "").2 [] = Ok (m', world', err)
    /\ Info (document m') = Some (spec.mkInfo "" "TestTitle" "v0.0.1")
    /\ Schemes (document m') = ["http"; "https"]
    /\ SwaggerVersion (document m') = "2.0"
    /\ Tags (document m') = [spec.NewTag "items" ""].
Proof.
  destruct (WriteTo Fixtures.universe Fixtures.sg string (list string) unit
              Fixtures.sinkWrite Fixtures.encodeTagNames 3 tt [Fixtures.itemService]
              (NewSwagger "TestTitle" "v0.0.1" "").2 []) as [[[m' world'] err]| |] eqn:E.
  - exists m', world', err. split; [reflexivity|].
    exact (fresh_document_head Fixtures.universe Fixtures.sg string
             (list string) unit Fixtures.sinkWrite Fixtures.encodeTagNames
             "TestTitle" "v0.0.1" "" 3 tt [Fixtures.itemService] m' [] world' err E).
  - vm_compute in E. discriminate E.
  - vm_compute in E. discriminate E.
Defined.
